(** * transformers_neuronx.sampling: a shallow embedding and its properties

    The development follows [src/transformers_neuronx/sampling.py].

    Conventions of the embedding.
    - A 2-D tensor is the list of its rows; the batch size is the number of
      rows and [size(-1)] is the length of the first row.
    - Token ids, vocabulary indices, lengths and cache positions are Python
      or int64 integers: [Z].  Where torch converts a Python integer to
      64 bits, the embedding is about integers that fit ([int64]).
    - A score is a rational ([Q]) or minus infinity.  The arithmetic of
      the tensor runtime is a parameter [fexp : arith] of the embedding:
      its exponential, which [softmax] uses before a token is drawn, and
      the cumulative probabilities that line 137 compares with [top_p],
      which the platform rounds.  [exact_arith] is the arithmetic without
      rounding.
    - Where torch leaves the order of equal scores open ([torch.sort],
      [torch.topk]), the embedding takes them in the order of their
      positions.
    - The model is an opaque stateful callable: it is a function on an
      abstract model state, and every forward call is recorded in the
      world, together with the state of the random source read by
      [torch.multinomial].
    - A Python exception is a value of [exn]; [ValueError] is what the
      specification calls [InvalidParameter]. *)

From Stdlib Require Import String.
From Stdlib Require Import List ZArith QArith Bool Lia Lqa Permutation Sorted.
Import ListNotations.

Set Implicit Arguments.

(** ** Python values, exceptions *)

Inductive pyobj : Type :=
| PyNone
| PyInt (z : Z)
| PyFloat (q : Q)
| PyStr (s : string).

Inductive exn : Type := ValueError | RuntimeError | IndexError | TypeError.

Inductive result (A : Type) : Type :=
| Ok (a : A)
| Raise (e : exn).

Arguments Ok {A} a.
Arguments Raise {A} e.

Definition rbind {A B} (r : result A) (k : A -> result B) : result B :=
  match r with
  | Ok a => k a
  | Raise e => Raise e
  end.

Fixpoint rmap_list {A B} (f : A -> result B) (l : list A) : result (list B) :=
  match l with
  | [] => Ok []
  | a :: l' =>
      rbind (f a) (fun b => rbind (rmap_list f l') (fun bs => Ok (b :: bs)))
  end.

(** ** The validator (sampling.py, lines 104-112) *)

(** [top_k is not None and (not isinstance(top_k, int) or not (top_k > 0))] *)
Definition top_k_illegal (top_k : pyobj) : bool :=
  match top_k with
  | PyNone => false
  | PyInt k => negb (0 <? k)%Z
  | _ => true
  end.

(** [top_p is not None and (not isinstance(top_p, float)
     or not (0.0 < top_p <= 1.0))] *)
Definition top_p_illegal (top_p : pyobj) : bool :=
  match top_p with
  | PyNone => false
  | PyFloat p => negb (negb (Qle_bool p 0) && Qle_bool p 1)
  | _ => true
  end.

(** [min_tokens_to_keep is not None and
     (not isinstance(min_tokens_to_keep, int) or min_tokens_to_keep < 0)] *)
Definition min_tokens_illegal (m : pyobj) : bool :=
  match m with
  | PyNone => false
  | PyInt z => (z <? 0)%Z
  | _ => true
  end.

Definition validate_top_k_top_p_min_tokens_to_keep
  (top_k top_p min_tokens_to_keep : pyobj) : result unit :=
  if top_k_illegal top_k then Raise ValueError
  else if top_p_illegal top_p then Raise ValueError
  else if min_tokens_illegal min_tokens_to_keep then Raise ValueError
  else Ok tt.

(** [not isinstance(temperature, float) or not (temperature > 0)]
    (sampling.py, line 175) *)
Definition temperature_illegal (temperature : pyobj) : bool :=
  match temperature with
  | PyFloat t => Qle_bool t 0
  | _ => true
  end.

(** ** Tensors *)

Inductive score : Type :=
| NegInf
| Fin (q : Q).

Definition matrix (A : Type) : Type := list (list A).

(** Token ids are entries of int64 tensors, and a Python int compared
    with a tensor or used as an index of one is converted to that type;
    the embedding follows the code for integers that fit. *)
Definition int64 (z : Z) : Prop := (- 2 ^ 63 <= z < 2 ^ 63)%Z.

(** [input_ids.shape[1]], [scores.size(dim=-1)]; a batch is written as
    the list of its rows, so a batch without rows has width 0. *)
Definition width {A} (m : matrix A) : Z :=
  match m with
  | [] => 0
  | r :: _ => Z.of_nat (length r)
  end.

(** [torch.arange(n)] *)
Definition arange (n : Z) : list Z := map Z.of_nat (seq 0 (Z.to_nat n)).

(** Strict order on scores. *)
Definition score_ltb (a b : score) : bool :=
  match a, b with
  | NegInf, NegInf => false
  | NegInf, Fin _ => true
  | Fin _, NegInf => false
  | Fin x, Fin y => negb (Qle_bool y x)
  end.

Definition is_neginf (s : score) : bool :=
  match s with
  | NegInf => true
  | Fin _ => false
  end.

(** A row paired with the positions of its entries. *)
Definition enumerate (row : list score) : list (score * Z) :=
  combine row (arange (Z.of_nat (length row))).

(** [torch.sort(_, descending=True)] on one row: the order of equal scores
    is left open by torch; the embedding fixes the stable one. *)
Fixpoint insert_desc (x : score * Z) (l : list (score * Z)) : list (score * Z) :=
  match l with
  | [] => [x]
  | y :: l' =>
      if score_ltb (fst x) (fst y) then y :: insert_desc x l' else x :: l
  end.

Definition sort_desc (l : list (score * Z)) : list (score * Z) :=
  fold_right insert_desc [] l.

Definition sort_row (row : list score) : list score * list Z :=
  List.split (sort_desc (enumerate row)).

(** [torch.topk(row, k)]: the [k] largest entries, in descending order,
    equal scores in the order of [sort_desc]; [k] is an [int64]. *)
Definition topk_row (k : Z) (row : list score) : result (list score * list Z) :=
  if (k <? 0)%Z || (Z.of_nat (length row) <? k)%Z then Raise RuntimeError
  else Ok (List.split (firstn (Z.to_nat k) (sort_desc (enumerate row)))).

Definition topk (scores : matrix score) (k : Z)
  : result (matrix score * matrix Z) :=
  rbind (rmap_list (topk_row k) scores) (fun rs => Ok (List.split rs)).

(** Reading position [j] of a row; torch raises when [j] is out of range. *)
Definition lookup {A} (row : list A) (j : Z) : result A :=
  if (j <? 0)%Z then Raise IndexError
  else match nth_error row (Z.to_nat j) with
       | Some x => Ok x
       | None => Raise IndexError
       end.

(** [torch.index_select(m, dim=-1, index=idx)] *)
Definition index_select {A} (m : matrix A) (idx : list Z) : result (matrix A) :=
  rmap_list (fun row => rmap_list (lookup row) idx) m.

(** [m[0]] *)
Definition row0 {A} (m : matrix A) : result (list A) :=
  match m with
  | [] => Raise IndexError
  | r :: _ => Ok r
  end.

(** [torch.gather(m, 1, pos)] where [pos] holds one position per row. *)
Fixpoint gather {A} (m : matrix A) (pos : list Z) : result (list A) :=
  match m, pos with
  | [], [] => Ok []
  | row :: m', p :: pos' =>
      rbind (lookup row p) (fun x =>
      rbind (gather m' pos') (fun xs => Ok (x :: xs)))
  | _, _ => Raise RuntimeError
  end.

(** ** Softmax and cumulative probabilities *)

Definition weight (fexp : Q -> Q) (s : score) : Q :=
  match s with
  | NegInf => 0
  | Fin q => fexp q
  end.

Definition qsum (l : list Q) : Q := fold_right Qplus 0 l.

(** [torch.nn.functional.softmax(row, dim=-1)]; [None] is a row of NaN
    (every entry of a non-empty row is minus infinity). *)
Definition softmax_row (fexp : Q -> Q) (row : list score) : option (list Q) :=
  match row with
  | [] => Some []
  | _ =>
      if forallb is_neginf row then None
      else let ws := map (weight fexp) row in
           Some (map (fun w => w / qsum ws) ws)
  end.

(** [torch.cumsum(row, dim=-1)] *)
Fixpoint cumsum_from (acc : Q) (l : list Q) : list Q :=
  match l with
  | [] => []
  | x :: l' => (acc + x) :: cumsum_from (acc + x) l'
  end.

Definition cumsum (l : list Q) : list Q := cumsum_from 0 l.

(** [(cumulative_probs <= top_p).int().sum(dim=-1)] on one row; a
    comparison with NaN is false. *)
Definition count_le (top_p : Q) (cum : option (list Q)) : Z :=
  match cum with
  | None => 0
  | Some cs => Z.of_nat (length (filter (fun c => Qle_bool c top_p) cs))
  end.

(** [torch.cumsum(torch.nn.functional.softmax(row, dim=-1), dim=-1)] in
    exact arithmetic. *)
Definition exact_cumulative (fexp : Q -> Q) (sorted_row : list score)
  : option (list Q) :=
  option_map cumsum (softmax_row fexp sorted_row).

(** The arithmetic of the platform.  Line 137 compares cumulative
    probabilities computed in floating point with [top_p], and a rounded
    sum can fall on either side of the threshold; so the cumulative
    probabilities of a row are those that the platform computes, given
    here beside its exponential: [a_cumulative row] is [None] for a row
    of NaN and otherwise gives the cumulative probability at each
    position of the row.  [exact_arith] is the instance without
    rounding. *)
Record arith : Type := {
  a_exp : Q -> Q;
  a_cumulative : list score -> option (nat -> Q)
}.

Coercion a_exp : arith >-> Funclass.

(** [torch.cumsum(torch.nn.functional.softmax(sorted_scores, dim=-1),
    dim=-1)] on one row (line 137); the result has the shape of the
    row. *)
Definition cumulative_probs (fexp : arith) (sorted_row : list score)
  : option (list Q) :=
  option_map (fun c => map c (seq 0 (length sorted_row)))
    (a_cumulative fexp sorted_row).

Definition exact_arith (fexp : Q -> Q) : arith :=
  {| a_exp := fexp;
     a_cumulative := fun row =>
       option_map (fun cs j => nth j cs 0) (exact_cumulative fexp row) |}.

(** ** The filtering engine (sampling.py, lines 115-168) *)

(** [safe_size]: [min(max(size, min_tokens_to_keep), input_size)] *)
Definition safe_size (min_tokens_to_keep input_size size : Z) : Z :=
  Z.min (Z.max size min_tokens_to_keep) input_size.

Definition input_value_and_indices (scores : matrix score)
  : matrix score * matrix Z :=
  (scores, map (fun _ => arange (width scores)) scores).

Definition filter_by_top_k (scores : matrix score) (min_tokens_to_keep top_k : Z)
  : result (matrix score * matrix Z) :=
  topk scores (safe_size min_tokens_to_keep (width scores) top_k).

(** Python's [max] of a sequence of ints. *)
Definition py_max (l : list Z) : result Z :=
  match l with
  | [] => Raise ValueError
  | x :: l' => Ok (fold_left Z.max l' x)
  end.

(** [row[n:] = -inf] *)
Definition mask_from (n : Z) (row : list score) : list score :=
  firstn (Z.to_nat n) row ++ repeat NegInf (length row - Z.to_nat n).

Definition n_to_keep_row (fexp : arith) (min_tokens_to_keep input_size : Z)
  (top_p : Q) (sorted_row : list score) : Z :=
  safe_size min_tokens_to_keep input_size
    (count_le top_p (cumulative_probs fexp sorted_row)).

Definition filter_by_top_p (fexp : arith) (scores : matrix score)
  (min_tokens_to_keep : Z) (top_p : Q) (indices : option (matrix Z))
  : result (matrix score * matrix Z) :=
  rbind (match indices with
         | None => Ok scores
         | Some idx => rbind (row0 idx) (index_select scores)
         end) (fun scores_to_filter =>
  let sorted := map sort_row scores_to_filter in
  let sorted_scores := map fst sorted in
  let sorted_indices := map snd sorted in
  let n_to_keep :=
    map (n_to_keep_row fexp min_tokens_to_keep (width scores) top_p)
      sorted_scores in
  rbind (py_max n_to_keep) (fun w =>
  let scores_to_keep := map (firstn (Z.to_nat w)) sorted_scores in
  let indices_to_keep := map (firstn (Z.to_nat w)) sorted_indices in
  let scores_to_keep :=
    map (fun nr => mask_from (fst nr) (snd nr))
      (combine n_to_keep scores_to_keep) in
  rbind (match indices with
         | None => Ok indices_to_keep
         | Some idx => rbind (row0 indices_to_keep) (index_select idx)
         end) (fun indices_to_keep =>
  Ok (scores_to_keep, indices_to_keep)))).

Definition top_k_top_p_filtering (fexp : arith) (scores : matrix score)
  (top_k top_p min_tokens_to_keep : pyobj) : result (matrix score * matrix Z) :=
  rbind (validate_top_k_top_p_min_tokens_to_keep top_k top_p min_tokens_to_keep)
    (fun _ =>
  match top_k, top_p with
  | PyNone, PyNone => Ok (input_value_and_indices scores)
  | _, _ =>
      match min_tokens_to_keep with
      | PyInt m =>
          if (width scores <? m)%Z then Ok (input_value_and_indices scores)
          else match top_k, top_p with
               | PyInt k, PyNone => filter_by_top_k scores m k
               | PyNone, PyFloat p => filter_by_top_p fexp scores m p None
               | PyInt k, PyFloat p =>
                   rbind (filter_by_top_k scores m k) (fun kv =>
                   filter_by_top_p fexp scores m p (Some (snd kv)))
               | _, _ => Raise TypeError
               end
      | _ => Raise TypeError
      end
  end).

(** A rational stand-in for the exponential, used to run the embedding on
    concrete inputs: positive, increasing, and exact at 0. *)
Definition exp_standin (q : Q) : Q :=
  if Qle_bool 0 q then 1 + q + q * q / 2
  else 1 / (1 - q + q * q / 2).

(** The exact arithmetic over the stand-in. *)
Definition qexp : arith := exact_arith exp_standin.

Definition fin (z : Z) : score := Fin (inject_Z z).

(** ** More tensor operations used by the loops *)

(** A [B x 1] tensor from its entries. *)
Definition column {A} (l : list A) : matrix A := map (fun x => [x]) l.

(** [next_tokens[..., -1:]] *)
Definition last_col {A} (m : matrix A) : matrix A :=
  map (fun row => skipn (length row - 1) row) m.

Fixpoint set_nth {A} (n : nat) (x : A) (l : list A) : list A :=
  match l, n with
  | [], _ => []
  | _ :: l', O => x :: l'
  | y :: l', S n' => y :: set_nth n' x l'
  end.

(** [scores[:, j] = -inf]; a negative [j] counts from the end, and a [j]
    outside [-V, V) raises; [j] is an [int64]. *)
Definition mask_column (j : Z) (scores : matrix score) : result (matrix score) :=
  rmap_list (fun row =>
    let V := Z.of_nat (length row) in
    if (j <? - V)%Z || (V <=? j)%Z then Raise IndexError
    else Ok (set_nth (Z.to_nat (if (j <? 0)%Z then V + j else j)%Z) NegInf row))
    scores.

(** [torch.argmax(row)] *)
Definition argmax_row (row : list score) : result Z :=
  match sort_desc (enumerate row) with
  | [] => Raise IndexError
  | (_, i) :: _ => Ok i
  end.

(** Elementwise binary operations broadcast a dimension of size 1. *)
Fixpoint map2 {A B C} (f : A -> B -> C) (xs : list A) (ys : list B) : list C :=
  match xs, ys with
  | x :: xs', y :: ys' => f x y :: map2 f xs' ys'
  | _, _ => []
  end.

Definition broadcast2 {A B C} (f : A -> B -> C) (xs : list A) (ys : list B)
  : result (list C) :=
  if (length xs =? length ys)%nat then Ok (map2 f xs ys)
  else match xs, ys with
       | [x], _ => Ok (map (f x) ys)
       | _, [y] => Ok (map (fun x => f x y) xs)
       | _, _ => Raise RuntimeError
       end.

(** [torch.cat(tokens, dim=-1)] *)
Fixpoint append_cols {A} (m c : matrix A) : result (matrix A) :=
  match m, c with
  | [], [] => Ok []
  | r :: m', x :: c' =>
      rbind (append_cols m' c') (fun t => Ok ((r ++ x) :: t))
  | _, _ => Raise RuntimeError
  end.

Fixpoint cat_from {A} (acc : matrix A) (ms : list (matrix A)) : result (matrix A) :=
  match ms with
  | [] => Ok acc
  | m :: ms' => rbind (append_cols acc m) (fun a => cat_from a ms')
  end.

Definition cat {A} (tokens : list (matrix A)) : result (matrix A) :=
  match tokens with
  | [] => Raise RuntimeError
  | m :: ms => cat_from m ms
  end.

(** [scores /= temperature], without rounding and without overflow. *)
Definition div_scores (t : Q) (scores : matrix score) : matrix score :=
  map (map (fun s => match s with
                     | NegInf => NegInf
                     | Fin q => Fin (q / t)
                     end)) scores.

(** ** The world: model state, forward calls, random source *)

Record fwd_call : Type := {
  fc_tokens : matrix Z;
  fc_cache_ids : list Z;
  fc_start_ids : option (list Z)
}.

Record world (M : Type) : Type := {
  w_model : M;
  w_calls : list fwd_call;
  w_rng : list nat
}.

(** The model as a callable: [model(tokens, cache_ids, start_ids)]. *)
Definition model_fn (M O : Type) : Type :=
  M -> matrix Z -> list Z -> option (list Z) -> M * matrix O.

Definition Comp (M A : Type) : Type := world M -> result A * world M.

Definition ret {M A} (a : A) : Comp M A := fun w => (Ok a, w).

Definition bind {M A B} (c : Comp M A) (k : A -> Comp M B) : Comp M B :=
  fun w => match c w with
           | (Ok a, w') => k a w'
           | (Raise e, w') => (Raise e, w')
           end.

Definition lift {M A} (r : result A) : Comp M A := fun w => (r, w).

Notation "x <- c ;; k" := (bind c (fun x => k))
  (at level 61, c at next level, right associativity).

Definition forward {M O} (model : model_fn M O) (tokens : matrix Z)
  (cache_ids : list Z) (start_ids : option (list Z)) : Comp M (matrix O) :=
  fun w =>
    let '(m', out) := model (w_model w) tokens cache_ids start_ids in
    (Ok out,
     {| w_model := m';
        w_calls := w_calls w ++
          [{| fc_tokens := tokens; fc_cache_ids := cache_ids;
              fc_start_ids := start_ids |}];
        w_rng := w_rng w |}).

(** One number read from the random source. *)
Definition draw {M} : Comp M nat :=
  fun w => match w_rng w with
           | [] => (Ok O, w)
           | u :: r =>
               (Ok u, {| w_model := w_model w; w_calls := w_calls w;
                         w_rng := r |})
           end.

(** Positions of the strictly positive entries of a probability row. *)
Definition support (ps : list Q) : list Z :=
  map snd (filter (fun pi => negb (Qle_bool (fst pi) 0))
             (combine ps (arange (Z.of_nat (length ps))))).

(** [torch.multinomial(probs, num_samples=1, replacement=True)] on one row,
    modelled by its support: the draw is some position of positive
    probability, chosen by the random number [u]; a row of NaN or with no
    positive entry raises. *)
Definition multinomial_row (u : nat) (probs : option (list Q)) : result Z :=
  match probs with
  | None => Raise RuntimeError
  | Some ps =>
      match support ps with
      | [] => Raise RuntimeError
      | s => Ok (nth (u mod length s) s 0%Z)
      end
  end.

Fixpoint multinomial {M} (probs : list (option (list Q))) : Comp M (list Z) :=
  match probs with
  | [] => ret []
  | p :: probs' =>
      u <- draw ;;
      x <- lift (multinomial_row u p) ;;
      xs <- multinomial probs' ;;
      ret (x :: xs)
  end.

(** ** The [for] loop

    [for cur_len in range(start, sequence_length): body], where the body
    may [break]: [for_range stopped body start st0 n] is the loop state
    after at most [n] rounds; a state with [stopped] set is left as it
    is. *)
Fixpoint for_range {M St} (stopped : St -> bool) (body : Z -> St -> Comp M St)
  (start : Z) (st0 : St) (n : nat) : Comp M St :=
  match n with
  | O => ret st0
  | S k =>
      st <- for_range stopped body start st0 k ;;
      if stopped st then ret st else body (start + Z.of_nat k)%Z st
  end.

(** ** sample_tokens (lines 28-49) *)

Record tokens_state : Type := {
  ts_tokens : list (matrix Z);
  ts_next_tokens : matrix Z
}.

Definition sample_tokens_round {M} (model : model_fn M Z)
  (start_ids : option (list Z)) (cur_len : Z) (st : tokens_state)
  : Comp M tokens_state :=
  let next_tokens := last_col (ts_next_tokens st) in
  let tokens := ts_tokens st ++ [next_tokens] in
  let cache_ids := [cur_len] in
  next_tokens' <- forward model next_tokens cache_ids start_ids ;;
  ret {| ts_tokens := tokens; ts_next_tokens := next_tokens' |}.

Definition sample_tokens_iter {M} (model : model_fn M Z)
  (start_ids : option (list Z)) (start : Z) (st0 : tokens_state) (n : nat)
  : Comp M tokens_state :=
  for_range (fun _ => false) (sample_tokens_round model start_ids) start st0 n.

Definition sample_tokens {M} (model : model_fn M Z) (input_ids : matrix Z)
  (start_ids : option (list Z)) (sequence_length : Z) : Comp M (matrix Z) :=
  let start := width input_ids in
  let cache_ids := arange start in
  next_tokens <- forward model input_ids cache_ids start_ids ;;
  st <- sample_tokens_iter model start_ids start
          {| ts_tokens := [input_ids]; ts_next_tokens := next_tokens |}
          (Z.to_nat (sequence_length - start)) ;;
  lift (cat (ts_tokens st)).

(** ** sample_greedy (lines 52-73) *)

Record greedy_state : Type := {
  gs_tokens : list (matrix Z);
  gs_scores : matrix score
}.

Definition sample_greedy_round {M} (model : model_fn M score)
  (start_ids : option (list Z)) (cur_len : Z) (st : greedy_state)
  : Comp M greedy_state :=
  inputs <- lift (rmap_list argmax_row (gs_scores st)) ;;
  let tokens := gs_tokens st ++ [column inputs] in
  let cache_ids := [cur_len] in
  scores' <- forward model (column inputs) cache_ids start_ids ;;
  ret {| gs_tokens := tokens; gs_scores := scores' |}.

Definition sample_greedy_iter {M} (model : model_fn M score)
  (start_ids : option (list Z)) (start : Z) (st0 : greedy_state) (n : nat)
  : Comp M greedy_state :=
  for_range (fun _ => false) (sample_greedy_round model start_ids) start st0 n.

Definition sample_greedy {M} (model : model_fn M score) (input_ids : matrix Z)
  (start_ids : option (list Z)) (sequence_length : Z) : Comp M (matrix Z) :=
  let start := width input_ids in
  let cache_ids := arange start in
  next_token_scores <- forward model input_ids cache_ids start_ids ;;
  st <- sample_greedy_iter model start_ids start
          {| gs_tokens := [input_ids]; gs_scores := next_token_scores |}
          (Z.to_nat (sequence_length - start)) ;;
  lift (cat (gs_tokens st)).

(** ** sample_loop and simple_sample (lines 18-25 and 76-101) *)

Record loop_state : Type := {
  lp_tokens : list (matrix Z);
  lp_scores : matrix score;
  lp_stopped : bool
}.

(** One round of the [for] loop of [sample_loop] at [cur_len]. *)
Definition sample_loop_round {M} (fexp : arith) (model : model_fn M score)
  (start_ids : option (list Z)) (sequence_length eos_token_id top_k : Z)
  (cur_len : Z) (st : loop_state) : Comp M loop_state :=
  let next_len := (cur_len + 1)%Z in
  scores <- lift (mask_column eos_token_id (lp_scores st)) ;;
  tk <- lift (topk scores top_k) ;;
  let probs := map (softmax_row fexp) (fst tk) in
  inputs_in_topk <- multinomial probs ;;
  inputs <- lift (gather (snd tk) inputs_in_topk) ;;
  let tokens := lp_tokens st ++ [column inputs] in
  if (sequence_length <=? next_len)%Z
  then ret {| lp_tokens := tokens; lp_scores := scores; lp_stopped := true |}
  else
    let cache_ids := [cur_len] in
    scores' <- forward model (column inputs) cache_ids start_ids ;;
    ret {| lp_tokens := tokens; lp_scores := scores'; lp_stopped := false |}.

Definition sample_loop_iter {M} (fexp : arith) (model : model_fn M score)
  (start_ids : option (list Z)) (sequence_length eos_token_id top_k : Z)
  (start : Z) (st0 : loop_state) (n : nat) : Comp M loop_state :=
  for_range lp_stopped
    (sample_loop_round fexp model start_ids sequence_length eos_token_id top_k)
    start st0 n.

Definition sample_loop {M} (fexp : arith) (model : model_fn M score)
  (input_ids : matrix Z) (start_ids : option (list Z))
  (next_token_scores : matrix score) (sequence_length eos_token_id top_k : Z)
  : Comp M (matrix Z) :=
  let start := width input_ids in
  st <- sample_loop_iter fexp model start_ids sequence_length eos_token_id top_k
          start
          {| lp_tokens := [input_ids]; lp_scores := next_token_scores;
             lp_stopped := false |}
          (Z.to_nat (sequence_length - start)) ;;
  lift (cat (lp_tokens st)).

Definition simple_sample {M} (fexp : arith) (model : model_fn M score)
  (input_ids : matrix Z) (start_ids : option (list Z))
  (sequence_length eos_token_id top_k : Z) : Comp M (matrix Z) :=
  let start := width input_ids in
  let cache_ids := arange start in
  next_token_scores <- forward model input_ids cache_ids start_ids ;;
  sample_loop fexp model input_ids start_ids next_token_scores sequence_length
    eos_token_id top_k.

(** ** sample_loop_llama and sample_llama (lines 171-223) *)

Record llama_state : Type := {
  ls_done_flags : list bool;
  ls_tokens : list (matrix Z);
  ls_scores : matrix score;
  ls_inputs : list Z;
  ls_stopped : bool
}.

(** Lines 186-194: temperature, filtering, softmax, draw, gather. *)
Definition llama_sample {M} (fexp : arith) (top_k top_p : pyobj)
  (temperature : Q) (next_token_scores : matrix score)
  : Comp M (matrix score * list Z) :=
  let scores :=
    if negb (Qeq_bool temperature 1) then div_scores temperature next_token_scores
    else next_token_scores in
  tv <- lift (top_k_top_p_filtering fexp scores top_k top_p (PyInt 1)) ;;
  let probs := map (softmax_row fexp) (fst tv) in
  inputs_in_topk <- multinomial probs ;;
  inputs <- lift (gather (snd tv) inputs_in_topk) ;;
  ret (scores, inputs).

(** [torch.where(done_flags == True, eos_token_id, inputs)] *)
Definition where_done (eos_token_id : Z) (done_flags : list bool)
  (inputs : list Z) : result (list Z) :=
  broadcast2 (fun (d : bool) x => if d then eos_token_id else x)
    done_flags inputs.

(** [torch.logical_or(done_flags, inputs == eos_token_id)];
    [eos_token_id] is an [int64]. *)
Definition update_done (eos_token_id : Z) (done_flags : list bool)
  (inputs : list Z) : result (list bool) :=
  broadcast2 orb done_flags (map (fun x => (x =? eos_token_id)%Z) inputs).

(** One round of the [for] loop of [sample_loop_llama] at [cur_len]. *)
Definition sample_loop_llama_round {M} (fexp : arith)
  (model : model_fn M score) (start_ids : option (list Z))
  (sequence_length eos_token_id : Z) (top_k top_p : pyobj) (temperature : Q)
  (cur_len : Z) (st : llama_state) : Comp M llama_state :=
  let next_len := (cur_len + 1)%Z in
  si <- llama_sample fexp top_k top_p temperature (ls_scores st) ;;
  let inputs := snd si in
  done_flags <- lift (update_done eos_token_id (ls_done_flags st) inputs) ;;
  col <- lift (where_done eos_token_id done_flags inputs) ;;
  let tokens := ls_tokens st ++ [column col] in
  if (sequence_length <=? next_len)%Z || forallb (fun d => d) done_flags
  then ret {| ls_done_flags := done_flags; ls_tokens := tokens;
              ls_scores := fst si; ls_inputs := inputs; ls_stopped := true |}
  else
    let cache_ids := [cur_len] in
    scores' <- forward model (column inputs) cache_ids start_ids ;;
    ret {| ls_done_flags := done_flags; ls_tokens := tokens;
           ls_scores := scores'; ls_inputs := inputs; ls_stopped := false |}.

Definition sample_loop_llama_iter {M} (fexp : arith) (model : model_fn M score)
  (start_ids : option (list Z)) (sequence_length eos_token_id : Z)
  (top_k top_p : pyobj) (temperature : Q) (start : Z) (st0 : llama_state)
  (n : nat) : Comp M llama_state :=
  for_range ls_stopped
    (sample_loop_llama_round fexp model start_ids sequence_length eos_token_id
       top_k top_p temperature)
    start st0 n.

(** The state on entry of the loop (lines 179-181). *)
Definition llama_init (input_ids : matrix Z) (next_token_scores : matrix score)
  : llama_state :=
  {| ls_done_flags := map (fun _ => false) input_ids;
     ls_tokens := [input_ids];
     ls_scores := next_token_scores;
     ls_inputs := [];
     ls_stopped := false |}.

Definition sample_loop_llama {M} (fexp : arith) (model : model_fn M score)
  (input_ids : matrix Z) (start_ids : option (list Z))
  (next_token_scores : matrix score) (sequence_length eos_token_id : Z)
  (top_k top_p temperature : pyobj) : Comp M (matrix Z) :=
  _ <- lift (validate_top_k_top_p_min_tokens_to_keep top_k top_p PyNone) ;;
  if temperature_illegal temperature then lift (Raise ValueError)
  else
    match temperature with
    | PyFloat t =>
        let start := width input_ids in
        st <- sample_loop_llama_iter fexp model start_ids sequence_length
                eos_token_id top_k top_p t start
                (llama_init input_ids next_token_scores)
                (Z.to_nat (sequence_length - start)) ;;
        lift (cat (ls_tokens st))
    | _ => lift (Raise ValueError)
    end.

Definition sample_llama {M} (fexp : arith) (model : model_fn M score)
  (input_ids : matrix Z) (start_ids : option (list Z))
  (sequence_length eos_token_id : Z) (top_k top_p temperature : pyobj)
  : Comp M (matrix Z) :=
  _ <- lift (validate_top_k_top_p_min_tokens_to_keep top_k top_p PyNone) ;;
  let start := width input_ids in
  let cache_ids := arange start in
  next_token_scores <- forward model input_ids cache_ids start_ids ;;
  sample_loop_llama fexp model input_ids start_ids next_token_scores
    sequence_length eos_token_id top_k top_p temperature.

(** The world at the start of a call. *)
Definition init_world {M} (m : M) (rng : list nat) : world M :=
  {| w_model := m; w_calls := []; w_rng := rng |}.

(** A model that answers every call with the same output. *)
Definition const_model {O} (out : matrix O) : model_fn unit O :=
  fun m _ _ _ => (m, out).

(** ** Legality of the hyperparameters, as the specification words it *)

Definition legal_top_k (o : pyobj) : Prop :=
  o = PyNone \/ exists k, o = PyInt k /\ (0 < k)%Z.

Definition legal_top_p (o : pyobj) : Prop :=
  o = PyNone \/ exists p, o = PyFloat p /\ 0 < p /\ p <= 1.

Definition legal_min_tokens (o : pyobj) : Prop :=
  o = PyNone \/ exists m, o = PyInt m /\ (0 <= m)%Z.

Definition legal_temperature (o : pyobj) : Prop :=
  exists t, o = PyFloat t /\ 0 < t.

(** ** Order of a sorted row *)

(** [ge_score a b]: [a] is not below [b]. *)
Definition ge_score (a b : score) : Prop := score_ltb a b = false.

Definition desc (l : list (score * Z)) : Prop :=
  StronglySorted (fun a b => ge_score (fst a) (fst b)) l.

(** The sorted values, as a list, are in descending order. *)
Definition descending (vals : list score) : Prop := StronglySorted ge_score vals.

(** ** The top-p keep count, as the specification words it

    "keep the smallest prefix whose cumulative probability is <= top_p,
    then extend by one more entry", clamped to
    [min_tokens_to_keep, V]. *)
Definition spec_n_to_keep (fexp : arith) (min_tokens_to_keep input_size : Z)
  (top_p : Q) (sorted_row : list score) : Z :=
  safe_size min_tokens_to_keep input_size
    (count_le top_p (cumulative_probs fexp sorted_row) + 1).

(** The values and the indices that top-k returns for a row. *)
Definition topk_idx (k : Z) (row : list score) : list Z :=
  map snd (firstn (Z.to_nat k) (sort_desc (enumerate row))).

Definition topk_val (k : Z) (row : list score) : list score :=
  map fst (firstn (Z.to_nat k) (sort_desc (enumerate row))).

(** ** The forward calls of a generation call *)

(** The cache positions of [n] decode calls that follow position [c]. *)
Definition decode_positions (c : Z) (n : nat) : list (list Z) :=
  map (fun j => [(c + Z.of_nat j)%Z]) (seq 0 n).

(** The PREFILL call: the whole prompt at positions [0, L0). *)
Definition prefill_call (input_ids : matrix Z) (start_ids : option (list Z))
  : fwd_call :=
  {| fc_tokens := input_ids;
     fc_cache_ids := arange (width input_ids);
     fc_start_ids := start_ids |}.

(** One new token per sequence. *)
Definition one_token (tokens : matrix Z) : Prop :=
  Forall (fun r => length r = 1%nat) tokens.

Definition at_most_one_token (tokens : matrix Z) : Prop :=
  Forall (fun r => (length r <= 1)%nat) tokens.

(** PREFILL followed by decode calls at [L0], [L0 + 1], ... *)
Definition generation_trace (P : matrix Z -> Prop) (input_ids : matrix Z)
  (start_ids : option (list Z)) (tr : list fwd_call) : Prop :=
  exists rest,
    tr = prefill_call input_ids start_ids :: rest
    /\ map fc_cache_ids rest = decode_positions (width input_ids) (length rest)
    /\ Forall (fun x => P (fc_tokens x) /\ fc_start_ids x = start_ids) rest
    /\ concat (map fc_cache_ids tr)
       = arange (width input_ids + Z.of_nat (length rest)).

(** A computation that does not call the model. *)
Definition silent {M A} (c : Comp M A) : Prop :=
  forall w, w_calls (snd (c w)) = w_calls w /\ w_model (snd (c w)) = w_model w.

(** Scores used in the examples. *)
Definition sc5 : matrix score := [[fin 1; fin 5; fin 2; fin 8; fin 3]].

(** A returned row that starts with the prompt row. *)
Definition extends_prompt (row orow : list Z) : Prop :=
  exists suf, orow = row ++ suf.

(** The model contract of the specification (4.1): one row of output per
    sequence submitted. *)
Definition one_row_per_sequence {M O} (model : model_fn M O) : Prop :=
  forall ms tokens cache_ids start_ids,
    length (snd (model ms tokens cache_ids start_ids)) = length tokens.

(** The flags and the scores of a loop state have the batch size [B]. *)
Definition batch_shaped (B : nat) (st : llama_state) : Prop :=
  length (ls_done_flags st) = B /\ length (ls_scores st) = B.

(** Sequence [i] is marked done in a loop state. *)
Definition done_at (st : llama_state) (i : nat) : Prop :=
  nth_error (ls_done_flags st) i = Some true.

(** The last appended column holds [eos] for every sequence marked done. *)
Definition padded_last (eos : Z) (st : llama_state) : Prop :=
  forall i, done_at st i ->
    exists prev col,
      ls_tokens st = prev ++ [column col] /\ nth_error col i = Some eos.

(** From [st] to [st']: flags that are set stay set, and the columns
    appended in between hold [eos] for the sequences done in [st]. *)
Definition pads_after (eos : Z) (st st' : llama_state) : Prop :=
  exists cols,
    ls_tokens st' = ls_tokens st ++ cols
    /\ forall i, done_at st i ->
         done_at st' i /\ Forall (fun c => nth_error c i = Some [eos]) cols.

(** A model that gives every submitted sequence the same row of scores. *)
Definition uniform_model (row : list score) : model_fn unit score :=
  fun m tokens _ _ => (m, map (fun _ => row) tokens).

(** A generated column: one drawn token per sequence, none of them [eos]. *)
Definition eos_free_column (eos : Z) (c : matrix Z) : Prop :=
  exists inputs, c = column inputs /\ Forall (fun t => t <> eos) inputs.

(** A returned row: the prompt row, then [sequence_length] minus prompt
    length generated tokens, none of them [eos]. *)
Definition legacy_row (sequence_length eos : Z) (row orow : list Z) : Prop :=
  exists gen,
    orow = row ++ gen
    /\ Z.of_nat (length orow) = sequence_length
    /\ ~ In eos gen.

(** Scores the legacy loop can sample from: rows of width [V] that keep a
    finite entry once column [eos] is masked. *)
Definition samplable (V : nat) (eos : Z) (scores : matrix score) : Prop :=
  Forall (fun row =>
            length row = V
            /\ exists j q, Z.of_nat j <> eos /\ nth_error row j = Some (Fin q))
    scores.

(** A model whose every answer is samplable. *)
Definition samplable_model {M} (V : nat) (eos : Z) (model : model_fn M score)
  : Prop :=
  forall ms tokens cache_ids start_ids,
    samplable V eos (snd (model ms tokens cache_ids start_ids)).

(** A call that gives the prompt back after the PREFILL call alone, without
    reading the random source. *)
Definition prefill_only {M} (c : Comp M (matrix Z)) (input_ids : matrix Z)
  (start_ids : option (list Z)) (w : world M) : Prop :=
  exists w',
    c w = (Ok input_ids, w')
    /\ w_calls w' = w_calls w ++ [prefill_call input_ids start_ids]
    /\ w_rng w' = w_rng w.

(** A call that fails with [e] after the PREFILL call alone, without
    reading the random source. *)
Definition fails_after_prefill {M} (c : Comp M (matrix Z)) (e : exn)
  (input_ids : matrix Z) (start_ids : option (list Z)) (w : world M) : Prop :=
  exists w',
    c w = (Raise e, w')
    /\ w_calls w' = w_calls w ++ [prefill_call input_ids start_ids]
    /\ w_rng w' = w_rng w.

(** [s / t] on one score, the entry-wise operation of [div_scores]. *)
Definition div_score (t : Q) (s : score) : score :=
  match s with
  | NegInf => NegInf
  | Fin q => Fin (q / t)
  end.

(** A model that never answers a sequence with an empty row. *)
Definition nonempty_rows {M O} (model : model_fn M O) : Prop :=
  forall ms tokens cache_ids start_ids,
    Forall (fun r => r <> []) (snd (model ms tokens cache_ids start_ids)).

(** A returned row of [n] tokens that starts with the prompt row. *)
Definition full_row (n : Z) (row orow : list Z) : Prop :=
  extends_prompt row orow /\ Z.of_nat (length orow) = n.

(** Position [t] of [row] holds a score that no entry of the row exceeds. *)
Definition picks_maximum (row : list score) (t : Z) : Prop :=
  exists v, lookup row t = Ok v /\ forall v', In v' row -> ge_score v v'.

(** The kept scores and indices [r] of a row agree with the row: a finite
    kept score is the score the row has at the index kept beside it. *)
Definition pairs_agree (row : list score) (r : list score * list Z) : Prop :=
  forall j q t,
    nth_error (fst r) j = Some (Fin q) -> nth_error (snd r) j = Some t ->
    lookup row t = Ok (Fin q).

(** Token [t] has a finite score in [row]. *)
Definition finite_at (row : list score) (t : Z) : Prop :=
  exists q, lookup row t = Ok (Fin q).

(** A decode call, as the examples write it. *)
Definition decode_call (tokens : matrix Z) (c : Z) : fwd_call :=
  {| fc_tokens := tokens; fc_cache_ids := [c]; fc_start_ids := None |}.

(** A token-emitting model that answers every sequence with [row]. *)
Definition uniform_token_model (row : list Z) : model_fn unit Z :=
  fun m tokens _ _ => (m, map (fun _ => row) tokens).

(** Scores the llama loop can draw from: rows of width [V] that hold a
    finite entry. *)
Definition finite_rows (V : nat) (scores : matrix score) : Prop :=
  Forall (fun row =>
            length row = V /\ exists j q, nth_error row j = Some (Fin q))
    scores.

(** A model whose every answer can be drawn from. *)
Definition finite_model {M} (V : nat) (model : model_fn M score) : Prop :=
  forall ms tokens cache_ids start_ids,
    finite_rows V (snd (model ms tokens cache_ids start_ids)).

(** Kept scores and indices of a row that can be drawn from: as many
    indices as scores, and a finite score among them. *)
Definition drawable (r : list score * list Z) : Prop :=
  length (fst r) = length (snd r)
  /\ exists j q, nth_error (fst r) j = Some (Fin q).

(** Scores without minus infinity, as the logits of a model are. *)
Definition all_finite (scores : matrix score) : Prop :=
  Forall (Forall (fun s => s <> NegInf)) scores.

Definition all_finite_model {M} (model : model_fn M score) : Prop :=
  forall ms tokens cache_ids start_ids,
    all_finite (snd (model ms tokens cache_ids start_ids)).

(** A score function applied to the score of a (score, position) pair. *)
Definition on_score (f : score -> score) (p : score * Z) : score * Z :=
  (f (fst p), snd p).

(** Scores of a batch of [B] sequences that the llama loop can work on:
    rows of width [V] with a finite score; with both filters set, a
    single sequence or no minus infinity at all. *)
Definition llama_good (V B : nat) (top_k top_p : pyobj)
  (scores : matrix score) : Prop :=
  finite_rows V scores /\ length scores = B
  /\ (top_k = PyNone \/ top_p = PyNone \/ B = 1%nat \/ all_finite scores).

(** A position of a vocabulary of [V] tokens. *)
Definition in_vocab (V : nat) (t : Z) : Prop := (0 <= t < Z.of_nat V)%Z.

(** A returned row: the prompt row followed by vocabulary positions. *)
Definition generated_in_vocab (V : nat) (row orow : list Z) : Prop :=
  exists gen, orow = row ++ gen /\ Forall (in_vocab V) gen.

(** A model whose every answer has rows of [V] scores. *)
Definition vocab_model {M} (V : nat) (model : model_fn M score) : Prop :=
  forall ms tokens cache_ids start_ids,
    Forall (fun r => length r = V) (snd (model ms tokens cache_ids start_ids)).

(** * Properties *)

(** ** The validator *)

Lemma Qle_bool_false (x y : Q) : Qle_bool x y = false <-> y < x.
Proof.
  split; intro H.
  - apply Qnot_le_lt. intro Hle. apply Qle_bool_iff in Hle. congruence.
  - destruct (Qle_bool x y) eqn:E; [|reflexivity].
    apply Qle_bool_iff in E. exfalso. exact (Qlt_not_le _ _ H E).
Qed.

Lemma top_k_illegal_spec (o : pyobj) :
  top_k_illegal o = false <-> legal_top_k o.
Proof.
  unfold legal_top_k. destruct o as [|k|q|s]; simpl; split; intro H;
    try (left; reflexivity); try reflexivity; try discriminate.
  - right. exists k. split; [reflexivity|].
    apply negb_false_iff in H. now apply Z.ltb_lt.
  - destruct H as [H|[k' [H Hk]]]; [discriminate|]. injection H as <-.
    apply negb_false_iff. now apply Z.ltb_lt.
  - destruct H as [H|[k' [H _]]]; discriminate.
  - destruct H as [H|[k' [H _]]]; discriminate.
Qed.

Lemma top_p_illegal_spec (o : pyobj) :
  top_p_illegal o = false <-> legal_top_p o.
Proof.
  unfold legal_top_p. destruct o as [|k|q|s]; simpl; split; intro H;
    try (left; reflexivity); try reflexivity; try discriminate.
  - destruct H as [H|[p [H _]]]; discriminate.
  - right. exists q. split; [reflexivity|].
    apply negb_false_iff, andb_true_iff in H. destruct H as [H1 H2].
    apply negb_true_iff, Qle_bool_false in H1. apply Qle_bool_iff in H2.
    now split.
  - destruct H as [H|[p [H [H1 H2]]]]; [discriminate|]. injection H as <-.
    apply negb_false_iff, andb_true_iff. split.
    + now apply negb_true_iff, Qle_bool_false.
    + now apply Qle_bool_iff.
  - destruct H as [H|[p [H _]]]; discriminate.
Qed.

Lemma min_tokens_illegal_spec (o : pyobj) :
  min_tokens_illegal o = false <-> legal_min_tokens o.
Proof.
  unfold legal_min_tokens. destruct o as [|k|q|s]; simpl; split; intro H;
    try (left; reflexivity); try reflexivity; try discriminate.
  - right. exists k. split; [reflexivity|]. apply Z.ltb_ge in H. lia.
  - destruct H as [H|[m [H Hm]]]; [discriminate|]. injection H as <-.
    apply Z.ltb_ge. lia.
  - destruct H as [H|[m [H _]]]; discriminate.
  - destruct H as [H|[m [H _]]]; discriminate.
Qed.

Lemma temperature_illegal_spec (o : pyobj) :
  temperature_illegal o = false <-> legal_temperature o.
Proof.
  unfold legal_temperature. split.
  - destruct o as [|k|q|s]; simpl; intro H; try discriminate.
    exists q. split; [reflexivity|]. now apply Qle_bool_false.
  - intros [t [-> Ht]]. simpl. now apply Qle_bool_false.
Qed.

Lemma validate_ok_iff (top_k top_p m : pyobj) :
  validate_top_k_top_p_min_tokens_to_keep top_k top_p m = Ok tt <->
  legal_top_k top_k /\ legal_top_p top_p /\ legal_min_tokens m.
Proof.
  rewrite <- top_k_illegal_spec, <- top_p_illegal_spec,
    <- min_tokens_illegal_spec.
  unfold validate_top_k_top_p_min_tokens_to_keep. split.
  - destruct (top_k_illegal top_k), (top_p_illegal top_p),
      (min_tokens_illegal m); intro H; try discriminate. repeat split.
  - intros [H1 [H2 H3]]. now rewrite H1, H2, H3.
Qed.

Lemma validate_total (top_k top_p m : pyobj) :
  validate_top_k_top_p_min_tokens_to_keep top_k top_p m = Ok tt \/
  validate_top_k_top_p_min_tokens_to_keep top_k top_p m = Raise ValueError.
Proof.
  unfold validate_top_k_top_p_min_tokens_to_keep.
  destruct (top_k_illegal top_k), (top_p_illegal top_p),
    (min_tokens_illegal m); auto.
Qed.

(** C7. The validator rejects top_k=0, top_k=-1, top_p=0.0, top_p=1.5 and
    min_tokens_to_keep=-1 with [ValueError] (the specification's
    [InvalidParameter]) whatever the other arguments are, accepts
    (50, 0.95, 1), and in general accepts exactly the triples in which each
    provided argument is legal: a positive int [top_k], a float [top_p] in
    (0, 1], a non-negative int [min_tokens_to_keep]; every rejection is a
    [ValueError]. *)
Theorem validator_accepts_exactly_the_legal (top_k top_p m : pyobj) :
  (legal_top_k top_k -> legal_top_p top_p -> legal_min_tokens m ->
   validate_top_k_top_p_min_tokens_to_keep top_k top_p m = Ok tt)
  /\ (validate_top_k_top_p_min_tokens_to_keep top_k top_p m = Ok tt ->
      legal_top_k top_k /\ legal_top_p top_p /\ legal_min_tokens m)
  /\ (validate_top_k_top_p_min_tokens_to_keep top_k top_p m = Ok tt \/
      validate_top_k_top_p_min_tokens_to_keep top_k top_p m = Raise ValueError)
  /\ validate_top_k_top_p_min_tokens_to_keep (PyInt 0) top_p m
     = Raise ValueError
  /\ validate_top_k_top_p_min_tokens_to_keep (PyInt (-1)) top_p m
     = Raise ValueError
  /\ validate_top_k_top_p_min_tokens_to_keep top_k (PyFloat 0) m
     = Raise ValueError
  /\ validate_top_k_top_p_min_tokens_to_keep top_k (PyFloat (3#2)) m
     = Raise ValueError
  /\ validate_top_k_top_p_min_tokens_to_keep top_k top_p (PyInt (-1))
     = Raise ValueError
  /\ validate_top_k_top_p_min_tokens_to_keep
       (PyInt 50) (PyFloat (95#100)) (PyInt 1) = Ok tt.
Proof.
  repeat split.
  - intros Hk Hp Hm. apply validate_ok_iff. auto.
  - now apply validate_ok_iff in H.
  - now apply validate_ok_iff in H.
  - now apply validate_ok_iff in H.
  - apply validate_total.
  - unfold validate_top_k_top_p_min_tokens_to_keep.
    destruct (top_k_illegal top_k); reflexivity.
  - unfold validate_top_k_top_p_min_tokens_to_keep.
    destruct (top_k_illegal top_k); reflexivity.
  - unfold validate_top_k_top_p_min_tokens_to_keep.
    destruct (top_k_illegal top_k), (top_p_illegal top_p); reflexivity.
Qed.

Lemma validator_accepts_exactly_the_legal_witness :
  validate_top_k_top_p_min_tokens_to_keep (PyInt 7) (PyFloat (1#2)) PyNone
  = Ok tt.
Proof.
  apply (proj1 (validator_accepts_exactly_the_legal
                  (PyInt 7) (PyFloat (1#2)) PyNone)).
  - right. exists 7%Z. split; [reflexivity | lia].
  - right. exists (1#2). split; [reflexivity|].
    split; [reflexivity | discriminate].
  - left. reflexivity.
Defined.

(** ** Sorting *)


Lemma ge_score_trans (a b c : score) :
  ge_score a b -> ge_score b c -> ge_score a c.
Proof.
  unfold ge_score. destruct a as [|x], b as [|y], c as [|z]; simpl;
    try reflexivity; try discriminate; auto.
  rewrite !negb_false_iff, !Qle_bool_iff. intros H1 H2.
  eapply Qle_trans; eassumption.
Qed.

Lemma ltb_ge_score (a b : score) : score_ltb a b = true -> ge_score b a.
Proof.
  unfold ge_score. destruct a as [|x], b as [|y]; simpl;
    try reflexivity; try discriminate.
  rewrite negb_true_iff, negb_false_iff, Qle_bool_false, Qle_bool_iff.
  apply Qlt_le_weak.
Qed.

Lemma insert_desc_perm (x : score * Z) (l : list (score * Z)) :
  Permutation (insert_desc x l) (x :: l).
Proof.
  induction l as [|y l IH]; simpl; [reflexivity|].
  destruct (score_ltb (fst x) (fst y)); [|reflexivity].
  rewrite IH. apply perm_swap.
Qed.

Lemma sort_desc_perm (l : list (score * Z)) : Permutation (sort_desc l) l.
Proof.
  induction l as [|x l IH]; simpl; [reflexivity|].
  rewrite insert_desc_perm. now apply perm_skip.
Qed.

Lemma sort_desc_length (l : list (score * Z)) :
  length (sort_desc l) = length l.
Proof. apply Permutation_length, sort_desc_perm. Qed.


Lemma insert_desc_sorted (x : score * Z) (l : list (score * Z)) :
  desc l -> desc (insert_desc x l).
Proof.
  unfold desc. induction l as [|y l IH]; simpl; intro H.
  - constructor; constructor.
  - inversion H as [|? ? Hl Hy]; subst.
    destruct (score_ltb (fst x) (fst y)) eqn:E.
    + constructor; [now apply IH|].
      eapply Permutation_Forall; [symmetry; apply insert_desc_perm|].
      constructor; [now apply ltb_ge_score | assumption].
    + constructor; [assumption|]. constructor; [exact E|].
      eapply Forall_impl; [|exact Hy]. intros z Hz.
      eapply ge_score_trans; [exact E | exact Hz].
Qed.

Lemma sort_desc_sorted (l : list (score * Z)) : desc (sort_desc l).
Proof.
  induction l as [|x l IH]; simpl; [constructor|].
  now apply insert_desc_sorted.
Qed.

Lemma split_fst {A B} (l : list (A * B)) : fst (List.split l) = map fst l.
Proof.
  induction l as [|[a b] l IH]; simpl; [reflexivity|].
  destruct (List.split l); simpl in *. now rewrite IH.
Qed.

Lemma split_snd {A B} (l : list (A * B)) : snd (List.split l) = map snd l.
Proof.
  induction l as [|[a b] l IH]; simpl; [reflexivity|].
  destruct (List.split l); simpl in *. now rewrite IH.
Qed.

Lemma arange_length (n : Z) : length (arange n) = Z.to_nat n.
Proof. unfold arange. now rewrite length_map, length_seq. Qed.

Lemma enumerate_length (row : list score) :
  length (enumerate row) = length row.
Proof.
  unfold enumerate. rewrite length_combine, arange_length. lia.
Qed.

Lemma sort_row_fst_length (row : list score) :
  length (fst (sort_row row)) = length row.
Proof.
  unfold sort_row. now rewrite split_fst, length_map, sort_desc_length,
    enumerate_length.
Qed.

Lemma sort_row_snd_length (row : list score) :
  length (snd (sort_row row)) = length row.
Proof.
  unfold sort_row. now rewrite split_snd, length_map, sort_desc_length,
    enumerate_length.
Qed.


Lemma desc_map_fst (l : list (score * Z)) : desc l -> descending (map fst l).
Proof.
  unfold desc, descending. induction 1 as [|a l Hl IH Ha]; simpl;
    constructor; [assumption|].
  now apply Forall_map.
Qed.

Lemma sort_row_descending (row : list score) : descending (fst (sort_row row)).
Proof.
  unfold sort_row. rewrite split_fst. apply desc_map_fst, sort_desc_sorted.
Qed.

Lemma sort_row_perm (row : list score) :
  Permutation (combine (fst (sort_row row)) (snd (sort_row row)))
    (enumerate row).
Proof.
  unfold sort_row.
  assert (H : forall (l : list (score * Z)),
             combine (fst (List.split l)) (snd (List.split l)) = l).
  { intro l. pose proof (split_combine l) as Hs.
    destruct (List.split l); simpl. now apply Hs. }
  rewrite H. apply sort_desc_perm.
Qed.

(** ** Probabilities and their cumulative sums *)

Section Probabilities.

Variable fexp : Q -> Q.
Hypothesis fexp_nonneg : forall q, 0 <= fexp q.

Lemma weight_nonneg (s : score) : 0 <= weight fexp s.
Proof. destruct s; simpl; [apply Qle_refl | apply fexp_nonneg]. Qed.

Lemma qsum_nonneg (l : list Q) : Forall (fun x => 0 <= x) l -> 0 <= qsum l.
Proof.
  induction 1 as [|x l Hx Hl IH]; simpl; [apply Qle_refl|].
  replace 0 with (0 + 0) by reflexivity. now apply Qplus_le_compat.
Qed.

Lemma softmax_row_some (row : list score) (ps : list Q) :
  softmax_row fexp row = Some ps ->
  ps = map (fun w => w / qsum (map (weight fexp) row)) (map (weight fexp) row).
Proof.
  unfold softmax_row. destruct row as [|s row].
  - intro H. now injection H as <-.
  - destruct (forallb is_neginf (s :: row)); [discriminate|].
    intro H. now injection H as <-.
Qed.

Lemma softmax_row_nonneg (row : list score) (ps : list Q) :
  softmax_row fexp row = Some ps -> Forall (fun x => 0 <= x) ps.
Proof.
  intro H. apply softmax_row_some in H. subst ps.
  assert (Hws : Forall (fun x => 0 <= x) (map (weight fexp) row)).
  { apply Forall_map, Forall_forall. intros. apply weight_nonneg. }
  apply Forall_map. eapply Forall_impl; [|exact Hws].
  intros w Hw. unfold Qdiv. apply Qmult_le_0_compat; [exact Hw|].
  apply Qinv_le_0_compat, qsum_nonneg, Hws.
Qed.

Lemma softmax_row_length (row : list score) (ps : list Q) :
  softmax_row fexp row = Some ps -> length ps = length row.
Proof.
  intro H. apply softmax_row_some in H. subst ps. now rewrite !length_map.
Qed.

End Probabilities.

Lemma cumsum_from_length (acc : Q) (l : list Q) :
  length (cumsum_from acc l) = length l.
Proof.
  revert acc. induction l as [|x l IH]; intro acc; simpl;
    [reflexivity | now rewrite IH].
Qed.

Lemma cumsum_from_lower (acc : Q) (l : list Q) :
  Forall (fun x => 0 <= x) l -> Forall (fun c => acc <= c) (cumsum_from acc l).
Proof.
  intro H. revert acc. induction H as [|x l Hx Hl IH]; intro acc; simpl;
    constructor.
  - rewrite <- (Qplus_0_r acc) at 1. now apply Qplus_le_r.
  - eapply Forall_impl; [|apply IH]. intros c Hc. simpl in Hc.
    eapply Qle_trans; [|exact Hc].
    rewrite <- (Qplus_0_r acc) at 1. now apply Qplus_le_r.
Qed.

Lemma cumsum_from_sorted (acc : Q) (l : list Q) :
  Forall (fun x => 0 <= x) l -> StronglySorted Qle (cumsum_from acc l).
Proof.
  intro H. revert acc. induction H as [|x l Hx Hl IH]; intro acc; simpl;
    constructor; [apply IH|].
  now apply cumsum_from_lower.
Qed.

(** In a non-decreasing list the entries [<= p] form a prefix, whose
    length is their number. *)
Lemma count_prefix (p : Q) (cs : list Q) :
  StronglySorted Qle cs ->
  forall j v, nth_error cs j = Some v ->
    ((j < length (filter (fun c => Qle_bool c p) cs))%nat -> v <= p) /\
    ((length (filter (fun c => Qle_bool c p) cs) <= j)%nat -> p < v).
Proof.
  induction 1 as [|x cs Hs IH Hx]; intros j v Hj.
  - destruct j; discriminate.
  - simpl. destruct (Qle_bool x p) eqn:E.
    + destruct j as [|j]; simpl in *.
      * injection Hj as <-. split; [intros _; now apply Qle_bool_iff | lia].
      * destruct (IH j v Hj) as [H1 H2]. split; intro; [apply H1 | apply H2]; lia.
    + apply Qle_bool_false in E.
      assert (Hall : Forall (fun c => p < c) (x :: cs)).
      { constructor; [exact E|]. eapply Forall_impl; [|exact Hx].
        intros c Hc. simpl in Hc. eapply Qlt_le_trans; eassumption. }
      assert (Hf : filter (fun c => Qle_bool c p) cs = []).
      { clear -Hall. inversion Hall as [|? ? _ Hcs]; subst. clear Hall.
        induction Hcs as [|c cs Hc Hcs IH]; simpl; [reflexivity|].
        apply Qle_bool_false in Hc. now rewrite Hc. }
      rewrite Hf. simpl. split; [lia|]. intros _.
      rewrite Forall_forall in Hall. apply Hall.
      eapply nth_error_In; eassumption.
Qed.

(** Counting the entries [<= p] of a non-decreasing list of cumulative
    probabilities gives the length of the longest prefix [<= p]. *)
Lemma count_le_prefix (p : Q) (cs : list Q) :
  StronglySorted Qle cs ->
  forall j v, nth_error cs j = Some v ->
    ((Z.of_nat j < count_le p (Some cs))%Z -> v <= p) /\
    ((count_le p (Some cs) <= Z.of_nat j)%Z -> p < v).
Proof.
  intros Hs j v Hj. destruct (count_prefix p Hs j Hj) as [H1 H2].
  unfold count_le. split; intro; [apply H1 | apply H2]; lia.
Qed.

Lemma cumulative_probs_length (fexp : arith) (row : list score)
  (cs : list Q) :
  cumulative_probs fexp row = Some cs -> length cs = length row.
Proof.
  unfold cumulative_probs. destruct (a_cumulative fexp row); [|discriminate].
  simpl. intro H. injection H as <-. now rewrite length_map, length_seq.
Qed.

Lemma map_nth_seq (cs : list Q) :
  map (fun j => nth j cs 0) (seq 0 (length cs)) = cs.
Proof.
  apply nth_error_ext. intro j.
  destruct (Nat.lt_ge_cases j (length cs)) as [H|H].
  - rewrite nth_error_map, nth_error_seq.
    replace (j <? length cs)%nat with true
      by (symmetry; apply Nat.ltb_lt; exact H).
    simpl. symmetry. now apply nth_error_nth'.
  - rewrite (proj2 (nth_error_None _ _)) by (now rewrite length_map, length_seq).
    symmetry. now apply nth_error_None.
Qed.

(** The instance without rounding computes the exact cumulative
    probabilities. *)
Lemma cumulative_probs_exact (fexp : Q -> Q) (row : list score) :
  cumulative_probs (exact_arith fexp) row = exact_cumulative fexp row.
Proof.
  unfold cumulative_probs, exact_arith, exact_cumulative. simpl.
  destruct (softmax_row fexp row) as [ps|] eqn:E; simpl; [|reflexivity].
  f_equal. apply softmax_row_length in E.
  replace (length row) with (length (cumsum ps))
    by (unfold cumsum; now rewrite cumsum_from_length).
  apply map_nth_seq.
Qed.

(** The exact cumulative probabilities of a row have its length and do
    not decrease. *)
Lemma exact_cumulative_sorted (fexp : Q -> Q) (row : list score)
  (cs : list Q) :
  (forall q, 0 <= fexp q) ->
  exact_cumulative fexp row = Some cs ->
  length cs = length row /\ StronglySorted Qle cs.
Proof.
  intros Hf. unfold exact_cumulative.
  destruct (softmax_row fexp row) as [ps|] eqn:E; [|discriminate].
  simpl. intro H. injection H as <-. split.
  - unfold cumsum. rewrite cumsum_from_length.
    eapply softmax_row_length; eassumption.
  - apply cumsum_from_sorted. eapply softmax_row_nonneg; eassumption.
Qed.

Lemma py_max_spec (l : list Z) (w : Z) :
  py_max l = Ok w -> In w l /\ Forall (fun x => (x <= w)%Z) l.
Proof.
  destruct l as [|x l]; simpl; [discriminate|]. intro H. injection H as <-.
  revert x. induction l as [|y l IH]; intro x; simpl.
  - split; [now left|]. constructor; [lia | constructor].
  - destruct (IH (Z.max x y)) as [Hin Hall].
    inversion Hall as [|? ? Hm Hl]; subst. split.
    + destruct Hin as [Hin|Hin]; [|right; right; exact Hin].
      destruct (Z.max_spec x y) as [[_ E]|[_ E]]; rewrite E in *;
        [right; left | left]; exact Hin.
    + constructor; [lia|]. constructor; [lia | assumption].
Qed.

Lemma py_max_nonempty (l : list Z) : l <> [] -> exists w, py_max l = Ok w.
Proof. destruct l; [congruence | intros _; eexists; reflexivity]. Qed.

(** ** The filtering engine: top-p alone *)

Lemma mask_from_nth (n : Z) (row : list score) (j : nat) :
  (j < length row)%nat ->
  nth_error (mask_from n row) j =
  if (Z.of_nat j <? n)%Z then nth_error row j else Some NegInf.
Proof.
  intro Hj. unfold mask_from. rewrite nth_error_app, length_firstn.
  destruct (j <? Nat.min (Z.to_nat n) (length row))%nat eqn:E.
  - apply Nat.ltb_lt in E. rewrite nth_error_firstn.
    replace (j <? Z.to_nat n)%nat with true by (symmetry; apply Nat.ltb_lt; lia).
    replace (Z.of_nat j <? n)%Z with true by (symmetry; apply Z.ltb_lt; lia).
    reflexivity.
  - apply Nat.ltb_ge in E.
    replace (Z.of_nat j <? n)%Z with false by (symmetry; apply Z.ltb_ge; lia).
    apply nth_error_repeat. lia.
Qed.

Lemma mask_from_length (n : Z) (row : list score) :
  length (mask_from n row) = length row.
Proof.
  unfold mask_from. rewrite length_app, length_firstn, repeat_length. lia.
Qed.

Lemma combine_map_map {A B C} (f : A -> B) (g : A -> C) (l : list A) :
  combine (map f l) (map g l) = map (fun x => (f x, g x)) l.
Proof. induction l as [|x l IH]; simpl; [reflexivity | now rewrite IH]. Qed.

Lemma filter_by_top_p_whole (fexp : arith) (scores : matrix score)
  (m : Z) (p : Q) (w : Z) :
  py_max (map (fun row => n_to_keep_row fexp m (width scores) p
                            (fst (sort_row row))) scores) = Ok w ->
  filter_by_top_p fexp scores m p None =
  Ok (map (fun row =>
             mask_from (n_to_keep_row fexp m (width scores) p
                          (fst (sort_row row)))
               (firstn (Z.to_nat w) (fst (sort_row row)))) scores,
      map (fun row => firstn (Z.to_nat w) (snd (sort_row row))) scores).
Proof.
  intro H. unfold filter_by_top_p. simpl. rewrite !map_map. rewrite H. simpl.
  rewrite !map_map, combine_map_map, !map_map. reflexivity.
Qed.

Lemma width_uniform {A} (m : matrix A) (V : nat) :
  m <> [] -> Forall (fun r => length r = V) m -> width m = Z.of_nat V.
Proof.
  destruct m as [|r m]; [congruence|]. intros _ H.
  inversion H; subst. reflexivity.
Qed.

Lemma safe_size_bounds (m V c : Z) :
  (0 <= m <= V)%Z -> (m <= safe_size m V c <= V)%Z.
Proof. unfold safe_size. lia. Qed.

(** C1 (as amended).  With [top_p] set and [top_k] absent, on a non-empty
    batch of rows of width [V] and with [min_tokens_to_keep <= V], the call
    returns, for every row, the first [w] entries of the row sorted in
    descending order (with their original positions), where [w] is the
    largest keep count of the batch; the keep count of a row is
    [min (max c min_tokens_to_keep) V] where [c] is the number of
    cumulative probabilities [<= top_p], as the platform computes them:
    nothing adds one to it.  The returned scores of a row beyond its keep
    count are minus infinity.  Whenever the computed cumulative
    probabilities do not decrease along the row, [c] is the length of the
    longest prefix whose cumulative probability is [<= top_p], and the
    entry at sorted position [c] has a cumulative probability above
    [top_p].  With [min_tokens_to_keep > V] nothing is filtered. *)
Theorem top_p_keeps_clamped_count (fexp : arith) (scores : matrix score)
  (p : Q) (m : Z) (V : nat) :
  scores <> [] ->
  Forall (fun r => length r = V) scores ->
  0 < p -> p <= 1 -> (0 <= m)%Z ->
  let n := fun row =>
    n_to_keep_row fexp m (Z.of_nat V) p (fst (sort_row row)) in
  let c := fun row =>
    count_le p (cumulative_probs fexp (fst (sort_row row))) in
  ((m <= Z.of_nat V)%Z ->
   exists w,
     top_k_top_p_filtering fexp scores PyNone (PyFloat p) (PyInt m)
     = Ok (map (fun row => mask_from (n row)
                             (firstn (Z.to_nat w) (fst (sort_row row))))
             scores,
           map (fun row => firstn (Z.to_nat w) (snd (sort_row row))) scores)
     /\ In w (map n scores)
     /\ Forall (fun k => (k <= w)%Z) (map n scores)
     /\ forall row, In row scores ->
          n row = Z.min (Z.max (c row) m) (Z.of_nat V)
          /\ (m <= n row <= Z.of_nat V)%Z
          /\ descending (fst (sort_row row))
          /\ Permutation (combine (fst (sort_row row)) (snd (sort_row row)))
               (enumerate row)
          /\ length (mask_from (n row)
                       (firstn (Z.to_nat w) (fst (sort_row row))))
             = Z.to_nat w
          /\ (forall j, (j < Z.to_nat w)%nat ->
                nth_error (mask_from (n row)
                             (firstn (Z.to_nat w) (fst (sort_row row)))) j
                = if (Z.of_nat j <? n row)%Z
                  then nth_error (fst (sort_row row)) j
                  else Some NegInf)
          /\ (forall cs, cumulative_probs fexp (fst (sort_row row)) = Some cs ->
                length cs = V /\
                (StronglySorted Qle cs ->
                 forall j v, nth_error cs j = Some v ->
                   ((Z.of_nat j < c row)%Z -> v <= p) /\
                   ((c row <= Z.of_nat j)%Z -> p < v))))
  /\ ((Z.of_nat V < m)%Z ->
      top_k_top_p_filtering fexp scores PyNone (PyFloat p) (PyInt m)
      = Ok (input_value_and_indices scores)).
Proof.
  intros Hne Hall Hp0 Hp1 Hm n c.
  pose proof (width_uniform Hne Hall) as Hw.
  assert (Hval : validate_top_k_top_p_min_tokens_to_keep
                   PyNone (PyFloat p) (PyInt m) = Ok tt).
  { apply validate_ok_iff. repeat split.
    - now left.
    - right. exists p. auto.
    - right. exists m. auto. }
  split.
  - intro HmV.
    destruct (py_max_nonempty (l := map n scores)) as [w Hmax].
    { destruct scores; [congruence | discriminate]. }
    exists w. destruct (py_max_spec _ Hmax) as [Hin Hle].
    assert (HwV : (0 <= w <= Z.of_nat V)%Z).
    { apply in_map_iff in Hin. destruct Hin as [row [<- _]].
      unfold n, n_to_keep_row.
      pose proof (@safe_size_bounds m (Z.of_nat V)
        (count_le p (cumulative_probs fexp (fst (sort_row row))))
        (conj Hm HmV)). lia. }
    split; [|split; [exact Hin | split; [exact Hle|]]].
    + unfold top_k_top_p_filtering. rewrite Hval. simpl. rewrite Hw.
      replace (Z.of_nat V <? m)%Z with false by (symmetry; apply Z.ltb_ge; lia).
      unfold n. rewrite <- Hw. apply filter_by_top_p_whole. rewrite Hw.
      exact Hmax.
    + intros row Hrow.
      assert (Hlen : length row = V).
      { rewrite Forall_forall in Hall. now apply Hall. }
      assert (Hfl : length (firstn (Z.to_nat w) (fst (sort_row row)))
                    = Z.to_nat w).
      { apply firstn_length_le. rewrite sort_row_fst_length. lia. }
      split; [reflexivity|]. split.
      { unfold n, n_to_keep_row. apply safe_size_bounds. lia. }
      split; [apply sort_row_descending|].
      split; [apply sort_row_perm|].
      split; [now rewrite mask_from_length|]. split.
      * intros j Hj. rewrite mask_from_nth by lia.
        destruct (Z.of_nat j <? n row)%Z; [|reflexivity].
        rewrite nth_error_firstn.
        now replace (j <? Z.to_nat w)%nat with true
          by (symmetry; apply Nat.ltb_lt; lia).
      * intros cs Hcs. split.
        { apply cumulative_probs_length in Hcs.
          now rewrite Hcs, sort_row_fst_length. }
        intro Hsorted. unfold c. rewrite Hcs. now apply count_le_prefix.
  - intro HVm. unfold top_k_top_p_filtering. rewrite Hval. simpl. rewrite Hw.
    now replace (Z.of_nat V <? m)%Z with true by (symmetry; apply Z.ltb_lt; lia).
Qed.

Lemma qexp_pos (q : Q) : 0 < qexp q.
Proof.
  change (0 < exp_standin q). unfold exp_standin.
  assert (H : 0 <= q * q / 2).
  { unfold Qdiv. apply Qmult_le_0_compat; [|discriminate].
    destruct (Qlt_le_dec q 0) as [Hq|Hq].
    - setoid_replace (q * q) with ((- q) * (- q)) by ring.
      apply Qmult_le_0_compat; lra.
    - now apply Qmult_le_0_compat. }
  set (t := q * q / 2) in *.
  destruct (Qle_bool 0 q) eqn:E.
  - apply Qle_bool_iff in E. lra.
  - apply Qle_bool_false in E.
    unfold Qdiv. rewrite Qmult_1_l. apply Qinv_lt_0_compat. lra.
Qed.

Lemma qexp_nonneg (q : Q) : 0 <= qexp q.
Proof. apply Qlt_le_weak, qexp_pos. Qed.

(** In exact arithmetic the cumulative probabilities never decrease, so
    there the count of line 137 is always the length of a prefix. *)
Lemma qexp_cumulative_sorted (row : list score) (cs : list Q) :
  cumulative_probs qexp row = Some cs ->
  length cs = length row /\ StronglySorted Qle cs.
Proof.
  unfold qexp. rewrite cumulative_probs_exact.
  apply exact_cumulative_sorted. exact qexp_nonneg.
Qed.

Lemma top_p_keeps_clamped_count_witness :
  exists out,
    top_k_top_p_filtering qexp
      [[fin 1; fin 5; fin 2]; [fin 4; fin 0; fin 4]]
      PyNone (PyFloat (1#2)) (PyInt 1) = Ok out.
Proof.
  destruct (@top_p_keeps_clamped_count qexp
              [[fin 1; fin 5; fin 2]; [fin 4; fin 0; fin 4]] (1#2) 1 3)
    as [H _].
  - discriminate.
  - repeat constructor.
  - reflexivity.
  - discriminate.
  - lia.
  - destruct H as [w [H _]]; [simpl; lia|]. eexists. exact H.
Defined.

(** C1, as stated, fails.  On the row [0, 0] with top_p = 0.6 both
    entries have probability 1/2, so the cumulative probabilities are
    1/2 and 1: one entry is [<= top_p], the code keeps exactly that one
    (keep count 1), and the entry at sorted position 1, the first whose
    cumulative probability exceeds top_p, is not in the result; the
    prefix "extended by one more entry" would have 2 entries. *)
Lemma top_p_does_not_extend_by_one :
  top_k_top_p_filtering qexp [[fin 0; fin 0]] PyNone (PyFloat (3#5)) (PyInt 1)
  = Ok ([[fin 0]], [[0%Z]])
  /\ (exists c0 c1,
        cumulative_probs qexp (fst (sort_row [fin 0; fin 0])) = Some [c0; c1]
        /\ c0 <= 3#5 /\ 3#5 < c1)
  /\ n_to_keep_row qexp 1 2 (3#5) (fst (sort_row [fin 0; fin 0])) = 1%Z
  /\ spec_n_to_keep qexp 1 2 (3#5) (fst (sort_row [fin 0; fin 0])) = 2%Z.
Proof.
  split; [vm_compute; reflexivity|]. split.
  - eexists. eexists. split; [vm_compute; reflexivity|].
    split; [discriminate | reflexivity].
  - split; vm_compute; reflexivity.
Qed.

(** ** Fallible maps and index selection *)

Lemma rbind_ok {A B} (r : result A) (k : A -> result B) (b : B) :
  rbind r k = Ok b -> exists a, r = Ok a /\ k a = Ok b.
Proof. destruct r as [a|e]; simpl; [eauto | discriminate]. Qed.

Lemma rmap_list_ok {A B} (f : A -> result B) (l : list A) (bs : list B) :
  rmap_list f l = Ok bs -> Forall2 (fun a b => f a = Ok b) l bs.
Proof.
  revert bs. induction l as [|a l IH]; simpl; intros bs H.
  - injection H as <-. constructor.
  - apply rbind_ok in H. destruct H as [b [Hb H]].
    apply rbind_ok in H. destruct H as [bs' [Hbs H]].
    injection H as <-. constructor; auto.
Qed.

Lemma rmap_list_total {A B} (f : A -> result B) (l : list A) :
  Forall (fun a => exists b, f a = Ok b) l -> exists bs, rmap_list f l = Ok bs.
Proof.
  induction 1 as [|a l [b Hb] Hl [bs IH]]; simpl.
  - eexists; reflexivity.
  - rewrite Hb, IH. simpl. eexists; reflexivity.
Qed.

Lemma lookup_ok_in {A} (row : list A) (j : Z) (x : A) :
  lookup row j = Ok x -> In x row.
Proof.
  unfold lookup. destruct (j <? 0)%Z; [discriminate|].
  destruct (nth_error row (Z.to_nat j)) eqn:E; [|discriminate].
  intro H. injection H as <-. eapply nth_error_In; eassumption.
Qed.

Lemma lookup_total {A} (row : list A) (j : Z) :
  (0 <= j < Z.of_nat (length row))%Z -> exists x, lookup row j = Ok x.
Proof.
  intro Hj. unfold lookup.
  replace (j <? 0)%Z with false by (symmetry; apply Z.ltb_ge; lia).
  destruct (nth_error row (Z.to_nat j)) eqn:E; [eauto|].
  apply nth_error_None in E. lia.
Qed.

Lemma index_select_row_incl {A} (row : list A) (idx : list Z) (out : list A) :
  rmap_list (lookup row) idx = Ok out -> incl out row /\ length out = length idx.
Proof.
  intro H. apply rmap_list_ok in H.
  induction H as [|j x idx out Hx H [IH1 IH2]]; simpl.
  - split; [intros ? [] | reflexivity].
  - split; [|now rewrite IH2]. intros y [<-|Hy].
    + eapply lookup_ok_in; eassumption.
    + now apply IH1.
Qed.

(** Every row of [index_select m idx] is made of entries of the row of [m]
    at the same place. *)
Lemma index_select_incl {A} (m : matrix A) (idx : list Z) (out : matrix A) :
  index_select m idx = Ok out ->
  Forall2 (fun row orow => incl orow row /\ length orow = length idx) m out.
Proof.
  unfold index_select. intro H. apply rmap_list_ok in H.
  eapply Forall2_impl; [|exact H]. intros row orow Hr.
  now apply index_select_row_incl.
Qed.

Lemma index_select_total {A} (m : matrix A) (idx : list Z) (V : nat) :
  Forall (fun row => length row = V) m ->
  Forall (fun j => (0 <= j < Z.of_nat V)%Z) idx ->
  exists out, index_select m idx = Ok out.
Proof.
  intros Hm Hidx. unfold index_select. apply rmap_list_total.
  eapply Forall_impl; [|exact Hm]. intros row Hrow. simpl in Hrow.
  apply rmap_list_total. eapply Forall_impl; [|exact Hidx].
  intros j Hj. apply lookup_total. simpl in Hj. lia.
Qed.

Lemma Forall2_nth_error {A B} (R : A -> B -> Prop) (l : list A) (l' : list B) :
  Forall2 R l l' ->
  forall i a b, nth_error l i = Some a -> nth_error l' i = Some b -> R a b.
Proof.
  induction 1 as [|x y l l' Hxy H IH]; intros [|i] a b Ha Hb;
    simpl in *; try discriminate.
  - injection Ha as <-. injection Hb as <-. exact Hxy.
  - eapply IH; eassumption.
Qed.

(** ** Positions returned by sort and top-k *)

Lemma firstn_in {A} (n : nat) (l : list A) (x : A) :
  In x (firstn n l) -> In x l.
Proof.
  intro H. rewrite <- (firstn_skipn n l). apply in_or_app. now left.
Qed.

Lemma arange_bounds (n j : Z) : In j (arange n) -> (0 <= j < n)%Z.
Proof.
  unfold arange. intro H. apply in_map_iff in H.
  destruct H as [i [<- Hi]]. apply in_seq in Hi. lia.
Qed.

Lemma sort_desc_positions (row : list score) (x : score * Z) :
  In x (sort_desc (enumerate row)) ->
  (0 <= snd x < Z.of_nat (length row))%Z.
Proof.
  intro H. eapply Permutation_in in H; [|apply sort_desc_perm].
  unfold enumerate in H. destruct x as [s j].
  apply in_combine_r in H. now apply arange_bounds in H.
Qed.

Lemma sort_row_positions (row : list score) :
  Forall (fun j => (0 <= j < Z.of_nat (length row))%Z) (snd (sort_row row)).
Proof.
  unfold sort_row. rewrite split_snd. apply Forall_forall. intros j Hj.
  apply in_map_iff in Hj. destruct Hj as [x [<- Hx]].
  now apply sort_desc_positions.
Qed.

Lemma topk_row_ok (k : Z) (row : list score) :
  (0 <= k <= Z.of_nat (length row))%Z ->
  topk_row k row
  = Ok (List.split (firstn (Z.to_nat k) (sort_desc (enumerate row)))).
Proof.
  intro Hk. unfold topk_row.
  replace (k <? 0)%Z with false by (symmetry; apply Z.ltb_ge; lia).
  now replace (Z.of_nat (length row) <? k)%Z with false
    by (symmetry; apply Z.ltb_ge; lia).
Qed.

Lemma rmap_list_ext_ok {A B} (f : A -> result B) (g : A -> B) (l : list A) :
  Forall (fun a => f a = Ok (g a)) l -> rmap_list f l = Ok (map g l).
Proof.
  induction 1 as [|a l Ha Hl IH]; simpl; [reflexivity|].
  rewrite Ha, IH. reflexivity.
Qed.

Lemma split_map_pair {A B C} (f : A -> B) (g : A -> C) (l : list A) :
  List.split (map (fun a => (f a, g a)) l) = (map f l, map g l).
Proof.
  induction l as [|a l IH]; simpl; [reflexivity | now rewrite IH].
Qed.

Lemma topk_ok (scores : matrix score) (k : Z) (V : nat) :
  Forall (fun r => length r = V) scores ->
  (0 <= k <= Z.of_nat V)%Z ->
  topk scores k = Ok (map (topk_val k) scores, map (topk_idx k) scores).
Proof.
  intros Hall Hk. unfold topk.
  rewrite (@rmap_list_ext_ok _ _ (topk_row k)
             (fun row => (topk_val k row, topk_idx k row))).
  - simpl. now rewrite split_map_pair.
  - eapply Forall_impl; [|exact Hall]. intros row Hrow. simpl in Hrow.
    rewrite topk_row_ok by lia.
    unfold topk_val, topk_idx. f_equal.
    rewrite (surjective_pairing (List.split _)).
    now rewrite split_fst, split_snd.
Qed.

Lemma topk_idx_positions (k : Z) (row : list score) :
  Forall (fun j => (0 <= j < Z.of_nat (length row))%Z) (topk_idx k row).
Proof.
  unfold topk_idx. apply Forall_forall. intros j Hj.
  apply in_map_iff in Hj. destruct Hj as [x [<- Hx]].
  apply sort_desc_positions. eapply firstn_in; eassumption.
Qed.

Lemma topk_idx_length (k : Z) (row : list score) :
  (0 <= k <= Z.of_nat (length row))%Z ->
  length (topk_idx k row) = Z.to_nat k.
Proof.
  intro Hk. unfold topk_idx. rewrite length_map.
  apply firstn_length_le. rewrite sort_desc_length, enumerate_length. lia.
Qed.

(** ** The filtering engine: top-k followed by top-p *)

Lemma filter_by_top_p_some_incl (fexp : arith) (scores : matrix score)
  (m : Z) (p : Q) (idx : matrix Z) (cs : matrix score) (ci : matrix Z) :
  filter_by_top_p fexp scores m p (Some idx) = Ok (cs, ci) ->
  Forall2 (fun t crow => incl crow t) idx ci.
Proof.
  unfold filter_by_top_p. intro H.
  apply rbind_ok in H. destruct H as [stf [_ H]].
  apply rbind_ok in H. destruct H as [w [_ H]].
  apply rbind_ok in H. destruct H as [ci' [Hci H]].
  injection H as _ <-.
  apply rbind_ok in Hci. destruct Hci as [j0 [_ Hci]].
  apply index_select_incl in Hci.
  eapply Forall2_impl; [|exact Hci]. now intros t crow [Hin _].
Qed.

Lemma filter_by_top_p_some_total (fexp : arith) (scores : matrix score)
  (m : Z) (p : Q) (idx : matrix Z) (V K : nat) :
  scores <> [] ->
  Forall (fun r => length r = V) scores ->
  idx <> [] ->
  Forall (fun t => length t = K) idx ->
  Forall (Forall (fun j => (0 <= j < Z.of_nat V)%Z)) idx ->
  exists out, filter_by_top_p fexp scores m p (Some idx) = Ok out.
Proof.
  intros Hs Hall Hi HK Hpos. unfold filter_by_top_p.
  destruct idx as [|i0 idx']; [congruence|]. cbn [row0 rbind].
  inversion Hpos as [|? ? Hi0 _]; subst.
  inversion HK as [|? ? HK0 _]; subst.
  destruct (index_select_total Hall Hi0) as [stf Hstf].
  rewrite Hstf. cbn [rbind].
  pose proof Hstf as Hrows. apply index_select_incl in Hrows.
  destruct scores as [|s0 scores']; [congruence|].
  inversion Hrows as [|? r0 ? stf' [_ Hr0] _]; subst.
  cbn [map py_max rbind row0 fst snd].
  match goal with
  | |- exists out, rbind (index_select _ ?j0) _ = _ =>
      destruct (@index_select_total _ (i0 :: idx') j0 (length i0)) as [ci Hci]
  end.
  - exact HK.
  - apply Forall_forall. intros j Hj. apply firstn_in in Hj.
    pose proof (sort_row_positions r0) as Hp.
    rewrite Forall_forall in Hp. specialize (Hp j Hj). lia.
  - rewrite Hci. simpl. eexists. reflexivity.
Qed.

Lemma filter_by_top_k_ok (scores : matrix score) (m k : Z) (V : nat) :
  scores <> [] ->
  Forall (fun r => length r = V) scores ->
  (0 <= m <= Z.of_nat V)%Z ->
  let k' := safe_size m (Z.of_nat V) k in
  filter_by_top_k scores m k
  = Ok (map (topk_val k') scores, map (topk_idx k') scores).
Proof.
  intros Hs Hall Hm k'. unfold filter_by_top_k.
  rewrite (width_uniform Hs Hall). apply topk_ok with (V := V); [exact Hall|].
  unfold k', safe_size. lia.
Qed.

(** C2. For a non-empty batch of rows of width [V], a legal [top_k] and
    [top_p] and a non-negative [min_tokens_to_keep], both calls return,
    and for every row [i] every vocabulary index in row [i] of the index
    matrix returned by top-k followed by top-p is an index of row [i] of
    the index matrix returned by plain top-k.  The whole returned row is
    covered, hence also its unmasked part. *)
Theorem combined_filtering_subset_of_top_k (fexp : arith)
  (scores : matrix score) (k : Z) (p : Q) (m : Z) (V : nat) :
  scores <> [] ->
  Forall (fun r => length r = V) scores ->
  (0 < k)%Z -> 0 < p -> p <= 1 -> (0 <= m)%Z ->
  exists cs ci ks ki,
    top_k_top_p_filtering fexp scores (PyInt k) (PyFloat p) (PyInt m)
    = Ok (cs, ci)
    /\ top_k_top_p_filtering fexp scores (PyInt k) PyNone (PyInt m)
       = Ok (ks, ki)
    /\ length ci = length scores
    /\ length ki = length scores
    /\ forall i crow krow,
         nth_error ci i = Some crow -> nth_error ki i = Some krow ->
         incl crow krow.
Proof.
  intros Hs Hall Hk Hp0 Hp1 Hm.
  pose proof (width_uniform Hs Hall) as Hw.
  assert (Hv1 : validate_top_k_top_p_min_tokens_to_keep
                  (PyInt k) (PyFloat p) (PyInt m) = Ok tt).
  { apply validate_ok_iff. repeat split.
    - right. exists k. auto.
    - right. exists p. auto.
    - right. exists m. auto. }
  assert (Hv2 : validate_top_k_top_p_min_tokens_to_keep
                  (PyInt k) PyNone (PyInt m) = Ok tt).
  { apply validate_ok_iff. repeat split.
    - right. exists k. auto.
    - now left.
    - right. exists m. auto. }
  unfold top_k_top_p_filtering. rewrite Hv1, Hv2. simpl. rewrite Hw.
  destruct (Z.of_nat V <? m)%Z eqn:E.
  - (* nothing to filter *)
    unfold input_value_and_indices. do 4 eexists.
    split; [reflexivity|]. split; [reflexivity|].
    rewrite length_map. repeat split.
    intros i crow krow H1 H2. rewrite H1 in H2. injection H2 as <-.
    apply incl_refl.
  - apply Z.ltb_ge in E.
    rewrite (@filter_by_top_k_ok scores m k V Hs Hall (conj Hm E)).
    simpl.
    set (k' := safe_size m (Z.of_nat V) k).
    assert (Hk' : (0 <= k' <= Z.of_nat V)%Z) by (unfold k', safe_size; lia).
    destruct (@filter_by_top_p_some_total fexp scores m p
                (map (topk_idx k') scores) V (Z.to_nat k'))
      as [[cs ci] Hout]; auto.
    + destruct scores; [congruence | discriminate].
    + apply Forall_map. eapply Forall_impl; [|exact Hall].
      intros row Hrow. simpl in Hrow. apply topk_idx_length. lia.
    + apply Forall_map. eapply Forall_impl; [|exact Hall].
      intros row Hrow. simpl in Hrow. rewrite <- Hrow.
      apply topk_idx_positions.
    + exists cs, ci. do 2 eexists.
      split; [exact Hout|]. split; [reflexivity|].
      pose proof Hout as Hincl. apply filter_by_top_p_some_incl in Hincl.
      split; [|split].
      * rewrite <- (Forall2_length Hincl). now rewrite length_map.
      * now rewrite length_map.
      * intros i crow krow H1 H2.
        eapply (Forall2_nth_error Hincl); eassumption.
Qed.

Lemma combined_filtering_subset_of_top_k_witness :
  exists cs ci ks ki,
    top_k_top_p_filtering qexp
      [[fin 1; fin 5; fin 2; fin 8; fin 3]; [fin 9; fin 5; fin 2; fin 8; fin 3]]
      (PyInt 3) (PyFloat (9#10)) (PyInt 1) = Ok (cs, ci)
    /\ top_k_top_p_filtering qexp
         [[fin 1; fin 5; fin 2; fin 8; fin 3];
          [fin 9; fin 5; fin 2; fin 8; fin 3]]
         (PyInt 3) PyNone (PyInt 1) = Ok (ks, ki)
    /\ forall i crow krow,
         nth_error ci i = Some crow -> nth_error ki i = Some krow ->
         incl crow krow.
Proof.
  destruct (@combined_filtering_subset_of_top_k qexp
              [[fin 1; fin 5; fin 2; fin 8; fin 3];
               [fin 9; fin 5; fin 2; fin 8; fin 3]] 3 (9#10) 1 5)
    as [cs [ci [ks [ki [H1 [H2 [_ [_ H3]]]]]]]].
  - discriminate.
  - repeat constructor.
  - lia.
  - reflexivity.
  - discriminate.
  - lia.
  - exists cs, ci, ks, ki. auto.
Defined.

(** ** Computations *)

Lemma bind_ok_inv {M A B} (c : Comp M A) (k : A -> Comp M B) (w w2 : world M)
  (b : B) :
  bind c k w = (Ok b, w2) ->
  exists a w1, c w = (Ok a, w1) /\ k a w1 = (Ok b, w2).
Proof.
  unfold bind. destruct (c w) as [[a|e] w1]; [eauto | discriminate].
Qed.

Lemma bind_ok_run {M A B} (c : Comp M A) (k : A -> Comp M B) (w w1 : world M)
  (a : A) :
  c w = (Ok a, w1) -> bind c k w = k a w1.
Proof. unfold bind. now intros ->. Qed.

Lemma bind_raise_run {M A B} (c : Comp M A) (k : A -> Comp M B)
  (w w1 : world M) (e : exn) :
  c w = (Raise e, w1) -> bind c k w = (Raise e, w1).
Proof. unfold bind. now intros ->. Qed.

Lemma silent_ret {M A} (a : A) : silent (@ret M A a).
Proof. intro w. now split. Qed.

Lemma silent_lift {M A} (r : result A) : silent (@lift M A r).
Proof. intro w. now split. Qed.

Lemma silent_draw {M} : silent (@draw M).
Proof. intro w. unfold draw. destruct (w_rng w); now split. Qed.

Lemma silent_bind {M A B} (c : Comp M A) (k : A -> Comp M B) :
  silent c -> (forall a, silent (k a)) -> silent (bind c k).
Proof.
  intros Hc Hk w. unfold bind. specialize (Hc w).
  destruct (c w) as [[a|e] w1]; simpl in *; [|exact Hc].
  destruct (Hk a w1) as [H1 H2]. destruct Hc as [H3 H4].
  split; congruence.
Qed.

Lemma silent_multinomial {M} (probs : list (option (list Q))) :
  silent (@multinomial M probs).
Proof.
  induction probs as [|p probs IH]; simpl; [apply silent_ret|].
  apply silent_bind; [apply silent_draw|]. intro u.
  apply silent_bind; [apply silent_lift|]. intro x.
  apply silent_bind; [exact IH|]. intro xs. apply silent_ret.
Qed.

Lemma silent_llama_sample {M} (fexp : arith) (top_k top_p : pyobj) (t : Q)
  (scores : matrix score) :
  silent (@llama_sample M fexp top_k top_p t scores).
Proof.
  unfold llama_sample.
  apply silent_bind; [apply silent_lift|]. intro tv.
  apply silent_bind; [apply silent_multinomial|]. intro pos.
  apply silent_bind; [apply silent_lift|]. intro inputs. apply silent_ret.
Qed.

Lemma forward_run {M O} (model : model_fn M O) (tokens : matrix Z)
  (cache_ids : list Z) (start_ids : option (list Z)) (w : world M) :
  exists out w',
    forward model tokens cache_ids start_ids w = (Ok out, w')
    /\ out = snd (model (w_model w) tokens cache_ids start_ids)
    /\ w_calls w' = w_calls w ++
         [{| fc_tokens := tokens; fc_cache_ids := cache_ids;
             fc_start_ids := start_ids |}]
    /\ w_rng w' = w_rng w.
Proof.
  unfold forward. destruct (model (w_model w) tokens cache_ids start_ids).
  do 2 eexists. repeat split.
Qed.

(** ** The [for] loop: invariants *)

Section ForRange.

Context {M St : Type}.
Variable stopped : St -> bool.
Variable body : Z -> St -> Comp M St.
Variable start : Z.
Variable st0 : St.

Lemma for_range_S (n : nat) (w w' : world M) (st' : St) :
  for_range stopped body start st0 (S n) w = (Ok st', w') ->
  exists st w1,
    for_range stopped body start st0 n w = (Ok st, w1)
    /\ ((stopped st = true /\ st' = st /\ w' = w1)
        \/ (stopped st = false
            /\ body (start + Z.of_nat n)%Z st w1 = (Ok st', w'))).
Proof.
  simpl. intro H. apply bind_ok_inv in H. destruct H as [st [w1 [H1 H2]]].
  exists st, w1. split; [exact H1|].
  destruct (stopped st) eqn:E; [left | right; auto].
  unfold ret in H2. injection H2 as <- <-. auto.
Qed.

(** An invariant of the rounds holds after any number of rounds. *)
Lemma for_range_inv (I : St -> Prop) :
  I st0 ->
  (forall c st w st' w', I st -> body c st w = (Ok st', w') -> I st') ->
  forall n w st w',
    for_range stopped body start st0 n w = (Ok st, w') -> I st.
Proof.
  intros H0 Hstep. induction n as [|n IH]; intros w st w' H.
  - simpl in H. unfold ret in H. now injection H as <- _.
  - apply for_range_S in H. destruct H as [st1 [w1 [H1 H2]]].
    specialize (IH _ _ _ H1).
    destruct H2 as [[_ [-> _]]|[_ H2]]; [exact IH|].
    eapply Hstep; eassumption.
Qed.

(** A reflexive and transitive relation that every round respects links
    the state after [k] rounds to the state after [k + d] rounds. *)
Lemma for_range_rel (I : St -> Prop) (R : St -> St -> Prop) :
  I st0 ->
  (forall c st w st' w', I st -> body c st w = (Ok st', w') -> I st') ->
  (forall st, R st st) ->
  (forall a b c, R a b -> R b c -> R a c) ->
  (forall c st w st' w', I st -> body c st w = (Ok st', w') -> R st st') ->
  forall d k w st_k w_k st_n w_n,
    for_range stopped body start st0 k w = (Ok st_k, w_k) ->
    for_range stopped body start st0 (k + d) w = (Ok st_n, w_n) ->
    R st_k st_n.
Proof.
  intros H0 HI Hrefl Htrans Hstep. induction d as [|d IH];
    intros k w st_k w_k st_n w_n Hk Hn.
  - rewrite Nat.add_0_r in Hn. rewrite Hk in Hn. injection Hn as <- _.
    apply Hrefl.
  - rewrite Nat.add_succ_r in Hn. apply for_range_S in Hn.
    destruct Hn as [st_m [w_m [Hm Hn]]].
    specialize (IH _ _ _ _ _ _ Hk Hm).
    destruct Hn as [[_ [-> _]]|[_ Hn]]; [exact IH|].
    eapply Htrans; [exact IH|]. eapply Hstep; [|exact Hn].
    eapply for_range_inv; eassumption.
Qed.

(** Once stopped, further rounds change nothing. *)
Lemma for_range_stopped (k d : nat) (w w_k : world M) (st_k : St) :
  for_range stopped body start st0 k w = (Ok st_k, w_k) ->
  stopped st_k = true ->
  for_range stopped body start st0 (k + d) w = (Ok st_k, w_k).
Proof.
  intros Hk Hs. induction d as [|d IH].
  - now rewrite Nat.add_0_r.
  - rewrite Nat.add_succ_r. simpl. unfold bind. rewrite IH. now rewrite Hs.
Qed.

Variable start_ids : option (list Z).
Variable P : matrix Z -> Prop.
Variable Inv : St -> Prop.

Hypothesis Inv_init : Inv st0.
Hypothesis Inv_step : forall c st w st' w',
  Inv st -> body c st w = (Ok st', w') -> Inv st'.

(** The forward calls of the rounds: a round either makes no call and
    stops (or fails), or makes exactly one call, at its own position. *)
Hypothesis body_calls : forall c st w,
  Inv st ->
  (w_calls (snd (body c st w)) = w_calls w
   /\ forall st', fst (body c st w) = Ok st' -> stopped st' = true)
  \/ (exists st' tokens,
        fst (body c st w) = Ok st' /\ stopped st' = false
        /\ P tokens
        /\ w_calls (snd (body c st w)) = w_calls w ++
             [{| fc_tokens := tokens; fc_cache_ids := [c];
                 fc_start_ids := start_ids |}]).

Lemma decode_positions_snoc (c : Z) (n : nat) :
  decode_positions c (S n)
  = decode_positions c n ++ [[(c + Z.of_nat n)%Z]].
Proof.
  unfold decode_positions. now rewrite seq_S, map_app.
Qed.

Lemma for_range_calls (n : nat) (w : world M) :
  exists l,
    w_calls (snd (for_range stopped body start st0 n w)) = w_calls w ++ l
    /\ map fc_cache_ids l = decode_positions start (length l)
    /\ Forall (fun x => P (fc_tokens x) /\ fc_start_ids x = start_ids) l
    /\ (length l <= n)%nat
    /\ (forall st, fst (for_range stopped body start st0 n w) = Ok st ->
        stopped st = false -> length l = n).
Proof.
  induction n as [|n [l [Hc [Hp [HP [Hlen Hfull]]]]]].
  - exists []. simpl. rewrite app_nil_r. repeat split; auto.
  - simpl. unfold bind.
    destruct (for_range stopped body start st0 n w) as [[st|e] w1] eqn:E;
      simpl in *.
    + destruct (stopped st) eqn:Es.
      * exists l. simpl. repeat split; auto.
        intros st' H. injection H as <-. congruence.
      * specialize (Hfull st eq_refl Es).
        assert (HI : Inv st) by (eapply for_range_inv; eassumption).
        destruct (body_calls (start + Z.of_nat n)%Z w1 HI)
          as [[Hsame Hstop]|[st' [tokens [Hok [Hns [Htok Hcalls]]]]]].
        -- exists l. rewrite Hsame, Hc. repeat split; auto.
           intros st' H1 H2. specialize (Hstop st' H1). congruence.
        -- exists (l ++ [{| fc_tokens := tokens;
                            fc_cache_ids := [(start + Z.of_nat n)%Z];
                            fc_start_ids := start_ids |}]).
           rewrite Hcalls, Hc, app_assoc. split; [reflexivity|].
           rewrite map_app, length_app, Hp. simpl.
           rewrite Nat.add_1_r, decode_positions_snoc, Hfull.
           repeat split; auto.
           apply Forall_app. split; [exact HP|]. now repeat constructor.
    + exists l. repeat split; auto. discriminate.
Qed.

End ForRange.

(** ** Forward calls of the four generation loops *)

Lemma width_nonneg {A} (m : matrix A) : (0 <= width m)%Z.
Proof. destruct m; simpl; lia. Qed.

Lemma concat_decode_positions (c : Z) (n : nat) :
  concat (decode_positions c n) = map (fun j => (c + Z.of_nat j)%Z) (seq 0 n).
Proof.
  unfold decode_positions. induction (seq 0 n) as [|j l IH]; simpl;
    [reflexivity | now rewrite IH].
Qed.

Lemma arange_app (a : Z) (n : nat) :
  (0 <= a)%Z ->
  arange (a + Z.of_nat n)
  = arange a ++ map (fun j => (a + Z.of_nat j)%Z) (seq 0 n).
Proof.
  intro Ha. unfold arange.
  replace (Z.to_nat (a + Z.of_nat n)) with (Z.to_nat a + n)%nat by lia.
  rewrite seq_app, map_app. f_equal. simpl.
  assert (H : forall s,
             map Z.of_nat (seq (Z.to_nat a + s) n)
             = map (fun j => (a + Z.of_nat j)%Z) (seq s n)).
  { induction n as [|n IH]; intro s; simpl; [reflexivity|].
    f_equal; [lia|]. rewrite <- IH. now rewrite Nat.add_succ_r. }
  rewrite <- (H 0%nat). now rewrite Nat.add_0_r.
Qed.

Lemma generation_trace_intro (P : matrix Z -> Prop) (input_ids : matrix Z)
  (start_ids : option (list Z)) (l : list fwd_call) :
  map fc_cache_ids l = decode_positions (width input_ids) (length l) ->
  Forall (fun x => P (fc_tokens x) /\ fc_start_ids x = start_ids) l ->
  generation_trace P input_ids start_ids
    (prefill_call input_ids start_ids :: l).
Proof.
  intros Hp HP. exists l. repeat split; auto.
  simpl. rewrite Hp, concat_decode_positions.
  symmetry. apply arange_app, width_nonneg.
Qed.

Lemma bind_lift_world {M A B} (c : Comp M A) (r : A -> result B) (w : world M) :
  snd (bind c (fun a => lift (r a)) w) = snd (c w).
Proof. unfold bind, lift. now destruct (c w) as [[a|e] w1]. Qed.

Lemma one_token_column (l : list Z) : one_token (column l).
Proof.
  unfold one_token, column. apply Forall_map, Forall_forall. now intros.
Qed.

Lemma at_most_one_token_last_col (m : matrix Z) :
  at_most_one_token (last_col m).
Proof.
  unfold at_most_one_token, last_col. apply Forall_map, Forall_forall.
  intros row _. rewrite length_skipn. lia.
Qed.

Lemma one_token_last_col (m : matrix Z) :
  Forall (fun r => r <> []) m -> one_token (last_col m).
Proof.
  intro H. unfold one_token, last_col. apply Forall_map.
  eapply Forall_impl; [|exact H]. intros row Hrow. simpl in Hrow.
  rewrite length_skipn. destruct row; [congruence | cbn [length]; lia].
Qed.

Section TokensLoop.

Context {M : Type}.
Variable model : model_fn M Z.
Variable start_ids : option (list Z).

Lemma sample_tokens_round_calls (P : matrix Z -> Prop) (c : Z)
  (st : tokens_state) (w : world M) :
  P (last_col (ts_next_tokens st)) ->
  exists st' tokens,
    fst (sample_tokens_round model start_ids c st w) = Ok st'
    /\ false = false /\ P tokens
    /\ w_calls (snd (sample_tokens_round model start_ids c st w))
       = w_calls w ++
           [{| fc_tokens := tokens; fc_cache_ids := [c];
               fc_start_ids := start_ids |}].
Proof.
  intro HP. unfold sample_tokens_round.
  destruct (forward_run model (last_col (ts_next_tokens st)) [c] start_ids w)
    as [out [w' [Hf [_ [Hc _]]]]].
  unfold bind. rewrite Hf. simpl. eauto 10.
Qed.

Lemma sample_tokens_round_next (c : Z) (st st' : tokens_state)
  (w w' : world M) :
  sample_tokens_round model start_ids c st w = (Ok st', w') ->
  ts_tokens st' = ts_tokens st ++ [last_col (ts_next_tokens st)]
  /\ exists ms t ids s, ts_next_tokens st' = snd (model ms t ids s).
Proof.
  unfold sample_tokens_round.
  destruct (forward_run model (last_col (ts_next_tokens st)) [c] start_ids w)
    as [out [w1 [Hf [Ho _]]]].
  unfold bind. rewrite Hf. unfold ret. intro H. injection H as <- _.
  simpl. split; [reflexivity|]. subst out. eauto.
Qed.

Lemma sample_tokens_trace (P : matrix Z -> Prop) (input_ids : matrix Z)
  (sequence_length : Z) (w : world M) :
  (forall ms t ids s, P (last_col (snd (model ms t ids s)))) ->
  exists tr,
    w_calls (snd (sample_tokens model input_ids start_ids sequence_length w))
    = w_calls w ++ tr
    /\ generation_trace P input_ids start_ids tr.
Proof.
  intro HP. unfold sample_tokens.
  destruct (forward_run model input_ids (arange (width input_ids)) start_ids w)
    as [out [w1 [Hf [Ho [Hc _]]]]].
  rewrite (@bind_ok_run _ _ _ _ _ _ _ _ Hf). rewrite bind_lift_world.
  unfold sample_tokens_iter.
  destruct (@for_range_calls M tokens_state (fun _ => false)
              (sample_tokens_round model start_ids) (width input_ids)
              {| ts_tokens := [input_ids]; ts_next_tokens := out |}
              start_ids P
              (fun st => exists ms t ids s,
                           ts_next_tokens st = snd (model ms t ids s)))
    with (n := Z.to_nat (sequence_length - width input_ids)) (w := w1)
    as [l [Hl [Hp [HPl _]]]].
  - simpl. subst out. eauto.
  - intros c st w0 st' w' _ H. now apply sample_tokens_round_next in H.
  - intros c st w0 [ms [t [ids [s Hst]]]]. right.
    apply sample_tokens_round_calls. rewrite Hst. apply HP.
  - exists (prefill_call input_ids start_ids :: l).
    rewrite Hl, Hc, <- app_assoc. split; [reflexivity|].
    now apply generation_trace_intro.
Qed.

End TokensLoop.

Section GreedyLoop.

Context {M : Type}.
Variable model : model_fn M score.
Variable start_ids : option (list Z).

Lemma sample_greedy_round_calls (c : Z) (st : greedy_state) (w : world M) :
  (w_calls (snd (sample_greedy_round model start_ids c st w)) = w_calls w
   /\ forall st', fst (sample_greedy_round model start_ids c st w) = Ok st' ->
                  false = true)
  \/ (exists st' tokens,
        fst (sample_greedy_round model start_ids c st w) = Ok st'
        /\ false = false /\ one_token tokens
        /\ w_calls (snd (sample_greedy_round model start_ids c st w))
           = w_calls w ++
               [{| fc_tokens := tokens; fc_cache_ids := [c];
                   fc_start_ids := start_ids |}]).
Proof.
  unfold sample_greedy_round, bind, lift.
  destruct (rmap_list argmax_row (gs_scores st)) as [inputs|e].
  - right.
    destruct (forward_run model (column inputs) [c] start_ids w)
      as [out [w' [Hf [_ [Hc _]]]]].
    rewrite Hf. simpl. exists {| gs_tokens := gs_tokens st ++ [column inputs];
                                 gs_scores := out |}, (column inputs).
    repeat split; auto. apply one_token_column.
  - left. simpl. split; [reflexivity | discriminate].
Qed.

Lemma sample_greedy_trace (input_ids : matrix Z) (sequence_length : Z)
  (w : world M) :
  exists tr,
    w_calls (snd (sample_greedy model input_ids start_ids sequence_length w))
    = w_calls w ++ tr
    /\ generation_trace one_token input_ids start_ids tr.
Proof.
  unfold sample_greedy.
  destruct (forward_run model input_ids (arange (width input_ids)) start_ids w)
    as [out [w1 [Hf [Ho [Hc _]]]]].
  rewrite (@bind_ok_run _ _ _ _ _ _ _ _ Hf). rewrite bind_lift_world.
  unfold sample_greedy_iter.
  destruct (@for_range_calls M greedy_state (fun _ => false)
              (sample_greedy_round model start_ids) (width input_ids)
              {| gs_tokens := [input_ids]; gs_scores := out |}
              start_ids one_token (fun _ => True))
    with (n := Z.to_nat (sequence_length - width input_ids)) (w := w1)
    as [l [Hl [Hp [HPl _]]]]; auto.
  - intros c st w0 _. apply sample_greedy_round_calls.
  - exists (prefill_call input_ids start_ids :: l).
    rewrite Hl, Hc, <- app_assoc. split; [reflexivity|].
    now apply generation_trace_intro.
Qed.

End GreedyLoop.

Section SamplingLoops.

Context {M : Type}.
Variable fexp : arith.
Variable model : model_fn M score.
Variable start_ids : option (list Z).
Variable sequence_length eos_token_id : Z.

Lemma sample_loop_round_calls (top_k c : Z) (st : loop_state) (w : world M) :
  (w_calls (snd (sample_loop_round fexp model start_ids sequence_length
                   eos_token_id top_k c st w)) = w_calls w
   /\ forall st',
        fst (sample_loop_round fexp model start_ids sequence_length
               eos_token_id top_k c st w) = Ok st' ->
        lp_stopped st' = true)
  \/ (exists st' tokens,
        fst (sample_loop_round fexp model start_ids sequence_length
               eos_token_id top_k c st w) = Ok st'
        /\ lp_stopped st' = false /\ one_token tokens
        /\ w_calls (snd (sample_loop_round fexp model start_ids
                           sequence_length eos_token_id top_k c st w))
           = w_calls w ++
               [{| fc_tokens := tokens; fc_cache_ids := [c];
                   fc_start_ids := start_ids |}]).
Proof.
  unfold sample_loop_round, bind, lift.
  destruct (mask_column eos_token_id (lp_scores st)) as [scores|e];
    [|left; simpl; split; [reflexivity | discriminate]].
  destruct (topk scores top_k) as [tk|e];
    [|left; simpl; split; [reflexivity | discriminate]].
  pose proof (silent_multinomial (map (softmax_row fexp) (fst tk)) w) as Hm.
  destruct (multinomial (map (softmax_row fexp) (fst tk)) w)
    as [[pos|e] w2]; simpl in Hm; destruct Hm as [Hm _];
    [|left; simpl; split; [exact Hm | discriminate]].
  destruct (gather (snd tk) pos) as [inputs|e];
    [|left; simpl; split; [exact Hm | discriminate]].
  destruct (sequence_length <=? c + 1)%Z.
  - left. simpl. split; [exact Hm|]. intros st' H. now injection H as <-.
  - right.
    destruct (forward_run model (column inputs) [c] start_ids w2)
      as [out [w' [Hf [_ [Hc _]]]]].
    rewrite Hf. simpl. do 2 eexists.
    split; [reflexivity|]. split; [reflexivity|].
    split; [apply one_token_column|]. now rewrite Hc, Hm.
Qed.

Lemma simple_sample_trace (top_k : Z) (input_ids : matrix Z) (w : world M) :
  exists tr,
    w_calls (snd (simple_sample fexp model input_ids start_ids sequence_length
                    eos_token_id top_k w))
    = w_calls w ++ tr
    /\ generation_trace one_token input_ids start_ids tr.
Proof.
  unfold simple_sample.
  destruct (forward_run model input_ids (arange (width input_ids)) start_ids w)
    as [out [w1 [Hf [Ho [Hc _]]]]].
  rewrite (@bind_ok_run _ _ _ _ _ _ _ _ Hf).
  unfold sample_loop. rewrite bind_lift_world.
  unfold sample_loop_iter.
  destruct (@for_range_calls M loop_state lp_stopped
              (sample_loop_round fexp model start_ids sequence_length
                 eos_token_id top_k) (width input_ids)
              {| lp_tokens := [input_ids]; lp_scores := out;
                 lp_stopped := false |}
              start_ids one_token (fun _ => True))
    with (n := Z.to_nat (sequence_length - width input_ids)) (w := w1)
    as [l [Hl [Hp [HPl _]]]]; auto.
  - intros c st w0 _. apply sample_loop_round_calls.
  - exists (prefill_call input_ids start_ids :: l).
    rewrite Hl, Hc, <- app_assoc. split; [reflexivity|].
    now apply generation_trace_intro.
Qed.

Variable top_k top_p : pyobj.

Lemma sample_loop_llama_round_calls (t : Q) (c : Z) (st : llama_state)
  (w : world M) :
  (w_calls (snd (sample_loop_llama_round fexp model start_ids sequence_length
                   eos_token_id top_k top_p t c st w)) = w_calls w
   /\ forall st',
        fst (sample_loop_llama_round fexp model start_ids sequence_length
               eos_token_id top_k top_p t c st w) = Ok st' ->
        ls_stopped st' = true)
  \/ (exists st' tokens,
        fst (sample_loop_llama_round fexp model start_ids sequence_length
               eos_token_id top_k top_p t c st w) = Ok st'
        /\ ls_stopped st' = false /\ one_token tokens
        /\ w_calls (snd (sample_loop_llama_round fexp model start_ids
                           sequence_length eos_token_id top_k top_p t c st w))
           = w_calls w ++
               [{| fc_tokens := tokens; fc_cache_ids := [c];
                   fc_start_ids := start_ids |}]).
Proof.
  unfold sample_loop_llama_round, bind.
  pose proof (silent_llama_sample (M := M) fexp top_k top_p t (ls_scores st) w)
    as Hm.
  destruct (llama_sample fexp top_k top_p t (ls_scores st) w)
    as [[si|e] w2]; simpl in Hm; destruct Hm as [Hm _];
    [|left; simpl; split; [exact Hm | discriminate]].
  unfold lift.
  destruct (update_done eos_token_id (ls_done_flags st) (snd si))
    as [done_flags|e];
    [|left; simpl; split; [exact Hm | discriminate]].
  destruct (where_done eos_token_id done_flags (snd si)) as [col|e];
    [|left; simpl; split; [exact Hm | discriminate]].
  destruct ((sequence_length <=? c + 1)%Z || forallb (fun d => d) done_flags).
  - left. simpl. split; [exact Hm|]. intros st' H. now injection H as <-.
  - right.
    destruct (forward_run model (column (snd si)) [c] start_ids w2)
      as [out [w' [Hf [_ [Hc _]]]]].
    rewrite Hf. simpl. do 2 eexists.
    split; [reflexivity|]. split; [reflexivity|].
    split; [apply one_token_column|]. now rewrite Hc, Hm.
Qed.

Lemma sample_loop_llama_iter_calls (t : Q) (input_ids : matrix Z)
  (scores : matrix score) (n : nat) (w : world M) :
  exists l,
    w_calls (snd (sample_loop_llama_iter fexp model start_ids sequence_length
                    eos_token_id top_k top_p t (width input_ids)
                    (llama_init input_ids scores) n w))
    = w_calls w ++ l
    /\ map fc_cache_ids l = decode_positions (width input_ids) (length l)
    /\ Forall (fun x => one_token (fc_tokens x) /\ fc_start_ids x = start_ids) l
    /\ (length l <= n)%nat.
Proof.
  unfold sample_loop_llama_iter.
  destruct (@for_range_calls M llama_state ls_stopped
              (sample_loop_llama_round fexp model start_ids sequence_length
                 eos_token_id top_k top_p t) (width input_ids)
              (llama_init input_ids scores)
              start_ids one_token (fun _ => True))
    with (n := n) (w := w)
    as [l [Hl [Hp [HPl [Hlen _]]]]]; auto.
  - intros c st w0 _. apply sample_loop_llama_round_calls.
  - exists l. auto.
Qed.

Lemma sample_llama_trace (temperature : pyobj) (input_ids : matrix Z)
  (w : world M) :
  exists tr,
    w_calls (snd (sample_llama fexp model input_ids start_ids sequence_length
                    eos_token_id top_k top_p temperature w))
    = w_calls w ++ tr
    /\ ((tr = []
         /\ validate_top_k_top_p_min_tokens_to_keep top_k top_p PyNone
            <> Ok tt)
        \/ generation_trace one_token input_ids start_ids tr).
Proof.
  unfold sample_llama, bind at 1, lift at 1.
  destruct (validate_total top_k top_p PyNone) as [Hv|Hv]; rewrite Hv.
  2:{ exists []. simpl. rewrite app_nil_r. split; [reflexivity|]. left.
      split; [reflexivity | discriminate]. }
  destruct (forward_run model input_ids (arange (width input_ids)) start_ids w)
    as [out [w1 [Hf [Ho [Hc _]]]]].
  rewrite (@bind_ok_run _ _ _ _ _ _ _ _ Hf).
  unfold sample_loop_llama, bind at 1, lift at 1. rewrite Hv.
  assert (Hnil : generation_trace one_token input_ids start_ids
                   [prefill_call input_ids start_ids]).
  { apply generation_trace_intro; [reflexivity | constructor]. }
  destruct (temperature_illegal temperature).
  { exists [prefill_call input_ids start_ids]. simpl. auto. }
  destruct temperature as [|z|t|s].
  1, 2, 4: exists [prefill_call input_ids start_ids]; simpl; auto.
  rewrite bind_lift_world.
  destruct (sample_loop_llama_iter_calls t input_ids out
              (Z.to_nat (sequence_length - width input_ids)) w1)
    as [l [Hl [Hp [HPl _]]]].
  exists (prefill_call input_ids start_ids :: l).
  rewrite Hl, Hc, <- app_assoc. split; [reflexivity|]. right.
  now apply generation_trace_intro.
Qed.

End SamplingLoops.

(** C8. In every generation loop the forward calls are the PREFILL call,
    which submits the whole [L0]-token prompt at positions [0, L0),
    followed by decode calls at the single positions [L0], [L0 + 1], ...,
    each submitting one new token per sequence: all the cache
    positions passed, in order, are [0, 1, ..., L0 + n - 1], none
    revisited.  ([sample_llama] makes no call at all when [top_k] or
    [top_p] is rejected; [sample_tokens] submits the last column of the
    model's output, which is one token when the model emits at least one
    per sequence.) *)
Theorem cache_positions_advance {M M' : Type} (fexp : arith)
  (model : model_fn M score) (model_t : model_fn M' Z)
  (input_ids : matrix Z) (start_ids : option (list Z))
  (sequence_length eos_token_id k : Z) (top_k top_p temperature : pyobj)
  (w : world M) (w_t : world M') :
  (exists tr,
     w_calls (snd (simple_sample fexp model input_ids start_ids
                     sequence_length eos_token_id k w)) = w_calls w ++ tr
     /\ generation_trace one_token input_ids start_ids tr)
  /\ (exists tr,
        w_calls (snd (sample_tokens model_t input_ids start_ids
                        sequence_length w_t)) = w_calls w_t ++ tr
        /\ generation_trace at_most_one_token input_ids start_ids tr
        /\ ((forall ms t ids s, Forall (fun r => r <> [])
                                  (snd (model_t ms t ids s))) ->
            generation_trace one_token input_ids start_ids tr))
  /\ (exists tr,
        w_calls (snd (sample_greedy model input_ids start_ids
                        sequence_length w)) = w_calls w ++ tr
        /\ generation_trace one_token input_ids start_ids tr)
  /\ (exists tr,
        w_calls (snd (sample_llama fexp model input_ids start_ids
                        sequence_length eos_token_id top_k top_p temperature
                        w)) = w_calls w ++ tr
        /\ ((tr = []
             /\ validate_top_k_top_p_min_tokens_to_keep top_k top_p PyNone
                <> Ok tt)
            \/ generation_trace one_token input_ids start_ids tr)).
Proof.
  split; [apply simple_sample_trace|].
  split; [|split; [apply sample_greedy_trace | apply sample_llama_trace]].
  destruct (@sample_tokens_trace M' model_t start_ids at_most_one_token
              input_ids sequence_length w_t) as [tr [Htr Hg]].
  { intros. apply at_most_one_token_last_col. }
  exists tr. split; [exact Htr|]. split; [exact Hg|]. intro Hemit.
  destruct (@sample_tokens_trace M' model_t start_ids one_token
              input_ids sequence_length w_t) as [tr' [Htr' Hg']].
  { intros. apply one_token_last_col, Hemit. }
  rewrite Htr in Htr'. apply app_inv_head in Htr'. now subst tr'.
Qed.

Lemma cache_positions_advance_witness :
  exists tr,
    w_calls (snd (sample_tokens (const_model [[1; 2]; [3; 4]]%Z)
                    [[7; 7]; [8; 8]]%Z None 4 (init_world tt [])))
    = [] ++ tr
    /\ generation_trace one_token [[7; 7]; [8; 8]]%Z None tr.
Proof.
  destruct (@cache_positions_advance unit unit qexp (const_model sc5)
              (const_model [[1; 2]; [3; 4]]%Z) [[7; 7]; [8; 8]]%Z None
              4 2 3 (PyInt 3) (PyFloat 1) (PyFloat 1)
              (init_world tt []) (init_world tt []))
    as [_ [[tr [H1 [_ H2]]] _]].
  exists tr. split; [exact H1|]. apply H2.
  intros ms t ids s. simpl. repeat constructor; discriminate.
Defined.

(** ** Inversion of the rounds *)

Lemma lift_ok_inv {M A} (r : result A) (w w' : world M) (a : A) :
  lift r w = (Ok a, w') -> r = Ok a /\ w' = w.
Proof. unfold lift. intro H. injection H as -> ->. now split. Qed.

Lemma ret_ok_inv {M A} (a b : A) (w w' : world M) :
  ret a w = (Ok b, w') -> b = a /\ w' = w.
Proof. unfold ret. intro H. injection H as -> ->. now split. Qed.

Section RoundInversion.

Context {M : Type}.
Variable fexp : arith.
Variable model : model_fn M score.
Variable start_ids : option (list Z).
Variable sequence_length eos_token_id : Z.

Lemma sample_greedy_round_inv (c : Z) (st st' : greedy_state)
  (w w' : world M) :
  sample_greedy_round model start_ids c st w = (Ok st', w') ->
  exists inputs,
    rmap_list argmax_row (gs_scores st) = Ok inputs
    /\ gs_tokens st' = gs_tokens st ++ [column inputs].
Proof.
  unfold sample_greedy_round. intro H.
  apply bind_ok_inv in H. destruct H as [inputs [w1 [H1 H]]].
  apply lift_ok_inv in H1. destruct H1 as [H1 ->].
  apply bind_ok_inv in H. destruct H as [sc [w2 [_ H]]].
  apply ret_ok_inv in H. destruct H as [-> _]. simpl. eauto.
Qed.

Lemma sample_loop_round_inv (top_k c : Z) (st st' : loop_state)
  (w w' : world M) :
  sample_loop_round fexp model start_ids sequence_length eos_token_id top_k
    c st w = (Ok st', w') ->
  exists scores tk pos inputs w1,
    mask_column eos_token_id (lp_scores st) = Ok scores
    /\ topk scores top_k = Ok tk
    /\ multinomial (map (softmax_row fexp) (fst tk)) w = (Ok pos, w1)
    /\ gather (snd tk) pos = Ok inputs
    /\ lp_tokens st' = lp_tokens st ++ [column inputs]
    /\ lp_stopped st' = (sequence_length <=? c + 1)%Z
    /\ (lp_stopped st' = false ->
        forward model (column inputs) [c] start_ids w1
        = (Ok (lp_scores st'), w')).
Proof.
  unfold sample_loop_round. intro H.
  apply bind_ok_inv in H. destruct H as [scores [w1 [H1 H]]].
  apply lift_ok_inv in H1. destruct H1 as [H1 ->].
  apply bind_ok_inv in H. destruct H as [tk [w1 [H2 H]]].
  apply lift_ok_inv in H2. destruct H2 as [H2 ->].
  apply bind_ok_inv in H. destruct H as [pos [w1 [H3 H]]].
  apply bind_ok_inv in H. destruct H as [inputs [w2 [H4 H]]].
  apply lift_ok_inv in H4. destruct H4 as [H4 ->].
  exists scores, tk, pos, inputs, w1. repeat (split; [assumption|]).
  destruct (sequence_length <=? c + 1)%Z.
  - apply ret_ok_inv in H. destruct H as [-> _]. simpl.
    repeat split; auto. discriminate.
  - apply bind_ok_inv in H. destruct H as [sc [w2 [H5 H]]].
    apply ret_ok_inv in H. destruct H as [-> ->]. simpl.
    repeat split; auto.
Qed.

Variable top_k top_p : pyobj.
Variable temperature : Q.

Lemma sample_loop_llama_round_inv (c : Z) (st st' : llama_state)
  (w w' : world M) :
  sample_loop_llama_round fexp model start_ids sequence_length eos_token_id
    top_k top_p temperature c st w = (Ok st', w') ->
  exists sc w1,
    llama_sample fexp top_k top_p temperature (ls_scores st) w
    = (Ok (sc, ls_inputs st'), w1)
    /\ update_done eos_token_id (ls_done_flags st) (ls_inputs st')
       = Ok (ls_done_flags st')
    /\ exists col,
         where_done eos_token_id (ls_done_flags st') (ls_inputs st') = Ok col
         /\ ls_tokens st' = ls_tokens st ++ [column col]
         /\ ls_stopped st'
            = ((sequence_length <=? c + 1)%Z
               || forallb (fun d => d) (ls_done_flags st'))
         /\ (ls_stopped st' = true -> w' = w1 /\ ls_scores st' = sc)
         /\ (ls_stopped st' = false ->
             forward model (column (ls_inputs st')) [c] start_ids w1
             = (Ok (ls_scores st'), w')).
Proof.
  unfold sample_loop_llama_round. intro H.
  apply bind_ok_inv in H. destruct H as [[sc inputs] [w1 [H1 H]]].
  apply bind_ok_inv in H. destruct H as [done_flags [w2 [H2 H]]].
  apply lift_ok_inv in H2. destruct H2 as [H2 ->].
  apply bind_ok_inv in H. destruct H as [col [w2 [H3 H]]].
  apply lift_ok_inv in H3. destruct H3 as [H3 ->].
  simpl in *.
  destruct ((sequence_length <=? c + 1)%Z || forallb (fun d => d) done_flags)
    eqn:E.
  - apply ret_ok_inv in H. destruct H as [-> ->]. simpl.
    exists sc, w1. split; [exact H1|]. split; [exact H2|].
    exists col. repeat split; auto. discriminate.
  - apply bind_ok_inv in H. destruct H as [sc' [w2 [H5 H]]].
    apply ret_ok_inv in H. destruct H as [-> ->]. simpl.
    exists sc, w1. split; [exact H1|]. split; [exact H2|].
    exists col. repeat split; auto; discriminate.
Qed.

End RoundInversion.

(** ** Concatenation of the token columns *)

Lemma append_cols_prefix {A} (m c a : matrix A) :
  append_cols m c = Ok a ->
  Forall2 (fun r o => exists x, In x c /\ o = r ++ x) m a.
Proof.
  revert c a. induction m as [|r m IH]; intros [|x c] a H; simpl in H;
    try discriminate.
  - injection H as <-. constructor.
  - apply rbind_ok in H. destruct H as [t [Ht H]]. injection H as <-.
    constructor.
    + exists x. split; [now left | reflexivity].
    + eapply Forall2_impl; [|apply IH; exact Ht].
      intros r' o [y [Hy ->]]. exists y. split; [now right | reflexivity].
Qed.

(** Every row of the result is the row of the first tensor followed by
    entries of the later ones. *)
Lemma cat_from_prefix {A} (ms : list (matrix A)) (acc out : matrix A) :
  cat_from acc ms = Ok out ->
  Forall2 (fun r o => exists suf,
             o = r ++ suf
             /\ forall x, In x suf ->
                  exists m row, In m ms /\ In row m /\ In x row)
    acc out.
Proof.
  revert acc out. induction ms as [|m ms IH]; intros acc out H; simpl in H.
  - injection H as <-. induction acc as [|r acc IHa]; constructor; auto.
    exists []. rewrite app_nil_r. split; [reflexivity | intros ? []].
  - apply rbind_ok in H. destruct H as [a [Ha H]].
    apply append_cols_prefix in Ha. apply IH in H. clear IH.
    revert out H. induction Ha as [|r o acc a [x [Hx ->]] Ha IHa];
      intros out H; inversion H as [|? o' ? out' [suf [-> Hsuf]] Hrest];
      subst; constructor.
    + exists (x ++ suf). rewrite app_assoc. split; [reflexivity|].
      intros y Hy. apply in_app_or in Hy. destruct Hy as [Hy|Hy].
      * exists m, x. repeat split; auto. now left.
      * destruct (Hsuf y Hy) as [m' [row [H1 [H2 H3]]]].
        exists m', row. repeat split; auto. now right.
    + now apply IHa.
Qed.

(** With single-column tensors the rows grow by the number of columns. *)
Lemma append_cols_width {A} (m c a : matrix A) :
  Forall (fun r => length r = 1%nat) c ->
  append_cols m c = Ok a ->
  Forall2 (fun r o => length o = S (length r)) m a.
Proof.
  intro Hc. revert m a. induction Hc as [|x c Hx Hc IH]; intros [|r m] a H;
    simpl in H; try discriminate.
  - injection H as <-. constructor.
  - apply rbind_ok in H. destruct H as [t [Ht H]]. injection H as <-.
    constructor; [|now apply IH]. rewrite length_app. lia.
Qed.

Lemma cat_from_width {A} (ms : list (matrix A)) (acc out : matrix A) :
  Forall (Forall (fun r => length r = 1%nat)) ms ->
  cat_from acc ms = Ok out ->
  Forall2 (fun r o => length o = (length r + length ms)%nat) acc out.
Proof.
  intro Hms. revert acc out. induction Hms as [|m ms Hm Hms IH];
    intros acc out H; simpl in H.
  - injection H as <-. induction acc; constructor; auto.
  - apply rbind_ok in H. destruct H as [a [Ha H]].
    apply append_cols_width in Ha; [|exact Hm]. apply IH in H. clear IH.
    revert out H. induction Ha as [|r o acc a Hro Ha IHa];
      intros out H; inversion H as [|? o' ? out' Ho Hrest]; subst;
      constructor.
    + simpl. lia.
    + now apply IHa.
Qed.

(** ** The prompt prefix *)

Lemma cat_extends_prompt (input_ids : matrix Z) (cols : list (matrix Z))
  (out : matrix Z) :
  cat (input_ids :: cols) = Ok out -> Forall2 extends_prompt input_ids out.
Proof.
  simpl. intro H. apply cat_from_prefix in H.
  eapply Forall2_impl; [|exact H]. intros r o [suf [-> _]]. now exists suf.
Qed.

Lemma bind_lift_ok_inv {M A B} (c : Comp M A) (r : A -> result B)
  (w : world M) (b : B) :
  fst (bind c (fun a => lift (r a)) w) = Ok b ->
  exists a w1, c w = (Ok a, w1) /\ r a = Ok b.
Proof.
  unfold bind, lift. destruct (c w) as [[a|e] w1]; simpl; [eauto | discriminate].
Qed.

Lemma sample_tokens_prefix {M} (model : model_fn M Z) (input_ids : matrix Z)
  (start_ids : option (list Z)) (sequence_length : Z) (w : world M)
  (out : matrix Z) :
  fst (sample_tokens model input_ids start_ids sequence_length w) = Ok out ->
  Forall2 extends_prompt input_ids out.
Proof.
  unfold sample_tokens.
  destruct (forward_run model input_ids (arange (width input_ids)) start_ids w)
    as [sc [w1 [Hf _]]].
  rewrite (@bind_ok_run _ _ _ _ _ _ _ _ Hf). intro H.
  apply bind_lift_ok_inv in H. destruct H as [st [w2 [Hst Hcat]]].
  unfold sample_tokens_iter in Hst.
  apply for_range_inv with (I := fun st => exists cols,
                                 ts_tokens st = input_ids :: cols) in Hst.
  - destruct Hst as [cols Hcols]. rewrite Hcols in Hcat.
    eapply cat_extends_prompt; eassumption.
  - now exists [].
  - intros c s w0 s' w' [cols Hc] Hr.
    apply sample_tokens_round_next in Hr. destruct Hr as [Hr _].
    rewrite Hr, Hc. eexists. reflexivity.
Qed.

Lemma sample_greedy_prefix {M} (model : model_fn M score)
  (input_ids : matrix Z) (start_ids : option (list Z)) (sequence_length : Z)
  (w : world M) (out : matrix Z) :
  fst (sample_greedy model input_ids start_ids sequence_length w) = Ok out ->
  Forall2 extends_prompt input_ids out.
Proof.
  unfold sample_greedy.
  destruct (forward_run model input_ids (arange (width input_ids)) start_ids w)
    as [sc [w1 [Hf _]]].
  rewrite (@bind_ok_run _ _ _ _ _ _ _ _ Hf). intro H.
  apply bind_lift_ok_inv in H. destruct H as [st [w2 [Hst Hcat]]].
  unfold sample_greedy_iter in Hst.
  apply for_range_inv with (I := fun st => exists cols,
                                 gs_tokens st = input_ids :: cols) in Hst.
  - destruct Hst as [cols Hcols]. rewrite Hcols in Hcat.
    eapply cat_extends_prompt; eassumption.
  - now exists [].
  - intros c s w0 s' w' [cols Hc] Hr.
    apply sample_greedy_round_inv in Hr. destruct Hr as [inputs [_ Hr]].
    rewrite Hr, Hc. eexists. reflexivity.
Qed.

Lemma sample_loop_prefix {M} (fexp : arith) (model : model_fn M score)
  (input_ids : matrix Z) (start_ids : option (list Z))
  (scores : matrix score) (sequence_length eos_token_id top_k : Z)
  (w : world M) (out : matrix Z) :
  fst (sample_loop fexp model input_ids start_ids scores sequence_length
         eos_token_id top_k w) = Ok out ->
  Forall2 extends_prompt input_ids out.
Proof.
  unfold sample_loop. intro H.
  apply bind_lift_ok_inv in H. destruct H as [st [w2 [Hst Hcat]]].
  unfold sample_loop_iter in Hst.
  apply for_range_inv with (I := fun st => exists cols,
                                 lp_tokens st = input_ids :: cols) in Hst.
  - destruct Hst as [cols Hcols]. rewrite Hcols in Hcat.
    eapply cat_extends_prompt; eassumption.
  - now exists [].
  - intros c s w0 s' w' [cols Hc] Hr.
    apply sample_loop_round_inv in Hr.
    destruct Hr as [sc [tk [pos [inputs [w1 [_ [_ [_ [_ [Hr _]]]]]]]]]].
    rewrite Hr, Hc. eexists. reflexivity.
Qed.

Lemma sample_loop_llama_iter_head {M} (fexp : arith)
  (model : model_fn M score) (input_ids : matrix Z)
  (start_ids : option (list Z)) (scores : matrix score)
  (sequence_length eos_token_id : Z) (top_k top_p : pyobj) (t : Q) (n : nat)
  (w w' : world M) (st : llama_state) :
  sample_loop_llama_iter fexp model start_ids sequence_length eos_token_id
    top_k top_p t (width input_ids) (llama_init input_ids scores) n w
  = (Ok st, w') ->
  exists cols, ls_tokens st = input_ids :: cols
               /\ Forall one_token cols /\ (length cols <= n)%nat.
Proof.
  unfold sample_loop_llama_iter. revert w w' st.
  induction n as [|n IH]; intros w w' st H.
  - simpl in H. apply ret_ok_inv in H. destruct H as [-> _].
    exists []. simpl. repeat split; auto.
  - apply for_range_S in H. destruct H as [st1 [w1 [H1 H2]]].
    destruct (IH _ _ _ H1) as [cols [Hc [Ho Hl]]].
    destruct H2 as [[_ [-> _]]|[_ H2]].
    + exists cols. repeat split; auto.
    + apply sample_loop_llama_round_inv in H2.
      destruct H2 as [sc [w2 [_ [_ [col [_ [Ht _]]]]]]].
      exists (cols ++ [column col]). rewrite Ht, Hc. split; [reflexivity|].
      split.
      * apply Forall_app. split; [exact Ho|].
        constructor; [apply one_token_column | constructor].
      * rewrite length_app. simpl. lia.
Qed.

Lemma sample_loop_llama_prefix {M} (fexp : arith) (model : model_fn M score)
  (input_ids : matrix Z) (start_ids : option (list Z))
  (scores : matrix score) (sequence_length eos_token_id : Z)
  (top_k top_p temperature : pyobj) (w : world M) (out : matrix Z) :
  fst (sample_loop_llama fexp model input_ids start_ids scores sequence_length
         eos_token_id top_k top_p temperature w) = Ok out ->
  Forall2 extends_prompt input_ids out.
Proof.
  unfold sample_loop_llama, bind at 1, lift at 1.
  destruct (validate_top_k_top_p_min_tokens_to_keep top_k top_p PyNone);
    [|discriminate].
  destruct (temperature_illegal temperature); [discriminate|].
  destruct temperature as [|z|t|s]; try discriminate. intro H.
  apply bind_lift_ok_inv in H. destruct H as [st [w2 [Hst Hcat]]].
  apply sample_loop_llama_iter_head in Hst. destruct Hst as [cols [Hc _]].
  rewrite Hc in Hcat. eapply cat_extends_prompt; eassumption.
Qed.

(** C10. For every entry point, every row of the returned matrix is the
    prompt row of the same sequence followed by the generated tokens: the
    first [L0] columns are [input_ids], unchanged, and the matrix has the
    batch size of the prompt. *)
Theorem prompt_prefix_preserved {M M' : Type} (fexp : arith)
  (model : model_fn M score) (model_t : model_fn M' Z)
  (input_ids : matrix Z) (start_ids : option (list Z))
  (sequence_length eos_token_id k : Z) (top_k top_p temperature : pyobj)
  (w : world M) (w_t : world M') :
  (forall out,
     fst (simple_sample fexp model input_ids start_ids sequence_length
            eos_token_id k w) = Ok out ->
     Forall2 extends_prompt input_ids out)
  /\ (forall out,
        fst (sample_tokens model_t input_ids start_ids sequence_length w_t)
        = Ok out ->
        Forall2 extends_prompt input_ids out)
  /\ (forall out,
        fst (sample_greedy model input_ids start_ids sequence_length w)
        = Ok out ->
        Forall2 extends_prompt input_ids out)
  /\ (forall out,
        fst (sample_llama fexp model input_ids start_ids sequence_length
               eos_token_id top_k top_p temperature w) = Ok out ->
        Forall2 extends_prompt input_ids out).
Proof.
  split; [|split; [|split]]; intro out.
  - unfold simple_sample.
    destruct (forward_run model input_ids (arange (width input_ids))
                start_ids w) as [sc [w1 [Hf _]]].
    rewrite (@bind_ok_run _ _ _ _ _ _ _ _ Hf). apply sample_loop_prefix.
  - apply sample_tokens_prefix.
  - apply sample_greedy_prefix.
  - unfold sample_llama, bind at 1, lift at 1.
    destruct (validate_top_k_top_p_min_tokens_to_keep top_k top_p PyNone);
      [|discriminate].
    destruct (forward_run model input_ids (arange (width input_ids))
                start_ids w) as [sc [w1 [Hf _]]].
    rewrite (@bind_ok_run _ _ _ _ _ _ _ _ Hf).
    apply sample_loop_llama_prefix.
Qed.

Lemma prompt_prefix_preserved_witness :
  Forall2 extends_prompt [[7; 7]]%Z [[7; 7; 3; 1; 4]]%Z
  /\ Forall2 extends_prompt [[7; 7]]%Z [[7; 7; 2; 2]]%Z
  /\ Forall2 extends_prompt [[7; 7]]%Z [[7; 7; 3; 3]]%Z
  /\ Forall2 extends_prompt [[7; 7]]%Z [[7; 7; 3; 1]]%Z.
Proof.
  destruct (@prompt_prefix_preserved unit unit qexp (const_model sc5)
              (const_model [[1; 2]]%Z) [[7; 7]]%Z None 5 2 3
              (PyInt 3) (PyFloat 1) (PyFloat 1)
              (init_world tt [0; 1; 2; 3]%nat) (init_world tt []))
    as [H1 _].
  destruct (@prompt_prefix_preserved unit unit qexp (const_model sc5)
              (const_model [[1; 2]]%Z) [[7; 7]]%Z None 4 3 3
              (PyInt 3) (PyFloat 1) (PyFloat 1)
              (init_world tt [0; 1; 2; 3]%nat) (init_world tt []))
    as [_ [H2 [H3 _]]].
  destruct (@prompt_prefix_preserved unit unit qexp (const_model sc5)
              (const_model [[1; 2]]%Z) [[7; 7]]%Z None 6 1 3
              (PyInt 3) (PyFloat 1) (PyFloat 1)
              (init_world tt [0; 1; 2; 3]%nat) (init_world tt []))
    as [_ [_ [_ H4]]].
  split; [apply H1; vm_compute; reflexivity|].
  split; [apply H2; vm_compute; reflexivity|].
  split; [apply H3; vm_compute; reflexivity|].
  apply H4; vm_compute; reflexivity.
Defined.

(** ** Validation in sample_llama *)

(** C3 (as amended).  A call to [sample_llama] with an illegal temperature
    always fails with [ValueError] (the specification's
    [InvalidParameter]) and samples no token.  [top_k] and [top_p] are
    validated before any model invocation: if they are rejected no
    forward call is made.  The temperature is checked by
    [sample_loop_llama], which receives the scores of the prompt: when
    [top_k] and [top_p] are legal the failure comes after the single
    PREFILL forward call and before any decode round (no decode call is
    made). *)
Theorem illegal_temperature_fails_before_decoding {M : Type} (fexp : arith)
  (model : model_fn M score) (input_ids : matrix Z)
  (start_ids : option (list Z)) (sequence_length eos_token_id : Z)
  (top_k top_p temperature : pyobj) (w : world M) :
  ~ legal_temperature temperature ->
  fst (sample_llama fexp model input_ids start_ids sequence_length
         eos_token_id top_k top_p temperature w) = Raise ValueError
  /\ w_rng (snd (sample_llama fexp model input_ids start_ids sequence_length
                   eos_token_id top_k top_p temperature w)) = w_rng w
  /\ (validate_top_k_top_p_min_tokens_to_keep top_k top_p PyNone <> Ok tt ->
      w_calls (snd (sample_llama fexp model input_ids start_ids
                      sequence_length eos_token_id top_k top_p temperature w))
      = w_calls w)
  /\ (validate_top_k_top_p_min_tokens_to_keep top_k top_p PyNone = Ok tt ->
      w_calls (snd (sample_llama fexp model input_ids start_ids
                      sequence_length eos_token_id top_k top_p temperature w))
      = w_calls w ++ [prefill_call input_ids start_ids]).
Proof.
  intro Hill.
  assert (Ht : temperature_illegal temperature = true).
  { destruct (temperature_illegal temperature) eqn:E; [reflexivity|].
    apply temperature_illegal_spec in E. contradiction. }
  assert (Hrun : exists w',
             sample_llama fexp model input_ids start_ids sequence_length
               eos_token_id top_k top_p temperature w = (Raise ValueError, w')
             /\ w_rng w' = w_rng w
             /\ (validate_top_k_top_p_min_tokens_to_keep top_k top_p PyNone
                 <> Ok tt -> w_calls w' = w_calls w)
             /\ (validate_top_k_top_p_min_tokens_to_keep top_k top_p PyNone
                 = Ok tt ->
                 w_calls w' = w_calls w ++ [prefill_call input_ids start_ids])).
  { unfold sample_llama, bind at 1, lift at 1.
    destruct (validate_total top_k top_p PyNone) as [Hv|Hv]; rewrite Hv.
    2:{ exists w. repeat split; auto. discriminate. }
    destruct (forward_run model input_ids (arange (width input_ids))
                start_ids w) as [out [w1 [Hf [_ [Hc Hr]]]]].
    rewrite (@bind_ok_run _ _ _ _ _ _ _ _ Hf).
    unfold sample_loop_llama, bind, lift. rewrite Hv, Ht.
    exists w1. split; [reflexivity|]. split; [exact Hr|]. split.
    - intro H. now contradiction H.
    - intros _. exact Hc. }
  destruct Hrun as [w' [E H]]. rewrite E. simpl. split; [reflexivity | exact H].
Qed.

Lemma illegal_temperature_fails_before_decoding_witness :
  fst (sample_llama qexp (const_model sc5) [[7; 7]]%Z None 5 2
         (PyInt 0) (PyFloat 1) (PyFloat 0) (init_world tt [4; 4]%nat))
  = Raise ValueError
  /\ w_calls (snd (sample_llama qexp (const_model sc5) [[7; 7]]%Z None 5 2
                     (PyInt 0) (PyFloat 1) (PyFloat 0)
                     (init_world tt [4; 4]%nat))) = [].
Proof.
  destruct (@illegal_temperature_fails_before_decoding unit qexp
              (const_model sc5) [[7; 7]]%Z None 5 2
              (PyInt 0) (PyFloat 1) (PyFloat 0) (init_world tt [4; 4]%nat))
    as [H1 [_ [H2 _]]].
  - intros [t [H Ht]]. injection H as <-. discriminate Ht.
  - split; [exact H1|]. apply H2. discriminate.
Defined.

(** C3, as stated, fails: with legal [top_k] and [top_p] and temperature
    0.0 the call raises [ValueError] only after the model has been invoked
    on the prompt. *)
Lemma temperature_checked_after_prefill :
  fst (sample_llama qexp (const_model sc5) [[7; 7]]%Z None 5 2
         (PyInt 3) (PyFloat 1) (PyFloat 0) (init_world tt []))
  = Raise ValueError
  /\ w_calls (snd (sample_llama qexp (const_model sc5) [[7; 7]]%Z None 5 2
                     (PyInt 3) (PyFloat 1) (PyFloat 0) (init_world tt [])))
     = [prefill_call [[7; 7]]%Z None]
  /\ w_calls (snd (sample_llama qexp (const_model sc5) [[7; 7]]%Z None 5 2
                     (PyInt 3) (PyFloat 1) (PyFloat 0) (init_world tt [])))
     <> [].
Proof.
  split; [vm_compute; reflexivity|].
  split; [vm_compute; reflexivity | vm_compute; discriminate].
Qed.

(** ** The token fed back by sample_loop_llama *)

(** C9. After a round of [sample_loop_llama] that continues (round
    [n + 1], the loop not yet stopped), the forward call made by that
    round, at position [start + n], submits the raw draw [inputs] of the
    round, the very value returned by the sampling step, and the next
    scores are the model's answer to it; the column appended to the
    output is [where(done_flags, eos_token_id, inputs)] instead. *)
Theorem llama_feeds_back_raw_sample {M : Type} (fexp : arith)
  (model : model_fn M score) (input_ids : matrix Z)
  (start_ids : option (list Z)) (scores : matrix score)
  (sequence_length eos_token_id : Z) (top_k top_p : pyobj) (t : Q)
  (n : nat) (w w' : world M) (st : llama_state) :
  sample_loop_llama_iter fexp model start_ids sequence_length eos_token_id
    top_k top_p t (width input_ids) (llama_init input_ids scores) (S n) w
  = (Ok st, w') ->
  ls_stopped st = false ->
  exists st0 w0 sc w1 col,
    sample_loop_llama_iter fexp model start_ids sequence_length eos_token_id
      top_k top_p t (width input_ids) (llama_init input_ids scores) n w
    = (Ok st0, w0)
    /\ llama_sample fexp top_k top_p t (ls_scores st0) w0
       = (Ok (sc, ls_inputs st), w1)
    /\ update_done eos_token_id (ls_done_flags st0) (ls_inputs st)
       = Ok (ls_done_flags st)
    /\ where_done eos_token_id (ls_done_flags st) (ls_inputs st) = Ok col
    /\ ls_tokens st = ls_tokens st0 ++ [column col]
    /\ w_calls w'
       = w_calls w1 ++
           [{| fc_tokens := column (ls_inputs st);
               fc_cache_ids := [(width input_ids + Z.of_nat n)%Z];
               fc_start_ids := start_ids |}]
    /\ ls_scores st
       = snd (model (w_model w1) (column (ls_inputs st))
                [(width input_ids + Z.of_nat n)%Z] start_ids).
Proof.
  unfold sample_loop_llama_iter. intros H Hns.
  apply for_range_S in H. destruct H as [st0 [w0 [H0 H]]].
  destruct H as [[Hs [-> _]]|[_ H]]; [congruence|].
  apply sample_loop_llama_round_inv in H.
  destruct H as [sc [w1 [Hsample [Hdone [col [Hcol [Htok [_ [_ Hfwd]]]]]]]]].
  specialize (Hfwd Hns).
  destruct (forward_run model (column (ls_inputs st))
              [(width input_ids + Z.of_nat n)%Z] start_ids w1)
    as [out [w2 [Hf [Ho [Hc _]]]]].
  rewrite Hf in Hfwd. injection Hfwd as <- <-.
  exists st0, w0, sc, w1, col. repeat split; auto.
Qed.

Lemma llama_feeds_back_raw_sample_witness :
  exists st w' col calls,
    sample_loop_llama_iter qexp (const_model (sc5 ++ sc5)) None 6 1
      (PyInt 3) (PyFloat 1) 1 (width [[7; 7]; [8; 8]]%Z)
      (llama_init [[7; 7]; [8; 8]]%Z (sc5 ++ sc5)) 2
      (init_world tt [1; 0; 2; 0]%nat) = (Ok st, w')
    /\ ls_done_flags st = [true; false]
    /\ ls_inputs st = [4; 3]%Z
    /\ where_done 1 (ls_done_flags st) (ls_inputs st) = Ok col
    /\ col = [1; 3]%Z
    /\ w_calls w'
       = calls ++ [{| fc_tokens := [[4]; [3]]%Z; fc_cache_ids := [3%Z];
                      fc_start_ids := None |}].
Proof.
  destruct (sample_loop_llama_iter qexp (const_model (sc5 ++ sc5)) None 6 1
              (PyInt 3) (PyFloat 1) 1 (width [[7; 7]; [8; 8]]%Z)
              (llama_init [[7; 7]; [8; 8]]%Z (sc5 ++ sc5)) 2
              (init_world tt [1; 0; 2; 0]%nat)) as [[st|e] w'] eqn:E.
  - pose proof E as E'. vm_compute in E'. injection E' as Hst Hw.
    assert (Hns : ls_stopped st = false) by (now rewrite <- Hst).
    destruct (@llama_feeds_back_raw_sample _ _ _ _ _ _ _ _ _ _ _ _ _ _ _
                E Hns)
      as [st0 [w0 [sc [w1 [col [_ [_ [_ [Hcol [_ [Hcalls _]]]]]]]]]]].
    exists st, w', col, (w_calls w1).
    split; [reflexivity|]. split; [now rewrite <- Hst|].
    split; [now rewrite <- Hst|]. split; [exact Hcol|]. split.
    + rewrite <- Hst in Hcol. vm_compute in Hcol. now injection Hcol as <-.
    + rewrite Hcalls. now rewrite <- Hst.
  - vm_compute in E. discriminate E.
Defined.

(** ** Batch size through the filtering engine *)

Lemma topk_rows (scores : matrix score) (k : Z) (v : matrix score)
  (i : matrix Z) :
  topk scores k = Ok (v, i) ->
  length v = length scores /\ length i = length scores.
Proof.
  unfold topk. intro H. apply rbind_ok in H. destruct H as [rs [Hrs H]].
  apply rmap_list_ok, Forall2_length in Hrs.
  injection H as H. rewrite (surjective_pairing (List.split rs)) in H.
  injection H as <- <-. rewrite split_fst, split_snd, !length_map. auto.
Qed.

Lemma index_select_rows {A} (m : matrix A) (idx : list Z) (out : matrix A) :
  index_select m idx = Ok out -> length out = length m.
Proof.
  intro H. apply index_select_incl, Forall2_length in H. auto.
Qed.

Lemma filter_by_top_p_rows (fexp : arith) (scores : matrix score) (m : Z)
  (p : Q) (indices : option (matrix Z)) (cs : matrix score) (ci : matrix Z) :
  filter_by_top_p fexp scores m p indices = Ok (cs, ci) ->
  (forall idx, indices = Some idx -> length idx = length scores) ->
  length ci = length scores.
Proof.
  unfold filter_by_top_p. intros H Hidx.
  apply rbind_ok in H. destruct H as [stf [Hstf H]].
  apply rbind_ok in H. destruct H as [w [_ H]].
  apply rbind_ok in H. destruct H as [ci' [Hci H]].
  injection H as _ <-.
  destruct indices as [idx|].
  - apply rbind_ok in Hci. destruct Hci as [j0 [_ Hci]].
    apply index_select_rows in Hci. rewrite Hci. now apply Hidx.
  - injection Hstf as <-. injection Hci as <-. now rewrite !length_map.
Qed.

Lemma top_k_top_p_filtering_rows (fexp : arith) (scores : matrix score)
  (top_k top_p m : pyobj) (v : matrix score) (i : matrix Z) :
  top_k_top_p_filtering fexp scores top_k top_p m = Ok (v, i) ->
  length i = length scores.
Proof.
  unfold top_k_top_p_filtering. intro H.
  apply rbind_ok in H. destruct H as [[] [_ H]].
  assert (Hid : forall v i, Ok (input_value_and_indices scores) = Ok (v, i) ->
                            length i = length scores).
  { unfold input_value_and_indices. intros v' i' E. injection E as _ <-.
    now rewrite length_map. }
  destruct top_k as [|k|q|s], top_p as [|z|p|s'], m as [|mz|mq|ms];
    try discriminate; try (now apply Hid in H);
    destruct (width scores <? mz)%Z; try discriminate;
    try (now apply Hid in H).
  - eapply filter_by_top_p_rows; [exact H | discriminate].
  - unfold filter_by_top_k in H. now apply topk_rows in H.
  - apply rbind_ok in H. destruct H as [[kv ki] [Hk H]].
    unfold filter_by_top_k in Hk. apply topk_rows in Hk.
    eapply filter_by_top_p_rows; [exact H|].
    intros idx E. injection E as <-. simpl. tauto.
Qed.

Lemma multinomial_length {M} (probs : list (option (list Q)))
  (w w' : world M) (pos : list Z) :
  multinomial probs w = (Ok pos, w') -> length pos = length probs.
Proof.
  revert w w' pos. induction probs as [|p probs IH]; intros w w' pos H;
    simpl in H.
  - apply ret_ok_inv in H. now destruct H as [-> _].
  - apply bind_ok_inv in H. destruct H as [u [w1 [_ H]]].
    apply bind_ok_inv in H. destruct H as [x [w2 [_ H]]].
    apply bind_ok_inv in H. destruct H as [xs [w3 [Hxs H]]].
    apply ret_ok_inv in H. destruct H as [-> _]. simpl.
    f_equal. eapply IH; eassumption.
Qed.

Lemma gather_length {A} (m : matrix A) (pos : list Z) (out : list A) :
  gather m pos = Ok out -> length out = length m.
Proof.
  revert pos out. induction m as [|row m IH]; intros [|p pos] out H;
    simpl in H; try discriminate.
  - now injection H as <-.
  - apply rbind_ok in H. destruct H as [x [_ H]].
    apply rbind_ok in H. destruct H as [xs [Hxs H]].
    injection H as <-. simpl. f_equal. eapply IH; eassumption.
Qed.

Lemma div_scores_length (t : Q) (scores : matrix score) :
  length (div_scores t scores) = length scores.
Proof. unfold div_scores. apply length_map. Qed.

Lemma llama_sample_rows {M} (fexp : arith) (top_k top_p : pyobj) (t : Q)
  (scores sc : matrix score) (inputs : list Z) (w w' : world M) :
  llama_sample fexp top_k top_p t scores w = (Ok (sc, inputs), w') ->
  length inputs = length scores /\ length sc = length scores.
Proof.
  unfold llama_sample. intro H.
  apply bind_ok_inv in H. destruct H as [[v i] [w1 [Hf H]]].
  apply lift_ok_inv in Hf. destruct Hf as [Hf ->].
  apply bind_ok_inv in H. destruct H as [pos [w1 [_ H]]].
  apply bind_ok_inv in H. destruct H as [inp [w2 [Hg H]]].
  apply lift_ok_inv in Hg. destruct Hg as [Hg ->].
  apply ret_ok_inv in H. destruct H as [H _]. injection H as -> ->.
  apply gather_length in Hg. apply top_k_top_p_filtering_rows in Hf.
  simpl in Hg. rewrite Hg, Hf.
  destruct (negb (Qeq_bool t 1)); rewrite ?div_scores_length; auto.
Qed.

(** ** Done flags *)

Lemma map2_length {A B C} (f : A -> B -> C) (xs : list A) (ys : list B) :
  length xs = length ys -> length (map2 f xs ys) = length xs.
Proof.
  revert ys. induction xs as [|x xs IH]; intros [|y ys] H; simpl in *;
    try discriminate; [reflexivity|]. f_equal. apply IH. lia.
Qed.

Lemma map2_nth_error {A B C} (f : A -> B -> C) (xs : list A) (ys : list B)
  (i : nat) (x : A) (y : B) :
  nth_error xs i = Some x -> nth_error ys i = Some y ->
  nth_error (map2 f xs ys) i = Some (f x y).
Proof.
  revert ys i. induction xs as [|a xs IH]; intros [|b ys] [|i] Hx Hy;
    simpl in *; try discriminate.
  - injection Hx as <-. now injection Hy as <-.
  - now apply IH.
Qed.

Lemma broadcast2_same {A B C} (f : A -> B -> C) (xs : list A) (ys : list B) :
  length xs = length ys -> broadcast2 f xs ys = Ok (map2 f xs ys).
Proof.
  intro H. unfold broadcast2.
  now replace (length xs =? length ys)%nat with true
    by (symmetry; apply Nat.eqb_eq; exact H).
Qed.

Lemma nth_error_exists {A} (l : list A) (i : nat) :
  (i < length l)%nat -> exists x, nth_error l i = Some x.
Proof.
  intro H. destruct (nth_error l i) eqn:E; [eauto|].
  apply nth_error_None in E. lia.
Qed.

(** With flags and draws of the same batch size: a flag that is set
    stays set, and the token appended for a sequence whose flag is set is
    [eos_token_id]. *)
Lemma update_where_same (eos : Z) (flags flags' : list bool)
  (inputs col : list Z) :
  length flags = length inputs ->
  update_done eos flags inputs = Ok flags' ->
  where_done eos flags' inputs = Ok col ->
  length flags' = length inputs
  /\ length col = length inputs
  /\ (forall i, nth_error flags i = Some true ->
                nth_error flags' i = Some true)
  /\ (forall i, nth_error flags' i = Some true ->
                nth_error col i = Some eos).
Proof.
  intros Hlen Hu Hw. unfold update_done in Hu.
  rewrite broadcast2_same in Hu by (now rewrite length_map).
  injection Hu as <-.
  assert (Hl' : length (map2 orb flags
                          (map (fun x => (x =? eos)%Z) inputs))
                = length inputs).
  { rewrite map2_length; [exact Hlen | now rewrite length_map]. }
  unfold where_done in Hw. rewrite broadcast2_same in Hw by exact Hl'.
  injection Hw as <-.
  split; [exact Hl'|]. split; [rewrite map2_length; auto|]. split.
  - intros i Hi.
    assert (Hlt : (i < length inputs)%nat).
    { rewrite <- Hlen. apply nth_error_Some. congruence. }
    destruct (@nth_error_exists _ (map (fun x => (x =? eos)%Z) inputs) i)
      as [e He]; [now rewrite length_map|].
    now rewrite (map2_nth_error orb _ _ _ Hi He).
  - intros i Hi.
    assert (Hlt : (i < length inputs)%nat).
    { rewrite <- Hl'. apply nth_error_Some. congruence. }
    destruct (@nth_error_exists _ inputs i Hlt) as [x Hx].
    now rewrite (map2_nth_error _ _ _ _ Hi Hx).
Qed.

Section DoneFlags.

Context {M : Type}.
Variable fexp : arith.
Variable model : model_fn M score.
Variable start_ids : option (list Z).
Variable sequence_length eos_token_id : Z.
Variable top_k top_p : pyobj.
Variable temperature : Q.
Variable B : nat.

Hypothesis model_rows : one_row_per_sequence model.

(** What one round does to a state of batch size [B]. *)
Lemma sample_loop_llama_round_flags (c : Z) (st st' : llama_state)
  (w w' : world M) :
  batch_shaped B st ->
  sample_loop_llama_round fexp model start_ids sequence_length eos_token_id
    top_k top_p temperature c st w = (Ok st', w') ->
  batch_shaped B st'
  /\ (forall i, done_at st i -> done_at st' i)
  /\ exists col,
       ls_tokens st' = ls_tokens st ++ [column col]
       /\ length col = B
       /\ forall i, done_at st' i -> nth_error col i = Some eos_token_id.
Proof.
  intros [HB1 HB2] H. apply sample_loop_llama_round_inv in H.
  destruct H as [sc [w1 [Hs [Hu [col [Hw [Ht [Hstop [Hkeep Hfwd]]]]]]]]].
  apply llama_sample_rows in Hs. destruct Hs as [Hi Hsc].
  rewrite HB2 in Hi, Hsc.
  destruct (@update_where_same eos_token_id (ls_done_flags st)
              (ls_done_flags st') (ls_inputs st') col)
    as [Hf' [Hcol [Hmono Heos]]]; auto; [congruence|].
  split; [|split].
  - split; [congruence|].
    destruct (ls_stopped st') eqn:Es.
    + destruct (Hkeep eq_refl) as [_ ->]. exact Hsc.
    + specialize (Hfwd eq_refl).
      destruct (forward_run model (column (ls_inputs st'))
                  [c] start_ids w1) as [out [w2 [Hf [Ho _]]]].
      rewrite Hf in Hfwd. injection Hfwd as <- _. rewrite Ho, model_rows.
      unfold column. now rewrite length_map.
  - exact Hmono.
  - exists col. split; [exact Ht|]. split; [congruence | exact Heos].
Qed.

End DoneFlags.

Lemma column_nth_error {A} (l : list A) (i : nat) (x : A) :
  nth_error l i = Some x -> nth_error (column l) i = Some [x].
Proof. intro H. unfold column. now rewrite nth_error_map, H. Qed.

Lemma pads_after_refl (eos : Z) (st : llama_state) : pads_after eos st st.
Proof.
  exists []. rewrite app_nil_r. split; [reflexivity|]. intros i Hi.
  split; [exact Hi | constructor].
Qed.

Lemma pads_after_trans (eos : Z) (a b c : llama_state) :
  pads_after eos a b -> pads_after eos b c -> pads_after eos a c.
Proof.
  intros [cols1 [H1 P1]] [cols2 [H2 P2]]. exists (cols1 ++ cols2).
  split; [now rewrite H2, H1, app_assoc|]. intros i Hi.
  destruct (P1 i Hi) as [Hb F1]. destruct (P2 i Hb) as [Hc F2].
  split; [exact Hc | now apply Forall_app].
Qed.

(** C4. In [sample_loop_llama], for a model that returns one row of
    scores per sequence: if the done flag of sequence [i] is set after [k]
    rounds, it is set after any later number of rounds, and every token
    appended for sequence [i] from the round that produced that state on
    (list index [t] of the token columns with [t + 1 >= ] the number of
    tensors collected after [k] rounds) is [eos_token_id]. *)
Theorem done_flags_monotone_and_eos_padding {M : Type} (fexp : arith)
  (model : model_fn M score) (input_ids : matrix Z)
  (start_ids : option (list Z)) (scores : matrix score)
  (sequence_length eos_token_id : Z) (top_k top_p : pyobj) (t : Q)
  (k d : nat) (w w_k w_n : world M) (st_k st_n : llama_state) (i : nat) :
  one_row_per_sequence model ->
  length scores = length input_ids ->
  sample_loop_llama_iter fexp model start_ids sequence_length eos_token_id
    top_k top_p t (width input_ids) (llama_init input_ids scores) k w
  = (Ok st_k, w_k) ->
  sample_loop_llama_iter fexp model start_ids sequence_length eos_token_id
    top_k top_p t (width input_ids) (llama_init input_ids scores) (k + d) w
  = (Ok st_n, w_n) ->
  done_at st_k i ->
  done_at st_n i
  /\ forall j c,
       (length (ls_tokens st_k) <= S j)%nat ->
       nth_error (ls_tokens st_n) j = Some c ->
       nth_error c i = Some [eos_token_id].
Proof.
  intros Hmodel Hlen Hk Hn Hi. unfold sample_loop_llama_iter in *.
  set (Inv := fun st => batch_shaped (length input_ids) st
                        /\ padded_last eos_token_id st).
  assert (Inv0 : Inv (llama_init input_ids scores)).
  { split.
    - split; simpl; [apply length_map | exact Hlen].
    - intros j Hj. unfold done_at in Hj. simpl in Hj.
      rewrite nth_error_map in Hj.
      destruct (nth_error input_ids j); discriminate. }
  assert (Hstep : forall c st w0 st' w',
             Inv st ->
             sample_loop_llama_round fexp model start_ids sequence_length
               eos_token_id top_k top_p t c st w0 = (Ok st', w') ->
             Inv st' /\ pads_after eos_token_id st st').
  { intros c st w0 st' w' [HB _] Hr.
    destruct (@sample_loop_llama_round_flags M fexp model start_ids
                sequence_length eos_token_id top_k top_p t
                (length input_ids) Hmodel c st st' w0 w' HB Hr)
      as [HB' [Hmono [col [Htok [_ Heos]]]]].
    split; [split; [exact HB'|]|].
    - intros j Hj. exists (ls_tokens st), col. split; [exact Htok|].
      now apply Heos.
    - exists [column col]. split; [exact Htok|]. intros j Hj.
      split; [now apply Hmono|]. constructor; [|constructor].
      apply column_nth_error, Heos, Hmono, Hj. }
  assert (HRel : pads_after eos_token_id st_k st_n).
  { eapply for_range_rel with (I := Inv) (R := pads_after eos_token_id);
      [exact Inv0 | | apply pads_after_refl | apply pads_after_trans | |
       exact Hk | exact Hn].
    - intros c st w0 st' w' HI Hr. now destruct (Hstep _ _ _ _ _ HI Hr).
    - intros c st w0 st' w' HI Hr. now destruct (Hstep _ _ _ _ _ HI Hr). }
  assert (HIk : Inv st_k).
  { eapply for_range_inv with (I := Inv); [exact Inv0 | | exact Hk].
    intros c st w0 st' w' HI Hr. now destruct (Hstep _ _ _ _ _ HI Hr). }
  destruct HRel as [cols [Htok Hpad]]. destruct (Hpad i Hi) as [Hdone Hcols].
  split; [exact Hdone|]. intros j c Hj Hc.
  destruct HIk as [_ Hlast]. destruct (Hlast i Hi) as [prev [col [Hp Hcol]]].
  rewrite Htok in Hc.
  destruct (Nat.lt_ge_cases j (length (ls_tokens st_k))) as [Hlt|Hge].
  - rewrite nth_error_app1 in Hc by exact Hlt.
    rewrite Hp in Hc, Hj, Hlt. rewrite length_app in Hj, Hlt. simpl in Hj, Hlt.
    rewrite nth_error_app2 in Hc by lia.
    replace (j - length prev)%nat with 0%nat in Hc by lia.
    simpl in Hc. injection Hc as <-. now apply column_nth_error.
  - rewrite nth_error_app2 in Hc by exact Hge.
    apply nth_error_In in Hc. rewrite Forall_forall in Hcols.
    now apply Hcols.
Qed.

Lemma uniform_model_rows (row : list score) :
  one_row_per_sequence (uniform_model row).
Proof. intros ms tokens ids sid. simpl. apply length_map. Qed.

Lemma done_flags_monotone_and_eos_padding_witness :
  exists st_k w_k st_n w_n,
    sample_loop_llama_iter qexp
      (uniform_model [fin 1; fin 5; fin 2; fin 8; fin 3]) None 6 1
      (PyInt 3) (PyFloat 1) 1 (width [[7; 7]; [8; 8]]%Z)
      (llama_init [[7; 7]; [8; 8]]%Z (sc5 ++ sc5)) 1
      (init_world tt [1; 0; 2; 0]%nat) = (Ok st_k, w_k)
    /\ sample_loop_llama_iter qexp
         (uniform_model [fin 1; fin 5; fin 2; fin 8; fin 3]) None 6 1
         (PyInt 3) (PyFloat 1) 1 (width [[7; 7]; [8; 8]]%Z)
         (llama_init [[7; 7]; [8; 8]]%Z (sc5 ++ sc5)) (1 + 1)
         (init_world tt [1; 0; 2; 0]%nat) = (Ok st_n, w_n)
    /\ ls_inputs st_n = [4; 3]%Z
    /\ done_at st_n 0
    /\ forall j c,
         (length (ls_tokens st_k) <= S j)%nat ->
         nth_error (ls_tokens st_n) j = Some c ->
         nth_error c 0 = Some [1%Z].
Proof.
  destruct (sample_loop_llama_iter qexp
              (uniform_model [fin 1; fin 5; fin 2; fin 8; fin 3]) None 6 1
              (PyInt 3) (PyFloat 1) 1 (width [[7; 7]; [8; 8]]%Z)
              (llama_init [[7; 7]; [8; 8]]%Z (sc5 ++ sc5)) 1
              (init_world tt [1; 0; 2; 0]%nat)) as [[st_k|e] w_k] eqn:Ek;
    [|vm_compute in Ek; discriminate Ek].
  destruct (sample_loop_llama_iter qexp
              (uniform_model [fin 1; fin 5; fin 2; fin 8; fin 3]) None 6 1
              (PyInt 3) (PyFloat 1) 1 (width [[7; 7]; [8; 8]]%Z)
              (llama_init [[7; 7]; [8; 8]]%Z (sc5 ++ sc5)) (1 + 1)
              (init_world tt [1; 0; 2; 0]%nat)) as [[st_n|e] w_n] eqn:En;
    [|vm_compute in En; discriminate En].
  pose proof Ek as Ek'. vm_compute in Ek'. injection Ek' as Hk _.
  pose proof En as En'. vm_compute in En'. injection En' as Hn _.
  assert (Hdone : done_at st_k 0) by (now rewrite <- Hk).
  destruct (@done_flags_monotone_and_eos_padding unit qexp
              (uniform_model [fin 1; fin 5; fin 2; fin 8; fin 3])
              [[7; 7]; [8; 8]]%Z None (sc5 ++ sc5) 6 1 (PyInt 3) (PyFloat 1) 1
              1 1 (init_world tt [1; 0; 2; 0]%nat) w_k w_n st_k st_n 0%nat
              (uniform_model_rows _) eq_refl Ek En Hdone) as [H1 H2].
  exists st_k, w_k, st_n, w_n.
  split; [reflexivity|]. split; [reflexivity|].
  split; [now rewrite <- Hn|]. split; [exact H1 | exact H2].
Defined.

(** ** Batch-wide early stop *)

Lemma grown_rows_length (ids out : matrix Z) (n : nat) (L : Z) :
  Forall2 (fun r o => length o = (length r + n)%nat) ids out ->
  Forall (fun r => Z.of_nat (length r) = L) ids ->
  Forall (fun o => Z.of_nat (length o) = (L + Z.of_nat n)%Z) out.
Proof.
  induction 1 as [|r o ids out Hro Hw IH]; intro Hrows; constructor.
  - inversion Hrows as [|? ? Hr _]; subst. rewrite Hro. lia.
  - apply IH. now inversion Hrows.
Qed.

(** C5. In [sample_loop_llama], if after round [k + 1] every done flag is
    set and the sequence has not reached [sequence_length]
    ([start + k + 1 < sequence_length]), then the loop stops at that
    round: the round makes no forward call, no later round runs (the
    state and the world, hence the recorded forward calls, stay as they
    are), the call returns the concatenation of the tokens collected so
    far, and every row of the returned matrix has fewer than
    [sequence_length] entries. *)
Theorem all_done_stops_early {M : Type} (fexp : arith)
  (model : model_fn M score) (input_ids : matrix Z)
  (start_ids : option (list Z)) (scores : matrix score)
  (sequence_length eos_token_id : Z) (top_k top_p : pyobj) (t : Q)
  (k : nat) (w w1 : world M) (st : llama_state) :
  validate_top_k_top_p_min_tokens_to_keep top_k top_p PyNone = Ok tt ->
  0 < t ->
  Forall (fun r => Z.of_nat (length r) = width input_ids) input_ids ->
  sample_loop_llama_iter fexp model start_ids sequence_length eos_token_id
    top_k top_p t (width input_ids) (llama_init input_ids scores) (S k) w
  = (Ok st, w1) ->
  forallb (fun d => d) (ls_done_flags st) = true ->
  (width input_ids + Z.of_nat k + 1 < sequence_length)%Z ->
  ls_stopped st = true
  /\ (exists st0 w0,
        sample_loop_llama_iter fexp model start_ids sequence_length
          eos_token_id top_k top_p t (width input_ids)
          (llama_init input_ids scores) k w = (Ok st0, w0)
        /\ w_calls w1 = w_calls w0)
  /\ (forall n, (S k <= n)%nat ->
        sample_loop_llama_iter fexp model start_ids sequence_length
          eos_token_id top_k top_p t (width input_ids)
          (llama_init input_ids scores) n w = (Ok st, w1))
  /\ sample_loop_llama fexp model input_ids start_ids scores sequence_length
       eos_token_id top_k top_p (PyFloat t) w
     = (cat (ls_tokens st), w1)
  /\ forall out,
       cat (ls_tokens st) = Ok out ->
       length out = length input_ids
       /\ Forall (fun orow => (Z.of_nat (length orow) < sequence_length)%Z)
            out.
Proof.
  intros Hv Ht Hrows Hrun Hall Hlt.
  assert (Hstop : ls_stopped st = true
                  /\ exists st0 w0,
                       sample_loop_llama_iter fexp model start_ids
                         sequence_length eos_token_id top_k top_p t
                         (width input_ids) (llama_init input_ids scores) k w
                       = (Ok st0, w0)
                       /\ w_calls w1 = w_calls w0).
  { unfold sample_loop_llama_iter in *. pose proof Hrun as H.
    apply for_range_S in H. destruct H as [st0 [w0 [H0 H]]].
    destruct H as [[Hs [-> ->]]|[_ H]].
    - split; [exact Hs|]. exists st0, w0. auto.
    - apply sample_loop_llama_round_inv in H.
      destruct H as [sc [w2 [Hs [_ [col [_ [_ [Hstop [Hkeep _]]]]]]]]].
      assert (E : ls_stopped st = true).
      { rewrite Hstop, Hall. apply orb_true_r. }
      split; [exact E|]. exists st0, w0. split; [exact H0|].
      destruct (Hkeep E) as [-> _].
      pose proof (silent_llama_sample (M := M) fexp top_k top_p t
                    (ls_scores st0) w0) as Hsil.
      rewrite Hs in Hsil. simpl in Hsil. now destruct Hsil. }
  destruct Hstop as [Hstop Hprev].
  assert (Hlater : forall n, (S k <= n)%nat ->
            sample_loop_llama_iter fexp model start_ids sequence_length
              eos_token_id top_k top_p t (width input_ids)
              (llama_init input_ids scores) n w = (Ok st, w1)).
  { intros n Hn. replace n with (S k + (n - S k))%nat by lia.
    unfold sample_loop_llama_iter in *.
    now apply for_range_stopped. }
  split; [exact Hstop|]. split; [exact Hprev|]. split; [exact Hlater|]. split.
  - unfold sample_loop_llama, bind at 1, lift at 1. rewrite Hv.
    unfold temperature_illegal.
    replace (Qle_bool t 0) with false
      by (symmetry; apply Qle_bool_false; exact Ht).
    cbv zeta. unfold bind, lift. rewrite Hlater; [reflexivity|].
    pose proof (width_nonneg input_ids). lia.
  - intros out Hout.
    pose proof Hrun as Hh. apply sample_loop_llama_iter_head in Hh.
    destruct Hh as [cols [Hc [Hone Hlen]]].
    rewrite Hc in Hout. simpl in Hout.
    pose proof Hout as Hw. apply cat_from_width in Hw; [|exact Hone].
    split; [symmetry; exact (Forall2_length Hw)|].
    eapply Forall_impl; [|eapply grown_rows_length; eassumption].
    intros o Ho. simpl in Ho. lia.
Qed.

Lemma all_done_stops_early_witness :
  exists st w1,
    sample_loop_llama_iter qexp
      (uniform_model [fin 1; fin 5; fin 2; fin 8; fin 3]) None 6 1
      (PyInt 3) (PyFloat 1) 1 (width [[7; 7]]%Z)
      (llama_init [[7; 7]]%Z sc5) 1 (init_world tt [1]%nat) = (Ok st, w1)
    /\ ls_stopped st = true
    /\ sample_loop_llama qexp
         (uniform_model [fin 1; fin 5; fin 2; fin 8; fin 3]) [[7; 7]]%Z None
         sc5 6 1 (PyInt 3) (PyFloat 1) (PyFloat 1) (init_world tt [1]%nat)
       = (Ok [[7; 7; 1]]%Z, w1)
    /\ w_calls w1 = [].
Proof.
  destruct (sample_loop_llama_iter qexp
              (uniform_model [fin 1; fin 5; fin 2; fin 8; fin 3]) None 6 1
              (PyInt 3) (PyFloat 1) 1 (width [[7; 7]]%Z)
              (llama_init [[7; 7]]%Z sc5) 1 (init_world tt [1]%nat))
    as [[st|e] w1] eqn:E; [|vm_compute in E; discriminate E].
  pose proof E as E'. vm_compute in E'. injection E' as Hst Hw.
  assert (Hall : forallb (fun d => d) (ls_done_flags st) = true)
    by (now rewrite <- Hst).
  assert (Hv : validate_top_k_top_p_min_tokens_to_keep
                 (PyInt 3) (PyFloat 1) PyNone = Ok tt) by reflexivity.
  assert (Ht : 0 < 1) by reflexivity.
  assert (Hrows : Forall (fun r => Z.of_nat (length r) = width [[7; 7]]%Z)
                    [[7; 7]]%Z) by (repeat constructor).
  assert (Hlt : (width [[7; 7]]%Z + Z.of_nat 0 + 1 < 6)%Z) by reflexivity.
  destruct (@all_done_stops_early unit qexp
              (uniform_model [fin 1; fin 5; fin 2; fin 8; fin 3])
              [[7; 7]]%Z None sc5 6 1 (PyInt 3) (PyFloat 1) 1 0
              (init_world tt [1]%nat) w1 st Hv Ht Hrows E Hall Hlt)
    as [H1 [_ [_ [H4 _]]]].
  exists st, w1. split; [reflexivity|]. split; [exact H1|]. split.
  - rewrite H4. now rewrite <- Hst.
  - now rewrite <- Hw.
Defined.

(** ** The legacy loop never draws the masked token *)

Lemma in_combine_seq {A} (l : list A) (s n : nat) (x : A) (j : Z) :
  In (x, j) (combine l (map Z.of_nat (seq s n))) ->
  exists i, j = Z.of_nat (s + i) /\ nth_error l i = Some x.
Proof.
  revert s n. induction l as [|a l IH]; intros s [|n] H; simpl in H;
    try contradiction.
  destruct H as [H|H].
  - injection H as -> <-. exists 0%nat. now rewrite Nat.add_0_r.
  - apply IH in H. destruct H as [i [-> Hi]]. exists (S i).
    split; [f_equal; lia | exact Hi].
Qed.

Lemma in_combine_arange {A} (l : list A) (n : Z) (x : A) (j : Z) :
  In (x, j) (combine l (arange n)) ->
  (0 <= j)%Z /\ nth_error l (Z.to_nat j) = Some x.
Proof.
  unfold arange. intro H. apply in_combine_seq in H.
  destruct H as [i [-> Hi]]. simpl. rewrite Nat2Z.id. split; [lia | exact Hi].
Qed.

(** An entry returned by top-k sits in the row at the returned index. *)
Lemma topk_row_entries (k : Z) (row vals : list score) (idxs : list Z) :
  topk_row k row = Ok (vals, idxs) ->
  length vals = length idxs
  /\ forall j v t,
       nth_error vals j = Some v -> nth_error idxs j = Some t ->
       (0 <= t)%Z /\ nth_error row (Z.to_nat t) = Some v.
Proof.
  unfold topk_row.
  destruct ((k <? 0)%Z || (Z.of_nat (length row) <? k)%Z); [discriminate|].
  intro H. injection H as H.
  set (l := firstn (Z.to_nat k) (sort_desc (enumerate row))) in *.
  rewrite (surjective_pairing (List.split l)) in H.
  injection H as <- <-. rewrite split_fst, split_snd, !length_map.
  split; [reflexivity|]. intros j v t Hv Ht.
  rewrite nth_error_map in Hv, Ht.
  destruct (nth_error l j) as [[v' t']|] eqn:E; [|discriminate].
  simpl in Hv, Ht. injection Hv as <-. injection Ht as <-.
  apply nth_error_In in E. unfold l in E. apply firstn_in in E.
  eapply Permutation_in in E; [|apply sort_desc_perm].
  unfold enumerate in E. now apply in_combine_arange in E.
Qed.

Lemma set_nth_same {A} (n : nat) (x : A) (l : list A) :
  (n < length l)%nat -> nth_error (set_nth n x l) n = Some x.
Proof.
  revert n. induction l as [|a l IH]; intros [|n] H; simpl in *;
    try lia; [reflexivity|]. apply IH. lia.
Qed.

Lemma set_nth_length {A} (n : nat) (x : A) (l : list A) :
  length (set_nth n x l) = length l.
Proof.
  revert n. induction l as [|a l IH]; intros [|n]; simpl; auto.
Qed.

Lemma set_nth_other {A} (n i : nat) (x : A) (l : list A) :
  i <> n -> nth_error (set_nth n x l) i = nth_error l i.
Proof.
  revert n i. induction l as [|a l IH]; intros [|n] [|i] H; simpl; auto.
  congruence.
Qed.

(** After [scores[:, eos] = -inf], a non-negative [eos] indexes an entry
    that is minus infinity in every row. *)
Lemma mask_column_masked (eos : Z) (scores masked : matrix score) :
  mask_column eos scores = Ok masked ->
  Forall (fun row => (0 <= eos)%Z ->
                     nth_error row (Z.to_nat eos) = Some NegInf) masked.
Proof.
  unfold mask_column. intro H. apply rmap_list_ok in H.
  induction H as [|row mrow scores masked Hr H IH]; constructor; auto.
  destruct ((eos <? - Z.of_nat (length row))%Z
            || (Z.of_nat (length row) <=? eos)%Z) eqn:E; [discriminate|].
  injection Hr as <-. intro H0.
  apply orb_false_iff in E. destruct E as [_ E]. apply Z.leb_gt in E.
  replace (eos <? 0)%Z with false by (symmetry; apply Z.ltb_ge; lia).
  apply set_nth_same. lia.
Qed.

(** A position of positive probability holds a finite score. *)
Lemma softmax_positive_finite (fexp : arith) (vals : list score)
  (ps : list Q) (j : nat) (p : Q) :
  softmax_row fexp vals = Some ps ->
  nth_error ps j = Some p -> 0 < p ->
  exists q, nth_error vals j = Some (Fin q).
Proof.
  intros Hs Hj Hp. apply softmax_row_some in Hs. subst ps.
  rewrite !nth_error_map in Hj.
  destruct (nth_error vals j) as [[|q]|]; simpl in Hj; try discriminate.
  - injection Hj as <-. exfalso. unfold Qdiv in Hp.
    rewrite Qmult_0_l in Hp. exact (Qlt_irrefl 0 Hp).
  - eauto.
Qed.

Lemma support_positive (ps : list Q) (j : Z) :
  In j (support ps) ->
  (0 <= j)%Z /\ exists p, nth_error ps (Z.to_nat j) = Some p /\ 0 < p.
Proof.
  unfold support. intro H. apply in_map_iff in H.
  destruct H as [[p j'] [Hj H]]. simpl in Hj. subst j'.
  apply filter_In in H. destruct H as [Hin Hp]. simpl in Hp.
  apply in_combine_arange in Hin. destruct Hin as [H0 Hn].
  split; [exact H0|]. exists p. split; [exact Hn|].
  now apply negb_true_iff, Qle_bool_false in Hp.
Qed.

Lemma multinomial_row_positive (u : nat) (probs : option (list Q)) (j : Z) :
  multinomial_row u probs = Ok j ->
  exists ps, probs = Some ps
             /\ (0 <= j)%Z
             /\ exists p, nth_error ps (Z.to_nat j) = Some p /\ 0 < p.
Proof.
  unfold multinomial_row. destruct probs as [ps|]; [|discriminate].
  destruct (support ps) as [|s0 s] eqn:E; [discriminate|].
  intro H. exists ps. split; [reflexivity|].
  apply support_positive. rewrite E.
  assert (Hin : In (nth (u mod length (s0 :: s)) (s0 :: s) 0%Z) (s0 :: s)).
  { apply nth_In, Nat.mod_upper_bound. discriminate. }
  injection H as <-. exact Hin.
Qed.

(** Row by row: softmax of the kept scores, one draw, gather. *)
Lemma drawn_tokens (fexp : arith) (P : Z -> Prop)
  (rs : list (list score * list Z)) :
  Forall (fun r => forall j q t,
            nth_error (fst r) j = Some (Fin q) ->
            nth_error (snd r) j = Some t -> P t) rs ->
  forall {M} (w w' : world M) (pos inputs : list Z),
    multinomial (map (softmax_row fexp) (map fst rs)) w = (Ok pos, w') ->
    gather (map snd rs) pos = Ok inputs ->
    Forall P inputs.
Proof.
  induction 1 as [|[vals idxs] rs Hr Hrs IH]; intros M w w' pos inputs Hm Hg.
  - simpl in Hm. apply ret_ok_inv in Hm. destruct Hm as [-> _].
    simpl in Hg. injection Hg as <-. constructor.
  - simpl in Hm.
    apply bind_ok_inv in Hm. destruct Hm as [u [w1 [_ Hm]]].
    apply bind_ok_inv in Hm. destruct Hm as [j [w2 [Hj Hm]]].
    apply lift_ok_inv in Hj. destruct Hj as [Hj ->].
    apply bind_ok_inv in Hm. destruct Hm as [pos' [w3 [Hpos Hm]]].
    apply ret_ok_inv in Hm. destruct Hm as [-> _].
    simpl in Hg. apply rbind_ok in Hg. destruct Hg as [t [Ht Hg]].
    apply rbind_ok in Hg. destruct Hg as [ts [Hts Hg]]. injection Hg as <-.
    constructor; [|eapply IH; eassumption].
    apply multinomial_row_positive in Hj.
    destruct Hj as [ps [Hps [H0 [p [Hp Hpos0]]]]].
    destruct (softmax_positive_finite fexp vals _ Hps Hp Hpos0) as [q Hq].
    unfold lookup in Ht.
    replace (j <? 0)%Z with false in Ht by (symmetry; apply Z.ltb_ge; lia).
    destruct (nth_error idxs (Z.to_nat j)) eqn:Eidx; [|discriminate].
    injection Ht as <-. simpl in Hr. eapply Hr; eassumption.
Qed.

Lemma Forall2_Forall_r {A B} (R : A -> B -> Prop) (P : A -> Prop)
  (Q : B -> Prop) (l : list A) (l' : list B) :
  Forall2 R l l' -> Forall P l ->
  (forall a b, R a b -> P a -> Q b) -> Forall Q l'.
Proof.
  intros H HP Himp. induction H as [|a b l l' Hab H IH]; constructor.
  - eapply Himp; [exact Hab | now inversion HP].
  - apply IH. now inversion HP.
Qed.

Lemma Forall2_and {A B} (R1 R2 : A -> B -> Prop) (l : list A) (l' : list B) :
  Forall2 R1 l l' -> Forall2 R2 l l' ->
  Forall2 (fun a b => R1 a b /\ R2 a b) l l'.
Proof.
  induction 1 as [|a b l l' Hab H IH]; intro H2; inversion H2; subst;
    constructor; auto.
Qed.

Section LegacyLoop.

Context {M : Type}.
Variable fexp : arith.
Variable model : model_fn M score.
Variable start_ids : option (list Z).
Variable sequence_length eos_token_id top_k : Z.

Lemma sample_loop_round_not_eos (c : Z) (st st' : loop_state)
  (w w' : world M) :
  sample_loop_round fexp model start_ids sequence_length eos_token_id top_k
    c st w = (Ok st', w') ->
  exists inputs,
    lp_tokens st' = lp_tokens st ++ [column inputs]
    /\ Forall (fun t => t <> eos_token_id) inputs
    /\ lp_stopped st' = (sequence_length <=? c + 1)%Z.
Proof.
  intro H. apply sample_loop_round_inv in H.
  destruct H as [masked [tk [pos [inputs [w1 [Hmask [Htk [Hm [Hg [Ht [Hs _]]]]]]]]]]].
  exists inputs. split; [exact Ht|]. split; [|exact Hs].
  unfold topk in Htk. apply rbind_ok in Htk. destruct Htk as [rs [Hrs Htk]].
  injection Htk as <-. unfold matrix in Hm, Hg.
  rewrite split_fst in Hm. rewrite split_snd in Hg.
  apply rmap_list_ok in Hrs. apply mask_column_masked in Hmask.
  eapply drawn_tokens with (rs := rs); [|exact Hm | exact Hg].
  eapply Forall2_Forall_r; [exact Hrs | exact Hmask|].
  intros row [vals idxs] Hrow Hneg j q t Hv Hi. simpl in Hv, Hi.
  apply topk_row_entries in Hrow. destruct Hrow as [_ Hent].
  destruct (Hent j (Fin q) t Hv Hi) as [H0 Hrow].
  intros ->. rewrite (Hneg H0) in Hrow. discriminate.
Qed.

Lemma sample_loop_iter_cols (input_ids : matrix Z) (scores : matrix score)
  (n : nat) (w w' : world M) (st : loop_state) :
  sample_loop_iter fexp model start_ids sequence_length eos_token_id top_k
    (width input_ids)
    {| lp_tokens := [input_ids]; lp_scores := scores; lp_stopped := false |}
    n w = (Ok st, w') ->
  exists cols,
    lp_tokens st = input_ids :: cols
    /\ Forall (eos_free_column eos_token_id) cols
    /\ ((lp_stopped st = false /\ length cols = n)
        \/ (lp_stopped st = true /\ (length cols <= n)%nat
            /\ (sequence_length
                <= width input_ids + Z.of_nat (length cols))%Z)).
Proof.
  unfold sample_loop_iter. revert w w' st.
  induction n as [|n IH]; intros w w' st H.
  - simpl in H. apply ret_ok_inv in H. destruct H as [-> _].
    exists []. simpl. repeat split; auto.
  - apply for_range_S in H. destruct H as [st1 [w1 [H1 H2]]].
    destruct (IH _ _ _ H1) as [cols [Hc [Hfree Hcount]]].
    destruct H2 as [[Hs [-> _]]|[Hs H2]].
    + exists cols. split; [exact Hc|]. split; [exact Hfree|]. right.
      destruct Hcount as [[Hs' _]|[_ [Hl Hge]]]; [congruence|].
      repeat split; auto.
    + destruct Hcount as [[_ Hl]|[Hs' _]]; [|congruence].
      apply sample_loop_round_not_eos in H2.
      destruct H2 as [inputs [Ht [Hne Hstop]]].
      exists (cols ++ [column inputs]). rewrite Ht, Hc.
      split; [reflexivity|]. split.
      * apply Forall_app. split; [exact Hfree|].
        constructor; [|constructor]. now exists inputs.
      * rewrite length_app. simpl.
        destruct (sequence_length <=? width input_ids + Z.of_nat n + 1)%Z
          eqn:E.
        -- right. apply Z.leb_le in E. repeat split; auto; lia.
        -- left. split; [exact Hstop | lia].
Qed.

End LegacyLoop.

Lemma eos_free_one_token (eos : Z) (cols : list (matrix Z)) :
  Forall (eos_free_column eos) cols ->
  Forall (Forall (fun r : list Z => length r = 1%nat)) cols.
Proof.
  intro H. eapply Forall_impl; [|exact H].
  intros c [inputs [-> _]]. apply one_token_column.
Qed.

(** The safety half of C6: whenever [simple_sample] returns, every row is
    the prompt row followed by generated tokens that differ from
    [eos_token_id], and has [sequence_length] entries. *)
Lemma simple_sample_rows {M} (fexp : arith) (model : model_fn M score)
  (input_ids : matrix Z) (start_ids : option (list Z))
  (sequence_length eos_token_id top_k : Z) (w : world M) (out : matrix Z) :
  Forall (fun r => Z.of_nat (length r) = width input_ids) input_ids ->
  (width input_ids < sequence_length)%Z ->
  fst (simple_sample fexp model input_ids start_ids sequence_length
         eos_token_id top_k w) = Ok out ->
  Forall2 (legacy_row sequence_length eos_token_id) input_ids out.
Proof.
  intros Hrows Hlt. unfold simple_sample.
  destruct (forward_run model input_ids (arange (width input_ids)) start_ids w)
    as [sc [w1 [Hf _]]].
  rewrite (@bind_ok_run _ _ _ _ _ _ _ _ Hf). unfold sample_loop. intro H.
  apply bind_lift_ok_inv in H. destruct H as [st [w2 [Hst Hcat]]].
  apply sample_loop_iter_cols in Hst.
  destruct Hst as [cols [Hc [Hfree Hcount]]].
  assert (Hn : Z.of_nat (length cols) = (sequence_length - width input_ids)%Z).
  { destruct Hcount as [[_ Hl]|[_ [Hl Hge]]]; lia. }
  rewrite Hc in Hcat. simpl in Hcat.
  pose proof Hcat as Hw. apply cat_from_width in Hw;
    [|eapply eos_free_one_token; exact Hfree].
  apply cat_from_prefix in Hcat.
  pose proof (Forall2_and Hcat Hw) as Hboth.
  assert (Hlen : Forall2 (fun r o : list Z => Z.of_nat (length r)
                                             = width input_ids)
                   input_ids out).
  { clear -Hrows Hw. revert Hrows.
    generalize (width input_ids) as L. intros L Hrows.
    induction Hw as [|r o ids out' _ Hw IH]; constructor.
    - now inversion Hrows.
    - apply IH. now inversion Hrows. }
  pose proof (Forall2_and Hboth Hlen) as Hall.
  eapply Forall2_impl; [|exact Hall].
  intros r o [[[gen [-> Hgen]] Ho] Hr]. exists gen.
  split; [reflexivity|]. split; [rewrite Ho; lia|].
  intro Hin. destruct (Hgen _ Hin) as [c [row [Hcin [Hrow Hx]]]].
  rewrite Forall_forall in Hfree. destruct (Hfree c Hcin) as [inputs [-> Hne]].
  unfold column in Hrow. apply in_map_iff in Hrow.
  destruct Hrow as [y [<- Hy]]. destruct Hx as [<-|[]].
  rewrite Forall_forall in Hne. exact (Hne _ Hy eq_refl).
Qed.

(** ** The legacy loop returns *)

Lemma in_combine_seq_intro {A} (l : list A) (s n i : nat) (x : A) :
  nth_error l i = Some x -> (i < n)%nat ->
  In (x, Z.of_nat (s + i)) (combine l (map Z.of_nat (seq s n))).
Proof.
  revert s n i. induction l as [|a l IH]; intros s [|n] [|i] Hx Hi;
    simpl in *; try discriminate; try lia.
  - injection Hx as <-. left. now rewrite Nat.add_0_r.
  - right. replace (s + S i)%nat with (S s + i)%nat by lia.
    apply IH; [exact Hx | lia].
Qed.

Lemma in_enumerate (row : list score) (j : nat) (v : score) :
  nth_error row j = Some v -> In (v, Z.of_nat j) (enumerate row).
Proof.
  intro H. unfold enumerate, arange. rewrite Nat2Z.id.
  apply (@in_combine_seq_intro _ row 0 (length row) j v H).
  apply nth_error_Some. congruence.
Qed.

Lemma ge_score_refl (a : score) : ge_score a a.
Proof.
  unfold ge_score. destruct a as [|q]; simpl; [reflexivity|].
  apply negb_false_iff, Qle_bool_iff, Qle_refl.
Qed.

Lemma desc_head (x : score * Z) (l : list (score * Z)) (y : score * Z) :
  desc (x :: l) -> In y (x :: l) -> ge_score (fst x) (fst y).
Proof.
  unfold desc. intros H [<-|Hy]; [apply ge_score_refl|].
  inversion H as [|? ? _ Hall]; subst. rewrite Forall_forall in Hall.
  now apply Hall.
Qed.

(** With a finite entry in the row and [k >= 1], the first value kept by
    top-k is finite. *)
Lemma topk_val_head (k : Z) (row : list score) (j : nat) (q : Q) :
  (1 <= k)%Z -> nth_error row j = Some (Fin q) ->
  exists q0 rest, topk_val k row = Fin q0 :: rest.
Proof.
  intros Hk Hj. apply in_enumerate in Hj.
  eapply Permutation_in in Hj; [|symmetry; apply sort_desc_perm].
  pose proof (sort_desc_sorted (enumerate row)) as Hs.
  unfold topk_val. destruct (sort_desc (enumerate row)) as [|x l];
    [contradiction|].
  pose proof (desc_head Hs Hj) as Hge. simpl in Hge.
  destruct (Z.to_nat k) as [|n] eqn:E; [lia|]. simpl.
  destruct x as [[|q0] t]; simpl in *; [discriminate Hge | eauto].
Qed.

Section Draw.

Variable fexp : Q -> Q.
Hypothesis fexp_pos : forall q, 0 < fexp q.

Lemma qsum_weights_nonneg (vals : list score) :
  0 <= qsum (map (weight fexp) vals).
Proof.
  apply qsum_nonneg, Forall_map, Forall_forall. intros s _.
  apply weight_nonneg. intro q. apply Qlt_le_weak, fexp_pos.
Qed.

(** A row that starts with a finite score can be drawn from, and the
    drawn position is inside the row. *)
Lemma multinomial_row_total (u : nat) (q : Q) (rest : list score) :
  exists j,
    multinomial_row u (softmax_row fexp (Fin q :: rest)) = Ok j
    /\ (0 <= j < Z.of_nat (length (Fin q :: rest)))%Z.
Proof.
  destruct (softmax_row fexp (Fin q :: rest)) as [ps|] eqn:Es;
    [|simpl in Es; discriminate].
  pose proof (softmax_row_length _ _ Es) as Hlen.
  pose proof Es as Hsome. apply softmax_row_some in Hsome.
  assert (Hp0 : exists p0 ps', ps = p0 :: ps' /\ 0 < p0).
  { rewrite Hsome. simpl. do 2 eexists. split; [reflexivity|].
    pose proof (fexp_pos q) as Hq.
    pose proof (qsum_weights_nonneg rest) as Hr.
    unfold Qdiv. apply Qmult_lt_0_compat; [exact Hq|].
    apply Qinv_lt_0_compat.
    set (s := qsum (map (weight fexp) rest)) in *. lra. }
  destruct Hp0 as [p0 [ps' [-> Hp0]]].
  assert (Hsup : In 0%Z (support (p0 :: ps'))).
  { unfold support, arange. rewrite Nat2Z.id. simpl.
    replace (Qle_bool p0 0) with false
      by (symmetry; apply Qle_bool_false; exact Hp0).
    simpl. now left. }
  unfold multinomial_row.
  destruct (support (p0 :: ps')) as [|s0 s] eqn:E; [contradiction|].
  exists (nth (u mod length (s0 :: s)) (s0 :: s) 0%Z).
  split; [reflexivity|].
  assert (Hin : In (nth (u mod length (s0 :: s)) (s0 :: s) 0%Z)
                  (support (p0 :: ps'))).
  { rewrite E. apply nth_In, Nat.mod_upper_bound. discriminate. }
  apply support_positive in Hin. destruct Hin as [H0 [p [Hp _]]].
  split; [exact H0|].
  assert (Hlt : (Z.to_nat (nth (u mod length (s0 :: s)) (s0 :: s) 0%Z)
                 < length (p0 :: ps'))%nat).
  { apply nth_error_Some. congruence. }
  rewrite <- Hlen. lia.
Qed.

(** Softmax, one draw per row and gather succeed on kept scores whose
    first value is finite. *)
Lemma draw_total (rs : list (list score * list Z)) :
  Forall (fun r => length (fst r) = length (snd r)
                   /\ exists q rest, fst r = Fin q :: rest) rs ->
  forall {M} (w : world M),
  exists pos inputs w',
    multinomial (map (softmax_row fexp) (map fst rs)) w = (Ok pos, w')
    /\ gather (map snd rs) pos = Ok inputs.
Proof.
  induction 1 as [|[vals idxs] rs [Hlen [q [rest Hv]]] Hrs IH]; intros M w.
  - exists [], [], w. split; reflexivity.
  - simpl in Hlen, Hv. subst vals. cbn [map fst snd].
    destruct (@draw M w) as [[u|e] w1] eqn:Ed.
    2:{ unfold draw in Ed. destruct (w_rng w); discriminate. }
    destruct (multinomial_row_total u q rest) as [j [Hj Hrange]].
    destruct (IH M w1) as [pos [inputs [w' [Hm Hg]]]].
    destruct (@lookup_total _ idxs j) as [t Ht]; [rewrite <- Hlen; exact Hrange|].
    exists (j :: pos), (t :: inputs), w'. split.
    + cbn [multinomial]. unfold bind at 1. rewrite Ed.
      unfold bind at 1, lift at 1. rewrite Hj.
      unfold bind at 1. rewrite Hm. reflexivity.
    + cbn [gather]. rewrite Ht. cbn [rbind]. rewrite Hg. reflexivity.
Qed.

End Draw.

Lemma mask_column_total (eos : Z) (V : nat) (scores : matrix score) :
  (0 <= eos < Z.of_nat V)%Z ->
  Forall (fun row => length row = V) scores ->
  mask_column eos scores
  = Ok (map (set_nth (Z.to_nat eos) NegInf) scores).
Proof.
  intros He Hall. unfold mask_column. apply rmap_list_ext_ok.
  eapply Forall_impl; [|exact Hall]. intros row Hrow. simpl in Hrow.
  rewrite Hrow.
  replace (eos <? - Z.of_nat V)%Z with false
    by (symmetry; apply Z.ltb_ge; lia).
  replace (Z.of_nat V <=? eos)%Z with false
    by (symmetry; apply Z.leb_gt; lia).
  now replace (eos <? 0)%Z with false by (symmetry; apply Z.ltb_ge; lia).
Qed.

Lemma topk_val_length (k : Z) (row : list score) :
  length (topk_val k row) = length (topk_idx k row).
Proof. unfold topk_val, topk_idx. now rewrite !length_map. Qed.

Lemma append_cols_total {A} (m c : matrix A) :
  length c = length m ->
  exists a, append_cols m c = Ok a /\ length a = length m.
Proof.
  revert c. induction m as [|r m IH]; intros [|x c] H; simpl in *;
    try discriminate.
  - exists []. auto.
  - destruct (IH c) as [t [Ht Hl]]; [lia|]. rewrite Ht. simpl.
    eexists. split; [reflexivity|]. simpl. now rewrite Hl.
Qed.

Lemma cat_from_total {A} (cols : list (matrix A)) (acc : matrix A) :
  Forall (fun c => length c = length acc) cols ->
  exists out, cat_from acc cols = Ok out.
Proof.
  revert acc. induction cols as [|c cols IH]; intros acc H; simpl.
  - eauto.
  - inversion H as [|? ? Hc Hcols]; subst.
    destruct (append_cols_total acc c Hc) as [a [Ha Hl]]. rewrite Ha. simpl.
    apply IH. eapply Forall_impl; [|exact Hcols]. intros c' Hc'. simpl in Hc'.
    congruence.
Qed.

Lemma map_fst_pair {A B C} (f : A -> B) (g : A -> C) (l : list A) :
  map fst (map (fun a => (f a, g a)) l) = map f l.
Proof. rewrite map_map. now apply map_ext. Qed.

Lemma map_snd_pair {A B C} (f : A -> B) (g : A -> C) (l : list A) :
  map snd (map (fun a => (f a, g a)) l) = map g l.
Proof. rewrite map_map. now apply map_ext. Qed.

Section LegacyTotal.

Context {M : Type}.
Variable fexp : arith.
Variable model : model_fn M score.
Variable start_ids : option (list Z).
Variable sequence_length eos_token_id top_k : Z.
Variable V : nat.

Hypothesis fexp_pos : forall q, 0 < fexp q.
Hypothesis model_rows : one_row_per_sequence model.
Hypothesis model_samplable : samplable_model V eos_token_id model.
Hypothesis eos_range : (0 <= eos_token_id < Z.of_nat V)%Z.
Hypothesis top_k_range : (1 <= top_k <= Z.of_nat V)%Z.

Lemma sample_loop_round_total (c : Z) (st : loop_state) (w : world M) :
  samplable V eos_token_id (lp_scores st) ->
  exists st' w',
    sample_loop_round fexp model start_ids sequence_length eos_token_id top_k
      c st w = (Ok st', w')
    /\ (exists inputs,
          lp_tokens st' = lp_tokens st ++ [column inputs]
          /\ length inputs = length (lp_scores st))
    /\ (lp_stopped st' = false ->
        samplable V eos_token_id (lp_scores st')
        /\ length (lp_scores st') = length (lp_scores st)).
Proof.
  intro Hgood.
  set (masked := map (set_nth (Z.to_nat eos_token_id) NegInf) (lp_scores st)).
  assert (Hlenrows : Forall (fun row => length row = V) (lp_scores st)).
  { eapply Forall_impl; [|exact Hgood]. now intros row [H _]. }
  assert (Hmask : mask_column eos_token_id (lp_scores st) = Ok masked).
  { now apply mask_column_total with (V := V). }
  assert (Hmlen : Forall (fun row => length row = V) masked).
  { unfold masked. apply Forall_map. eapply Forall_impl; [|exact Hlenrows].
    intros row Hrow. simpl in Hrow. now rewrite set_nth_length. }
  assert (Htk : topk masked top_k
                = Ok (map (topk_val top_k) masked, map (topk_idx top_k) masked)).
  { apply topk_ok with (V := V); [exact Hmlen | lia]. }
  set (rs := map (fun row => (topk_val top_k row, topk_idx top_k row)) masked).
  assert (Hrs : Forall (fun r => length (fst r) = length (snd r)
                                 /\ exists q rest, fst r = Fin q :: rest) rs).
  { unfold rs, masked. rewrite map_map. apply Forall_map.
    eapply Forall_impl; [|exact Hgood].
    intros row [Hrow [j [q [Hj Hq]]]]. simpl.
    split; [apply topk_val_length|].
    apply topk_val_head with (j := j) (q := q); [lia|].
    rewrite set_nth_other; [exact Hq | lia]. }
  destruct (@draw_total fexp fexp_pos rs Hrs M w)
    as [pos [inputs [w1 [Hm Hg]]]].
  unfold rs in Hm, Hg. rewrite map_fst_pair in Hm. rewrite map_snd_pair in Hg.
  assert (Hil : length inputs = length (lp_scores st)).
  { apply gather_length in Hg. rewrite Hg. unfold masked.
    now rewrite !length_map. }
  unfold sample_loop_round, bind at 1, lift at 1. rewrite Hmask.
  unfold bind at 1, lift at 1. rewrite Htk. cbn [fst snd].
  unfold bind at 1. rewrite Hm.
  unfold bind at 1, lift at 1. rewrite Hg.
  destruct (sequence_length <=? c + 1)%Z.
  - do 2 eexists. split; [reflexivity|]. simpl. split; [eauto|]. discriminate.
  - destruct (forward_run model (column inputs) [c] start_ids w1)
      as [out [w2 [Hf [Ho _]]]].
    unfold bind. rewrite Hf. do 2 eexists. split; [reflexivity|]. simpl.
    split; [eauto|]. intros _. subst out. split; [apply model_samplable|].
    rewrite model_rows. unfold column. now rewrite length_map.
Qed.

Lemma sample_loop_iter_total (input_ids : matrix Z) (scores : matrix score)
  (n : nat) (w : world M) :
  samplable V eos_token_id scores ->
  length scores = length input_ids ->
  exists st w',
    sample_loop_iter fexp model start_ids sequence_length eos_token_id top_k
      (width input_ids)
      {| lp_tokens := [input_ids]; lp_scores := scores; lp_stopped := false |}
      n w = (Ok st, w')
    /\ (exists cols,
          lp_tokens st = input_ids :: cols
          /\ Forall (fun c => length c = length input_ids) cols)
    /\ (lp_stopped st = false ->
        samplable V eos_token_id (lp_scores st)
        /\ length (lp_scores st) = length input_ids).
Proof.
  intros Hgood Hlen. unfold sample_loop_iter.
  induction n as [|n [st [w1 [Hrun [[cols [Hc Hcols]] Hst]]]]].
  - do 2 eexists. split; [reflexivity|]. simpl. split; [|auto].
    exists []. auto.
  - simpl. unfold bind at 1. rewrite Hrun.
    destruct (lp_stopped st) eqn:Es.
    + exists st, w1. split; [reflexivity|]. split; [eauto|]. congruence.
    + destruct (Hst eq_refl) as [Hg Hl].
      destruct (sample_loop_round_total
                  (width input_ids + Z.of_nat n)%Z st w1 Hg)
        as [st' [w' [Hr [[inputs [Ht Hil]] Hnext]]]].
      exists st', w'. split; [exact Hr|]. split.
      * exists (cols ++ [column inputs]). rewrite Ht, Hc.
        split; [reflexivity|]. apply Forall_app. split; [exact Hcols|].
        constructor; [|constructor]. unfold column. rewrite length_map.
        congruence.
      * intro Hs. destruct (Hnext Hs) as [Hg' Hl']. split; [exact Hg'|].
        congruence.
Qed.

Lemma simple_sample_total (input_ids : matrix Z) (w : world M) :
  exists out w',
    simple_sample fexp model input_ids start_ids sequence_length eos_token_id
      top_k w = (Ok out, w').
Proof.
  unfold simple_sample.
  destruct (forward_run model input_ids (arange (width input_ids)) start_ids w)
    as [sc [w1 [Hf [Ho _]]]].
  rewrite (@bind_ok_run _ _ _ _ _ _ _ _ Hf). unfold sample_loop.
  destruct (@sample_loop_iter_total input_ids sc
              (Z.to_nat (sequence_length - width input_ids)) w1)
    as [st [w2 [Hrun [[cols [Hc Hcols]] _]]]].
  - subst sc. apply model_samplable.
  - subst sc. apply model_rows.
  - unfold bind. rewrite Hrun. unfold lift. rewrite Hc. simpl.
    destruct (@cat_from_total _ cols input_ids Hcols) as [out Hout].
    rewrite Hout. eauto.
Qed.

End LegacyTotal.


Lemma uniform_model_samplable :
  samplable_model 5 2 (uniform_model [fin 1; fin 5; fin 2; fin 8; fin 3]).
Proof.
  intros ms tokens ids sid. simpl. unfold samplable. apply Forall_map.
  apply Forall_forall. intros _ _. split; [reflexivity|].
  exists 0%nat, (inject_Z 1). split; [discriminate | reflexivity].
Qed.



(** * Further properties of the filtering engine *)

(** ** The keep count grows with top_p *)

Lemma filter_length_le {A} (f g : A -> bool) (l : list A) :
  (forall x, f x = true -> g x = true) ->
  (length (filter f l) <= length (filter g l))%nat.
Proof.
  intro H. induction l as [|x l IH]; simpl; [lia|].
  destruct (f x) eqn:Ef.
  - rewrite (H x Ef). simpl. lia.
  - destruct (g x); simpl; lia.
Qed.

Lemma count_le_mono (p p' : Q) (cum : option (list Q)) :
  p <= p' -> (count_le p cum <= count_le p' cum)%Z.
Proof.
  intro Hp. destruct cum as [cs|]; simpl; [|lia].
  apply Nat2Z.inj_le, filter_length_le. intros c Hc.
  apply Qle_bool_iff in Hc. apply Qle_bool_iff.
  eapply Qle_trans; eassumption.
Qed.

(** X1. The number of entries that top-p keeps for a row (line 138) never
    decreases when [top_p] increases, and it always lies between
    [min_tokens_to_keep] and the vocabulary size. *)
Theorem keep_count_monotone_in_top_p (fexp : arith) (m V : Z) (p p' : Q)
  (sorted_row : list score) :
  p <= p' -> (0 <= m <= V)%Z ->
  (n_to_keep_row fexp m V p sorted_row
   <= n_to_keep_row fexp m V p' sorted_row)%Z
  /\ (m <= n_to_keep_row fexp m V p sorted_row <= V)%Z.
Proof.
  intros Hp Hm. unfold n_to_keep_row, safe_size.
  pose proof (count_le_mono (cumulative_probs fexp sorted_row) Hp). lia.
Qed.

Lemma keep_count_monotone_in_top_p_witness :
  (n_to_keep_row qexp 1 3 (1#2) [fin 2; fin 1; fin 0]
   <= n_to_keep_row qexp 1 3 (9#10) [fin 2; fin 1; fin 0])%Z.
Proof.
  apply (@keep_count_monotone_in_top_p qexp 1 3 (1#2) (9#10)
           [fin 2; fin 1; fin 0]).
  - discriminate.
  - lia.
Defined.

(** ** Top-k alone *)

Lemma strongly_sorted_app {A} (R : A -> A -> Prop) (l1 l2 : list A) :
  StronglySorted R (l1 ++ l2) ->
  StronglySorted R l1
  /\ forall a b, In a l1 -> In b l2 -> R a b.
Proof.
  induction l1 as [|x l1 IH]; simpl; intro H.
  - split; [constructor | intros a b []].
  - inversion H as [|? ? Hs Hall]; subst. destruct (IH Hs) as [H1 H2].
    split.
    + constructor; [exact H1|]. rewrite Forall_forall in *.
      intros y Hy. apply Hall. apply in_or_app. now left.
    + intros a b [<-|Ha] Hb.
      * rewrite Forall_forall in Hall. apply Hall, in_or_app. now right.
      * now apply H2.
Qed.

Lemma arange_NoDup (n : Z) : NoDup (arange n).
Proof.
  unfold arange. apply Finite.Injective_map_NoDup; [|apply seq_NoDup].
  intros a b H. now apply Nat2Z.inj.
Qed.

Lemma enumerate_positions (row : list score) :
  map snd (enumerate row) = arange (Z.of_nat (length row)).
Proof.
  unfold enumerate.
  assert (H : forall (l : list score) (l' : list Z),
             length l = length l' -> map snd (combine l l') = l').
  { induction l as [|a l IH]; intros [|b l'] Hl; simpl in *;
      try discriminate; [reflexivity|]. f_equal. apply IH. lia. }
  apply H. rewrite arange_length. lia.
Qed.

Lemma sort_desc_NoDup (row : list score) :
  NoDup (map snd (sort_desc (enumerate row))).
Proof.
  eapply Permutation_NoDup.
  - apply Permutation_map. symmetry. apply sort_desc_perm.
  - rewrite enumerate_positions. apply arange_NoDup.
Qed.

Lemma NoDup_app_l {A} (l1 l2 : list A) : NoDup (l1 ++ l2) -> NoDup l1.
Proof.
  induction l1 as [|x l1 IH]; simpl; intro H; [constructor|].
  inversion H as [|? ? Hx Hn]; subst. constructor; [|now apply IH].
  intro Hin. apply Hx. apply in_or_app. now left.
Qed.

Lemma NoDup_app_disjoint {A} (l1 l2 : list A) (x : A) :
  NoDup (l1 ++ l2) -> In x l1 -> In x l2 -> False.
Proof.
  induction l1 as [|y l1 IH]; simpl; intros H H1 H2; [contradiction|].
  inversion H as [|? ? Hy Hn]; subst. destruct H1 as [->|H1].
  - apply Hy. apply in_or_app. now right.
  - now apply IH.
Qed.

(** What [torch.topk] keeps of one row: [k] entries in descending order,
    each at its own distinct position of the row, and no entry left out
    is above a kept one. *)
Lemma topk_row_largest (k : Z) (row : list score) :
  (0 <= k <= Z.of_nat (length row))%Z ->
  length (topk_val k row) = Z.to_nat k
  /\ length (topk_idx k row) = Z.to_nat k
  /\ descending (topk_val k row)
  /\ NoDup (topk_idx k row)
  /\ (forall j v t,
        nth_error (topk_val k row) j = Some v ->
        nth_error (topk_idx k row) j = Some t ->
        (0 <= t < Z.of_nat (length row))%Z
        /\ nth_error row (Z.to_nat t) = Some v)
  /\ (forall i v w,
        nth_error row i = Some w ->
        ~ In (Z.of_nat i) (topk_idx k row) ->
        In v (topk_val k row) -> ge_score v w).
Proof.
  intro Hk. pose proof (topk_idx_length row Hk) as Hli.
  split; [now rewrite topk_val_length|]. split; [exact Hli|].
  pose proof (sort_desc_sorted (enumerate row)) as Hs.
  pose proof (sort_desc_NoDup row) as Hnd.
  rewrite <- (firstn_skipn (Z.to_nat k) (sort_desc (enumerate row)))
    in Hs, Hnd.
  unfold desc in Hs. apply strongly_sorted_app in Hs. destruct Hs as [Hs1 Hs2].
  rewrite map_app in Hnd.
  split; [|split; [|split]].
  - unfold topk_val. now apply desc_map_fst.
  - unfold topk_idx. eapply NoDup_app_l. exact Hnd.
  - intros j v t Hv Ht. unfold topk_val, topk_idx in *.
    rewrite nth_error_map in Hv, Ht.
    destruct (nth_error (firstn (Z.to_nat k) (sort_desc (enumerate row))) j)
      as [[v' t']|] eqn:E; [|discriminate].
    simpl in Hv, Ht. injection Hv as <-. injection Ht as <-.
    apply nth_error_In, firstn_in in E.
    pose proof (sort_desc_positions row _ E) as Hpos. simpl in Hpos.
    split; [exact Hpos|].
    eapply Permutation_in in E; [|apply sort_desc_perm].
    unfold enumerate in E. now apply in_combine_arange in E.
  - intros i v w Hw Hnot Hv. apply in_enumerate in Hw.
    eapply Permutation_in in Hw; [|symmetry; apply sort_desc_perm].
    rewrite <- (firstn_skipn (Z.to_nat k) (sort_desc (enumerate row))) in Hw.
    apply in_app_or in Hw. destruct Hw as [Hw|Hw].
    + exfalso. apply Hnot. unfold topk_idx.
      apply in_map_iff. exists (w, Z.of_nat i). auto.
    + unfold topk_val in Hv. apply in_map_iff in Hv.
      destruct Hv as [[v' t'] [<- Hin]]. exact (Hs2 _ _ Hin Hw).
Qed.

(** X2. With [top_k] alone (lines 126-127 and 159-161), on a non-empty
    batch of rows of width [V] and [min_tokens_to_keep <= V], the call
    returns for every row exactly [min (max top_k min_tokens_to_keep) V]
    entries, in descending order of score, each kept score being the
    score of the row at the kept index; the kept indices are distinct
    positions of the row and no entry left out has a score above a kept
    one. *)
Theorem top_k_alone_keeps_the_largest (fexp : arith) (scores : matrix score)
  (k m : Z) (V : nat) :
  scores <> [] ->
  Forall (fun r => length r = V) scores ->
  (0 < k)%Z -> (0 <= m <= Z.of_nat V)%Z ->
  let k' := Z.min (Z.max k m) (Z.of_nat V) in
  top_k_top_p_filtering fexp scores (PyInt k) PyNone (PyInt m)
  = Ok (map (topk_val k') scores, map (topk_idx k') scores)
  /\ forall row, In row scores ->
       length (topk_val k' row) = Z.to_nat k'
       /\ length (topk_idx k' row) = Z.to_nat k'
       /\ descending (topk_val k' row)
       /\ NoDup (topk_idx k' row)
       /\ (forall j v t,
             nth_error (topk_val k' row) j = Some v ->
             nth_error (topk_idx k' row) j = Some t ->
             (0 <= t < Z.of_nat V)%Z
             /\ nth_error row (Z.to_nat t) = Some v)
       /\ (forall i v w,
             nth_error row i = Some w ->
             ~ In (Z.of_nat i) (topk_idx k' row) ->
             In v (topk_val k' row) -> ge_score v w).
Proof.
  intros Hs Hall Hk Hm k'. split.
  - assert (Hv : validate_top_k_top_p_min_tokens_to_keep
                   (PyInt k) PyNone (PyInt m) = Ok tt).
    { apply validate_ok_iff. repeat split.
      - right. exists k. auto.
      - now left.
      - right. exists m. split; [reflexivity | lia]. }
    unfold top_k_top_p_filtering. rewrite Hv. simpl.
    rewrite (width_uniform Hs Hall).
    replace (Z.of_nat V <? m)%Z with false by (symmetry; apply Z.ltb_ge; lia).
    now apply filter_by_top_k_ok.
  - intros row Hrow. rewrite Forall_forall in Hall.
    pose proof (Hall row Hrow) as Hlen. simpl in Hlen. rewrite <- Hlen.
    apply topk_row_largest. unfold k'. lia.
Qed.

Lemma top_k_alone_keeps_the_largest_witness :
  top_k_top_p_filtering qexp sc5 (PyInt 3) PyNone (PyInt 1)
  = Ok ([[fin 8; fin 5; fin 3]], [[3; 1; 4]]%Z).
Proof.
  destruct (@top_k_alone_keeps_the_largest qexp sc5 3 1 5) as [H _].
  - discriminate.
  - repeat constructor.
  - lia.
  - lia.
  - rewrite H. vm_compute. reflexivity.
Defined.

(** ** Errors and the paths that filter nothing *)

(** X3. [top_k_top_p_filtering] (lines 115-116 and 155-157): a rejected
    parameter raises [ValueError] whatever the scores are; with neither
    [top_k] nor [top_p] the scores come back unchanged, each row with the
    identity indices [0 .. V-1]; the same holds, for any accepted [top_k]
    and [top_p], when [min_tokens_to_keep] exceeds the vocabulary size;
    and [min_tokens_to_keep = None], which the validator accepts, raises
    [TypeError] as soon as [top_k] or [top_p] is set (the comparison
    [min_tokens_to_keep > input_size] of line 155). *)
Theorem filtering_errors_and_identity (fexp : arith) (scores : matrix score)
  (top_k top_p mtk : pyobj) :
  (validate_top_k_top_p_min_tokens_to_keep top_k top_p mtk <> Ok tt ->
   top_k_top_p_filtering fexp scores top_k top_p mtk = Raise ValueError)
  /\ (legal_min_tokens mtk ->
      top_k_top_p_filtering fexp scores PyNone PyNone mtk
      = Ok (scores, map (fun _ => arange (width scores)) scores))
  /\ (forall m,
        validate_top_k_top_p_min_tokens_to_keep top_k top_p (PyInt m) = Ok tt ->
        (width scores < m)%Z ->
        top_k_top_p_filtering fexp scores top_k top_p (PyInt m)
        = Ok (scores, map (fun _ => arange (width scores)) scores))
  /\ (validate_top_k_top_p_min_tokens_to_keep top_k top_p PyNone = Ok tt ->
      top_k <> PyNone \/ top_p <> PyNone ->
      top_k_top_p_filtering fexp scores top_k top_p PyNone = Raise TypeError).
Proof.
  split; [|split; [|split]].
  - intro H. unfold top_k_top_p_filtering.
    destruct (validate_total top_k top_p mtk) as [E|E]; [contradiction|].
    now rewrite E.
  - intro Hm. unfold top_k_top_p_filtering.
    assert (E : validate_top_k_top_p_min_tokens_to_keep PyNone PyNone mtk
                = Ok tt).
    { apply validate_ok_iff. repeat split; auto; now left. }
    now rewrite E.
  - intros m Hv Hlt. unfold top_k_top_p_filtering. rewrite Hv. simpl.
    replace (width scores <? m)%Z with true by (symmetry; apply Z.ltb_lt; lia).
    now destruct top_k, top_p.
  - intros Hv Hset. unfold top_k_top_p_filtering. rewrite Hv. simpl.
    destruct top_k, top_p; try reflexivity. destruct Hset; congruence.
Qed.

Lemma filtering_errors_and_identity_witness :
  top_k_top_p_filtering qexp sc5 (PyInt 3) PyNone PyNone = Raise TypeError
  /\ top_k_top_p_filtering qexp sc5 (PyInt 3) (PyFloat (1#2)) (PyInt 6)
     = Ok (sc5, [[0; 1; 2; 3; 4]]%Z)
  /\ top_k_top_p_filtering qexp sc5 (PyInt 0) PyNone (PyInt 1)
     = Raise ValueError.
Proof.
  split; [|split].
  - apply (proj2 (proj2 (proj2 (filtering_errors_and_identity
                                  qexp sc5 (PyInt 3) PyNone PyNone)))).
    + reflexivity.
    + left. discriminate.
  - apply (proj1 (proj2 (proj2 (filtering_errors_and_identity
                                  qexp sc5 (PyInt 3) (PyFloat (1#2))
                                  (PyInt 6)))) 6%Z).
    + reflexivity.
    + reflexivity.
  - apply (proj1 (filtering_errors_and_identity
                    qexp sc5 (PyInt 0) PyNone (PyInt 1))).
    discriminate.
Defined.

(** ** Top-k followed by top-p on a single sequence *)

Lemma sort_desc_id (l : list (score * Z)) : desc l -> sort_desc l = l.
Proof.
  unfold desc. induction 1 as [|x l Hs IH Hx]; simpl; [reflexivity|].
  rewrite IH. destruct l as [|y l']; simpl; [reflexivity|].
  inversion Hx as [|? ? Hxy _]; subst. unfold ge_score in Hxy.
  now rewrite Hxy.
Qed.

Lemma desc_combine (vals : list score) (idx : list Z) :
  descending vals -> desc (combine vals idx).
Proof.
  unfold descending, desc. intro H. revert idx.
  induction H as [|v vals Hs IH Hv]; intros [|i idx]; simpl;
    try constructor; [apply IH|].
  apply Forall_forall. intros [v' i'] Hin. simpl.
  apply in_combine_l in Hin. rewrite Forall_forall in Hv. now apply Hv.
Qed.

(** Sorting a row that is already in descending order leaves it as it is
    and returns the identity positions. *)
Lemma sort_row_descending_id (vals : list score) :
  descending vals ->
  sort_row vals = (vals, arange (Z.of_nat (length vals))).
Proof.
  intro H. unfold sort_row, enumerate.
  rewrite sort_desc_id by (now apply desc_combine).
  apply combine_split. rewrite arange_length. lia.
Qed.

Lemma rmap_lookup_pairs (row : list score) (l : list (score * Z)) :
  Forall (fun vt => lookup row (snd vt) = Ok (fst vt)) l ->
  rmap_list (lookup row) (map snd l) = Ok (map fst l).
Proof.
  induction 1 as [|[v t] l Hvt Hl IH]; simpl; [reflexivity|].
  simpl in Hvt. now rewrite Hvt, IH.
Qed.

Lemma lookup_nth_error {A} (row : list A) (j : nat) (x : A) :
  nth_error row j = Some x -> lookup row (Z.of_nat j) = Ok x.
Proof.
  intro H. unfold lookup.
  replace (Z.of_nat j <? 0)%Z with false by (symmetry; apply Z.ltb_ge; lia).
  now rewrite Nat2Z.id, H.
Qed.

(** Reading a row at the indices kept by top-k gives the kept values. *)
Lemma index_select_topk (k : Z) (row : list score) :
  rmap_list (lookup row) (topk_idx k row) = Ok (topk_val k row).
Proof.
  unfold topk_idx, topk_val. apply rmap_lookup_pairs.
  apply Forall_forall. intros [v t] Hin. simpl.
  apply firstn_in in Hin.
  eapply Permutation_in in Hin; [|apply sort_desc_perm].
  unfold enumerate in Hin. apply in_combine_arange in Hin.
  destruct Hin as [H0 Hn]. apply lookup_nth_error in Hn.
  now rewrite Z2Nat.id in Hn.
Qed.

Lemma skipn_nth_error {A} (l : list A) (s : nat) (x : A) :
  nth_error l s = Some x -> skipn s l = x :: skipn (S s) l.
Proof.
  revert s. induction l as [|a l IH]; intros [|s] H; simpl in *;
    try discriminate.
  - now injection H as <-.
  - now apply IH.
Qed.

Lemma rmap_lookup_seq {A} (l : list A) (s c : nat) :
  (s + c <= length l)%nat ->
  rmap_list (lookup l) (map Z.of_nat (seq s c)) = Ok (firstn c (skipn s l)).
Proof.
  revert s. induction c as [|c IH]; intros s H; simpl.
  - reflexivity.
  - destruct (nth_error l s) as [x|] eqn:E;
      [|apply nth_error_None in E; lia].
    rewrite (lookup_nth_error _ _ E). simpl.
    rewrite IH by lia. simpl. f_equal.
    now rewrite (skipn_nth_error _ _ E).
Qed.

Lemma count_le_bound (fexp : arith) (p : Q) (vals : list score) :
  (0 <= count_le p (cumulative_probs fexp vals) <= Z.of_nat (length vals))%Z.
Proof.
  destruct (cumulative_probs fexp vals) as [cs|] eqn:E; simpl; [|lia].
  apply cumulative_probs_length in E.
  pose proof (filter_length (fun c => Qle_bool c p) cs) as Hf. simpl in Hf. lia.
Qed.

Lemma firstn_seq_min (n s len : nat) :
  firstn n (seq s len) = seq s (Nat.min n len).
Proof.
  revert s len. induction n as [|n IH]; intros s [|len]; simpl;
    try reflexivity. f_equal. apply IH.
Qed.

Lemma mask_from_firstn (n : Z) (l : list score) :
  mask_from n (firstn (Z.to_nat n) l) = firstn (Z.to_nat n) l.
Proof.
  unfold mask_from. rewrite firstn_firstn, Nat.min_id.
  replace (length (firstn (Z.to_nat n) l) - Z.to_nat n)%nat with 0%nat
    by (pose proof (firstn_le_length (Z.to_nat n) l); lia).
  apply app_nil_r.
Qed.

(** The combined path on a single sequence, in closed form. *)
Lemma combined_single_row (fexp : arith)
  (row : list score) (k : Z) (p : Q) (m : Z) :
  (0 < k)%Z -> 0 < p -> p <= 1 ->
  (0 <= m <= Z.of_nat (length row))%Z ->
  let V := Z.of_nat (length row) in
  let K := Z.min (Z.max k m) V in
  let n := n_to_keep_row fexp m V p (topk_val K row) in
  top_k_top_p_filtering fexp [row] (PyInt k) (PyFloat p) (PyInt m)
  = Ok ([firstn (Z.to_nat n) (topk_val K row)],
        [firstn (Z.to_nat n) (topk_idx K row)])
  /\ (m <= n <= K)%Z.
Proof.
  intros Hk Hp0 Hp1 Hm V K n.
  assert (HK : (0 <= K <= V)%Z) by (unfold K, V; lia).
  destruct (@topk_row_largest K row HK) as [Hlv [Hli [Hdesc _]]].
  assert (Hn : (m <= n <= K)%Z).
  { unfold n, n_to_keep_row, safe_size.
    pose proof (count_le_bound fexp p (topk_val K row)) as Hc.
    rewrite Hlv in Hc. unfold K in *. lia. }
  split; [|exact Hn].
  assert (Hv : validate_top_k_top_p_min_tokens_to_keep
                 (PyInt k) (PyFloat p) (PyInt m) = Ok tt).
  { apply validate_ok_iff. repeat split.
    - right. exists k. auto.
    - right. exists p. auto.
    - right. exists m. split; [reflexivity | lia]. }
  unfold top_k_top_p_filtering. rewrite Hv. cbn [rbind].
  change (width [row]) with V.
  replace (V <? m)%Z with false by (symmetry; apply Z.ltb_ge; unfold V; lia).
  rewrite (@filter_by_top_k_ok [row] m k (length row));
    [|discriminate | repeat constructor | exact Hm].
  cbn [rbind snd map]. fold V. unfold safe_size. fold K.
  unfold filter_by_top_p. cbn [row0 rbind].
  unfold index_select. cbn [rmap_list].
  rewrite index_select_topk. cbn [rbind map fst snd].
  rewrite (sort_row_descending_id Hdesc). cbn [fst snd].
  change (width [row]) with V. fold n. cbn [py_max fold_left rbind].
  cbn [combine map fst snd row0 rmap_list].
  rewrite mask_from_firstn.
  unfold arange. rewrite Nat2Z.id, firstn_map, firstn_seq_min.
  replace (Nat.min (Z.to_nat n) (length (topk_val K row))) with (Z.to_nat n)
    by (rewrite Hlv; lia).
  cbn [rbind]. rewrite rmap_lookup_seq by (rewrite Hli; lia).
  reflexivity.
Qed.

(** X4. For a batch of one sequence (lines 129-153 and 168), top-k
    followed by top-p returns the [n] largest scores of the row in
    descending order, a prefix of the scores that top-k alone returns,
    none of them masked, each with a position of the row that holds it,
    and no position twice.  Here [n] is the top-p keep count on the [K]
    scores that top-k kept ([K = min (max top_k min_tokens_to_keep) V]),
    counted on the cumulative probabilities as the platform computes
    them, and [n] lies between [min_tokens_to_keep] and [K].  Which of
    several positions holding equal scores is returned is left open. *)
Theorem single_row_combined_is_top_k_prefix (fexp : arith)
  (row : list score) (k : Z) (p : Q) (m : Z) :
  (0 < k)%Z -> 0 < p -> p <= 1 ->
  (0 <= m <= Z.of_nat (length row))%Z ->
  let V := Z.of_nat (length row) in
  let K := Z.min (Z.max k m) V in
  let n := n_to_keep_row fexp m V p (topk_val K row) in
  exists idxs,
    top_k_top_p_filtering fexp [row] (PyInt k) (PyFloat p) (PyInt m)
    = Ok ([firstn (Z.to_nat n) (topk_val K row)], [idxs])
    /\ (m <= n <= K)%Z
    /\ length (firstn (Z.to_nat n) (topk_val K row)) = Z.to_nat n
    /\ length idxs = Z.to_nat n
    /\ NoDup idxs
    /\ (forall j v t,
          nth_error (firstn (Z.to_nat n) (topk_val K row)) j = Some v ->
          nth_error idxs j = Some t ->
          (0 <= t < V)%Z /\ nth_error row (Z.to_nat t) = Some v).
Proof.
  intros Hk Hp0 Hp1 Hm V K n.
  destruct (@combined_single_row fexp row k p m Hk Hp0 Hp1 Hm) as [Heq Hn].
  fold V K n in Heq, Hn.
  assert (HK : (0 <= K <= V)%Z) by (unfold K, V; lia).
  destruct (@topk_row_largest K row HK) as [Hlv [Hli [_ [Hnd [Hpos _]]]]].
  exists (firstn (Z.to_nat n) (topk_idx K row)).
  split; [exact Heq|]. split; [exact Hn|].
  split; [apply firstn_length_le; lia|].
  split; [apply firstn_length_le; lia|]. split.
  - rewrite <- (firstn_skipn (Z.to_nat n) (topk_idx K row)) in Hnd.
    eapply NoDup_app_l. exact Hnd.
  - intros j v t Hv Ht. rewrite nth_error_firstn in Hv, Ht.
    destruct (j <? Z.to_nat n)%nat; [|discriminate].
    eapply Hpos; eassumption.
Qed.

Lemma single_row_combined_is_top_k_prefix_witness :
  exists idxs,
    top_k_top_p_filtering qexp [[fin 1; fin 5; fin 2; fin 8; fin 3]]
      (PyInt 3) (PyFloat (1#2)) (PyInt 1)
    = Ok ([[fin 8]], [idxs])
    /\ length idxs = 1%nat.
Proof.
  destruct (@single_row_combined_is_top_k_prefix qexp
              [fin 1; fin 5; fin 2; fin 8; fin 3] 3 (1#2) 1)
    as [idxs [H [_ [_ [Hl _]]]]].
  - lia.
  - reflexivity.
  - discriminate.
  - simpl. lia.
  - exists idxs. split; [exact H | exact Hl].
Defined.

(** ** Top-k followed by top-p on a batch *)

Lemma topk_row_ok_inv (k : Z) (row vals : list score) (idxs : list Z) :
  topk_row k row = Ok (vals, idxs) ->
  vals = topk_val k row /\ idxs = topk_idx k row.
Proof.
  unfold topk_row, topk_val, topk_idx.
  destruct ((k <? 0)%Z || (Z.of_nat (length row) <? k)%Z); [discriminate|].
  intro H. injection H as H.
  rewrite (surjective_pairing (List.split _)) in H.
  injection H as <- <-. now rewrite split_fst, split_snd.
Qed.

Lemma rmap_lookup_in {A} (row : list A) (idx : list Z) (out : list A) (v : A) :
  rmap_list (lookup row) idx = Ok out -> In v out ->
  exists t, In t idx /\ lookup row t = Ok v.
Proof.
  intro H. apply rmap_list_ok in H.
  induction H as [|t x idx out Hx H IH]; intros Hin; [contradiction|].
  destruct Hin as [<-|Hin].
  - exists t. split; [now left | exact Hx].
  - destruct (IH Hin) as [t' [Ht' Hl]]. exists t'. split; [now right | exact Hl].
Qed.

Lemma mask_from_in (n : Z) (l : list score) (v : score) :
  In v (mask_from n l) -> v = NegInf \/ In v l.
Proof.
  unfold mask_from. intro H. apply in_app_or in H. destruct H as [H|H].
  - right. eapply firstn_in; eassumption.
  - left. eapply repeat_spec; eassumption.
Qed.

Lemma sort_row_in (row : list score) (v : score) :
  In v (fst (sort_row row)) -> In v row.
Proof.
  unfold sort_row. rewrite split_fst. intro H. apply in_map_iff in H.
  destruct H as [[v' t] [<- Hin]].
  eapply Permutation_in in Hin; [|apply sort_desc_perm].
  unfold enumerate in Hin. now apply in_combine_l in Hin.
Qed.

Lemma Forall2_map_right {A B C} (R : A -> C -> Prop) (f : B -> C)
  (l : list A) (l' : list B) :
  Forall2 (fun a b => R a (f b)) l l' -> Forall2 R l (map f l').
Proof. induction 1; simpl; constructor; auto. Qed.

(** X5. In the combined path the scores of every row are read at the
    top-k indices of the FIRST row of the batch (line 135 selects with
    [indices[0]]): whenever top-k followed by top-p returns, every
    returned score of row [i] is minus infinity or the score that row
    [i] has at one of the indices that top-k kept for row 0. *)
Theorem combined_reads_scores_at_first_row_indices (fexp : arith)
  (first : list score) (rest : matrix score) (k : Z) (p : Q) (m : Z)
  (cs : matrix score) (ci : matrix Z) :
  (m <= width (first :: rest))%Z ->
  top_k_top_p_filtering fexp (first :: rest) (PyInt k) (PyFloat p) (PyInt m)
  = Ok (cs, ci) ->
  let K := safe_size m (width (first :: rest)) k in
  Forall2 (fun row crow =>
             forall v, In v crow ->
               v = NegInf
               \/ exists t, In t (topk_idx K first) /\ lookup row t = Ok v)
    (first :: rest) cs.
Proof.
  intros Hm H K. unfold top_k_top_p_filtering in H.
  apply rbind_ok in H. destruct H as [[] [_ H]].
  replace (width (first :: rest) <? m)%Z with false in H
    by (symmetry; apply Z.ltb_ge; lia).
  apply rbind_ok in H. destruct H as [[kv ki] [Hk Hp]].
  cbn [snd] in Hp.
  (* the first row of the top-k indices *)
  unfold filter_by_top_k, topk in Hk. fold K in Hk.
  apply rbind_ok in Hk. destruct Hk as [rs [Hrs Hk]].
  injection Hk as Hk.
  assert (Hki : ki = map snd rs).
  { unfold matrix in *. rewrite <- (split_snd rs), Hk. reflexivity. }
  cbn [rmap_list] in Hrs.
  apply rbind_ok in Hrs. destruct Hrs as [[v0 i0] [Hr0 Hrs]].
  apply rbind_ok in Hrs. destruct Hrs as [rs' [_ Hrs]].
  injection Hrs as <-. cbn [map snd] in Hki.
  apply topk_row_ok_inv in Hr0. destruct Hr0 as [_ ->]. subst ki.
  (* the top-p stage *)
  unfold filter_by_top_p in Hp. cbn [row0 rbind] in Hp.
  apply rbind_ok in Hp. destruct Hp as [stf [Hstf Hp]].
  apply rbind_ok in Hp. destruct Hp as [w [_ Hp]].
  apply rbind_ok in Hp. destruct Hp as [ci' [_ Hp]].
  injection Hp as <- _.
  rewrite !map_map, combine_map_map, map_map. cbn [fst snd].
  apply Forall2_map_right.
  unfold index_select in Hstf. apply rmap_list_ok in Hstf.
  eapply Forall2_impl; [|exact Hstf].
  intros row srow Hsel v Hv. cbn beta in Hsel.
  apply mask_from_in in Hv. destruct Hv as [Hv|Hv]; [now left|].
  right. apply firstn_in, sort_row_in in Hv.
  eapply rmap_lookup_in; eassumption.
Qed.

Lemma combined_reads_scores_at_first_row_indices_witness :
  top_k_top_p_filtering qexp
    [[fin 1; fin 5; fin 2; fin 8; fin 3]; [fin 9; fin 5; fin 2; fin 8; fin 3]]
    (PyInt 3) (PyFloat 1) (PyInt 1)
  = Ok ([[fin 8; fin 5; fin 3]; [fin 8; fin 5; fin 3]],
        [[3; 1; 4]; [0; 3; 1]]%Z)
  /\ Forall2 (fun row crow =>
                forall v, In v crow ->
                  v = NegInf
                  \/ exists t, In t [3; 1; 4]%Z /\ lookup row t = Ok v)
       [[fin 1; fin 5; fin 2; fin 8; fin 3];
        [fin 9; fin 5; fin 2; fin 8; fin 3]]
       [[fin 8; fin 5; fin 3]; [fin 8; fin 5; fin 3]].
Proof.
  assert (E : top_k_top_p_filtering qexp
                [[fin 1; fin 5; fin 2; fin 8; fin 3];
                 [fin 9; fin 5; fin 2; fin 8; fin 3]]
                (PyInt 3) (PyFloat 1) (PyInt 1)
              = Ok ([[fin 8; fin 5; fin 3]; [fin 8; fin 5; fin 3]],
                    [[3; 1; 4]; [0; 3; 1]]%Z))
    by (vm_compute; reflexivity).
  split; [exact E|].
  assert (Hm : (1 <= width [[fin 1; fin 5; fin 2; fin 8; fin 3];
                            [fin 9; fin 5; fin 2; fin 8; fin 3]])%Z)
    by (simpl; lia).
  exact (@combined_reads_scores_at_first_row_indices qexp _ _ 3 1 1 _ _ Hm E).
Defined.

(** ** No room to generate *)

Lemma bind_ret_run {M A B} (a : A) (k : A -> Comp M B) (w : world M) :
  bind (ret a) k w = k a w.
Proof. reflexivity. Qed.

Lemma bind_lift_run {M A B} (a : A) (k : A -> Comp M B) (w : world M) :
  bind (lift (Ok a)) k w = k a w.
Proof. reflexivity. Qed.

(** X6. When [sequence_length] does not exceed the prompt length the
    range of every loop is empty: each of the four entry points still
    runs the model once on the prompt (the PREFILL call), draws nothing,
    and returns [input_ids] itself.  The legacy entry points do so
    whatever [eos_token_id] and [top_k] are, since nothing validates
    them; [sample_llama] does so for accepted hyperparameters. *)
Theorem empty_range_returns_prompt {M} (fexp : arith)
  (model_t : model_fn M Z) (model : model_fn M score)
  (input_ids : matrix Z) (start_ids : option (list Z))
  (sequence_length eos_token_id k : Z) (top_k top_p : pyobj) (t : Q)
  (w : world M) :
  (sequence_length <= width input_ids)%Z ->
  prefill_only (sample_tokens model_t input_ids start_ids sequence_length)
    input_ids start_ids w
  /\ prefill_only (sample_greedy model input_ids start_ids sequence_length)
       input_ids start_ids w
  /\ prefill_only
       (simple_sample fexp model input_ids start_ids sequence_length
          eos_token_id k)
       input_ids start_ids w
  /\ (validate_top_k_top_p_min_tokens_to_keep top_k top_p PyNone = Ok tt ->
      0 < t ->
      prefill_only
        (sample_llama fexp model input_ids start_ids sequence_length
           eos_token_id top_k top_p (PyFloat t))
        input_ids start_ids w).
Proof.
  intro Hlen.
  assert (Hn : Z.to_nat (sequence_length - width input_ids) = 0%nat) by lia.
  split; [|split; [|split]].
  - destruct (forward_run model_t input_ids (arange (width input_ids))
                start_ids w) as [out [w' [Hf [_ [Hc Hr]]]]].
    exists w'. split; [|split; assumption].
    unfold sample_tokens, sample_tokens_iter.
    rewrite (@bind_ok_run _ _ _ _ _ _ _ _ Hf), Hn. reflexivity.
  - destruct (forward_run model input_ids (arange (width input_ids))
                start_ids w) as [out [w' [Hf [_ [Hc Hr]]]]].
    exists w'. split; [|split; assumption].
    unfold sample_greedy, sample_greedy_iter.
    rewrite (@bind_ok_run _ _ _ _ _ _ _ _ Hf), Hn. reflexivity.
  - destruct (forward_run model input_ids (arange (width input_ids))
                start_ids w) as [out [w' [Hf [_ [Hc Hr]]]]].
    exists w'. split; [|split; assumption].
    unfold simple_sample, sample_loop, sample_loop_iter.
    rewrite (@bind_ok_run _ _ _ _ _ _ _ _ Hf), Hn. reflexivity.
  - intros Hv Ht.
    destruct (forward_run model input_ids (arange (width input_ids))
                start_ids w) as [out [w' [Hf [_ [Hc Hr]]]]].
    exists w'. split; [|split; assumption].
    assert (Hill : temperature_illegal (PyFloat t) = false)
      by (apply temperature_illegal_spec; exists t; auto).
    unfold sample_llama, sample_loop_llama, sample_loop_llama_iter.
    rewrite Hv, bind_lift_run, (@bind_ok_run _ _ _ _ _ _ _ _ Hf),
      bind_lift_run, Hill, Hn.
    reflexivity.
Qed.

Lemma empty_range_returns_prompt_witness :
  prefill_only
    (simple_sample qexp (uniform_model [fin 1; fin 2]) [[0; 1]; [1; 0]]%Z None
       2 7 (-3))
    [[0; 1]; [1; 0]]%Z None (init_world tt [5%nat])
  /\ prefill_only
       (sample_llama qexp (uniform_model [fin 1; fin 2]) [[0; 1]; [1; 0]]%Z
          None 1 0 (PyInt 1) (PyFloat 1) (PyFloat (1 # 2)))
       [[0; 1]; [1; 0]]%Z None (init_world tt [5%nat]).
Proof.
  assert (Hlen2 : (2 <= width [[0; 1]; [1; 0]]%Z)%Z) by (simpl; lia).
  assert (Hlen1 : (1 <= width [[0; 1]; [1; 0]]%Z)%Z) by (simpl; lia).
  split.
  - exact (proj1 (proj2 (proj2
      (@empty_range_returns_prompt unit qexp (fun m _ _ _ => (m, []))
         (uniform_model [fin 1; fin 2]) _ None 2 7 (-3) PyNone PyNone 1
         (init_world tt [5%nat]) Hlen2)))).
  - apply (proj2 (proj2 (proj2
      (@empty_range_returns_prompt unit qexp (fun m _ _ _ => (m, []))
         (uniform_model [fin 1; fin 2]) _ None 1 0 0 (PyInt 1) (PyFloat 1)
         (1 # 2) (init_world tt [5%nat]) Hlen1)))).
    + reflexivity.
    + reflexivity.
Defined.

(** ** The legacy loop does not clamp its arguments *)

Lemma for_range_first_raise {M St} (stopped : St -> bool)
  (body : Z -> St -> Comp M St) (start : Z) (st0 : St) (w w' : world M)
  (e : exn) (n : nat) :
  stopped st0 = false ->
  body start st0 w = (Raise e, w') ->
  for_range stopped body start st0 (S n) w = (Raise e, w').
Proof.
  intros Hs Hb. induction n as [|n IH].
  - cbn [for_range]. rewrite bind_ret_run, Hs. cbn [Z.of_nat].
    now rewrite Z.add_0_r.
  - change (for_range stopped body start st0 (S (S n)))
      with (bind (for_range stopped body start st0 (S n))
              (fun st => if stopped st then ret st
                         else body (start + Z.of_nat (S n))%Z st)).
    now apply bind_raise_run.
Qed.

Lemma mask_column_out_of_range (j : Z) (row : list score)
  (rest : matrix score) :
  (j < - Z.of_nat (length row) \/ Z.of_nat (length row) <= j)%Z ->
  mask_column j (row :: rest) = Raise IndexError.
Proof.
  intro H. unfold mask_column. cbn [rmap_list].
  replace ((j <? - Z.of_nat (length row))%Z || (Z.of_nat (length row) <=? j)%Z)
    with true; [reflexivity|].
  symmetry. apply orb_true_iff.
  destruct H as [H|H]; [left; now apply Z.ltb_lt | right; now apply Z.leb_le].
Qed.

Lemma mask_column_in_range (j : Z) (V : nat) (scores : matrix score) :
  (- Z.of_nat V <= j < Z.of_nat V)%Z ->
  Forall (fun row => length row = V) scores ->
  exists masked,
    mask_column j scores = Ok masked
    /\ Forall2 (fun row mrow => length mrow = length row) scores masked.
Proof.
  intros Hj Hall. unfold mask_column.
  induction Hall as [|row scores Hrow Hall IH].
  - exists []. split; [reflexivity | constructor].
  - destruct IH as [masked [Hm Hl]]. cbn [rmap_list]. rewrite Hrow.
    replace ((j <? - Z.of_nat V)%Z || (Z.of_nat V <=? j)%Z) with false.
    + cbn [rbind]. rewrite Hm. cbn [rbind]. eexists. split; [reflexivity|].
      constructor; [|exact Hl]. now rewrite set_nth_length.
    + symmetry. apply orb_false_iff.
      split; [apply Z.ltb_ge | apply Z.leb_gt]; lia.
Qed.

Lemma topk_out_of_range (k : Z) (row : list score) (rest : matrix score) :
  (k < 0 \/ Z.of_nat (length row) < k)%Z ->
  topk (row :: rest) k = Raise RuntimeError.
Proof.
  intro H. unfold topk, topk_row. cbn [rmap_list].
  replace ((k <? 0)%Z || (Z.of_nat (length row) <? k)%Z) with true;
    [reflexivity|].
  symmetry. apply orb_true_iff.
  destruct H as [H|H]; [left | right]; now apply Z.ltb_lt.
Qed.

(** X7. The legacy loop (lines 84 and 87) uses [eos_token_id] and [top_k]
    as they are given.  For 64-bit values of both: when a token is to be
    generated and the model answered the prompt with a non-empty batch of
    rows of [V] scores, an [eos_token_id] outside [-V, V) makes
    [simple_sample] fail with [IndexError], and otherwise a [top_k] that
    is negative or exceeds [V] makes it fail with [RuntimeError] (nothing
    clamps [top_k] to the vocabulary as the filtering engine does).
    Either failure comes after the PREFILL call, before anything is
    drawn. *)
Theorem legacy_loop_rejects_out_of_range {M} (fexp : arith)
  (model : model_fn M score) (input_ids : matrix Z)
  (start_ids : option (list Z)) (sequence_length eos_token_id top_k : Z)
  (V : nat) (row : list score) (rest : matrix score) (w : world M) :
  int64 eos_token_id -> int64 top_k ->
  (width input_ids < sequence_length)%Z ->
  snd (model (w_model w) input_ids (arange (width input_ids)) start_ids)
  = row :: rest ->
  Forall (fun r => length r = V) (row :: rest) ->
  ((eos_token_id < - Z.of_nat V \/ Z.of_nat V <= eos_token_id)%Z ->
   fails_after_prefill
     (simple_sample fexp model input_ids start_ids sequence_length
        eos_token_id top_k)
     IndexError input_ids start_ids w)
  /\ ((- Z.of_nat V <= eos_token_id < Z.of_nat V)%Z ->
      (top_k < 0 \/ Z.of_nat V < top_k)%Z ->
      fails_after_prefill
        (simple_sample fexp model input_ids start_ids sequence_length
           eos_token_id top_k)
        RuntimeError input_ids start_ids w).
Proof.
  intros _ _ Hlen Hout Hall.
  destruct (forward_run model input_ids (arange (width input_ids)) start_ids w)
    as [out [w' [Hf [Ho [Hc Hr]]]]].
  rewrite Hout in Ho. subst out.
  assert (Hn : exists n,
             Z.to_nat (sequence_length - width input_ids) = S n).
  { exists (Z.to_nat (sequence_length - width input_ids) - 1)%nat. lia. }
  destruct Hn as [n Hn].
  assert (Hrow : length row = V) by now inversion Hall.
  assert (Hrun : forall e,
             sample_loop_round fexp model start_ids sequence_length
               eos_token_id top_k (width input_ids)
               {| lp_tokens := [input_ids]; lp_scores := row :: rest;
                  lp_stopped := false |} w' = (Raise e, w') ->
             fails_after_prefill
               (simple_sample fexp model input_ids start_ids sequence_length
                  eos_token_id top_k)
               e input_ids start_ids w).
  { intros e Hround. exists w'. split; [|split; assumption].
    unfold simple_sample, sample_loop, sample_loop_iter.
    rewrite (@bind_ok_run _ _ _ _ _ _ _ _ Hf), Hn.
    apply bind_raise_run. now apply for_range_first_raise. }
  split.
  - intro He. apply Hrun. unfold sample_loop_round. cbn [lp_scores].
    rewrite mask_column_out_of_range by (rewrite Hrow; exact He).
    reflexivity.
  - intros He Hk. apply Hrun. unfold sample_loop_round. cbn [lp_scores].
    destruct (mask_column_in_range He Hall) as [masked [Hm Hl]].
    rewrite Hm. inversion Hl as [|r mrow rs ms Hmrow Hrest]; subst.
    rewrite bind_lift_run.
    rewrite topk_out_of_range by (rewrite Hmrow; lia).
    reflexivity.
Qed.

Lemma legacy_loop_rejects_out_of_range_witness :
  fails_after_prefill
    (simple_sample qexp (uniform_model [fin 1; fin 2; fin 3]) [[0; 1]]%Z None
       4 3 2)
    IndexError [[0; 1]]%Z None (init_world tt [5%nat])
  /\ fails_after_prefill
       (simple_sample qexp (uniform_model [fin 1; fin 2; fin 3]) [[0; 1]]%Z
          None 4 2 50)
       RuntimeError [[0; 1]]%Z None (init_world tt [5%nat]).
Proof.
  assert (Hlen : (width [[0; 1]]%Z < 4)%Z) by (simpl; lia).
  assert (Hall : Forall (fun r : list score => length r = 3%nat)
                   ([fin 1; fin 2; fin 3] :: []))
    by (repeat constructor).
  assert (H2 : int64 2) by (unfold int64; lia).
  assert (H3 : int64 3) by (unfold int64; lia).
  assert (H50 : int64 50) by (unfold int64; lia).
  split.
  - apply (proj1 (@legacy_loop_rejects_out_of_range unit qexp
                    (uniform_model [fin 1; fin 2; fin 3]) [[0; 1]]%Z None
                    4 3 2 3%nat _ _ (init_world tt [5%nat]) H3 H2 Hlen
                    eq_refl Hall)).
    right. simpl. lia.
  - apply (proj2 (@legacy_loop_rejects_out_of_range unit qexp
                    (uniform_model [fin 1; fin 2; fin 3]) [[0; 1]]%Z None
                    4 2 50 3%nat _ _ (init_world tt [5%nat]) H2 H50 Hlen
                    eq_refl Hall)).
    + simpl. lia.
    + right. simpl. lia.
Defined.

(** ** Temperature and top-k *)

Lemma div_scores_map (t : Q) (scores : matrix score) :
  div_scores t scores = map (map (div_score t)) scores.
Proof. reflexivity. Qed.

Lemma score_ltb_div (t : Q) (a b : score) :
  0 < t -> score_ltb (div_score t a) (div_score t b) = score_ltb a b.
Proof.
  intro Ht. destruct a as [|x], b as [|y]; try reflexivity. simpl. f_equal.
  apply Bool.eq_iff_eq_true. rewrite !Qle_bool_iff. unfold Qdiv.
  apply Qmult_le_r. now apply Qinv_lt_0_compat.
Qed.

Section Monotone.

Variable f : score -> score.
Hypothesis f_order : forall a b, score_ltb (f a) (f b) = score_ltb a b.

Lemma insert_desc_map (x : score * Z) (l : list (score * Z)) :
  insert_desc ((on_score f) x) (map (on_score f) l) = map (on_score f) (insert_desc x l).
Proof.
  induction l as [|y l IH]; [reflexivity|]. cbn [map insert_desc].
  unfold on_score at 1 2. cbn [fst]. rewrite f_order.
  destruct (score_ltb (fst x) (fst y)); cbn [map]; [|reflexivity].
  f_equal. exact IH.
Qed.

Lemma sort_desc_map (l : list (score * Z)) :
  sort_desc (map (on_score f) l) = map (on_score f) (sort_desc l).
Proof.
  unfold sort_desc. induction l as [|x l IH]; [reflexivity|].
  cbn [map fold_right]. rewrite IH. apply insert_desc_map.
Qed.

Lemma combine_map_fst (l : list score) (l2 : list Z) :
  combine (map f l) l2 = map (on_score f) (combine l l2).
Proof.
  revert l2. induction l as [|a l IH]; intros [|b l2]; try reflexivity.
  cbn [map combine]. f_equal. apply IH.
Qed.

Lemma topk_row_map (k : Z) (row : list score) :
  topk_row k (map f row)
  = rbind (topk_row k row) (fun r => Ok (map f (fst r), snd r)).
Proof.
  unfold topk_row, enumerate. rewrite length_map.
  destruct ((k <? 0)%Z || (Z.of_nat (length row) <? k)%Z); [reflexivity|].
  cbn [rbind]. f_equal.
  rewrite combine_map_fst, sort_desc_map, firstn_map.
  rewrite (surjective_pairing (List.split (map (on_score f) _))).
  rewrite !split_fst, !split_snd, !map_map. reflexivity.
Qed.

Lemma topk_map (k : Z) (scores : matrix score) :
  topk (map (map f) scores) k
  = rbind (topk scores k) (fun r => Ok (map (map f) (fst r), snd r)).
Proof.
  unfold topk.
  assert (H : rmap_list (topk_row k) (map (map f) scores)
              = rbind (rmap_list (topk_row k) scores)
                  (fun rs => Ok (map (fun r => (map f (fst r), snd r)) rs))).
  { induction scores as [|row scores IH]; [reflexivity|].
    cbn [map rmap_list]. rewrite topk_row_map, IH.
    destruct (topk_row k row) as [r|e]; [|reflexivity]. cbn [rbind].
    destruct (rmap_list (topk_row k) scores) as [rs|e]; reflexivity. }
  rewrite H. destruct (rmap_list (topk_row k) scores) as [rs|e];
    [|reflexivity].
  cbn [rbind]. f_equal.
  rewrite (surjective_pairing (List.split (map _ rs))).
  unfold matrix. rewrite !split_fst, !split_snd, !map_map. reflexivity.
Qed.

End Monotone.

(** X8. With [top_k] alone, dividing the scores by a positive temperature
    (lines 186-187) does not change which tokens are kept: filtering the
    divided scores gives the indices that filtering the scores gives,
    with the kept scores divided, and fails exactly when filtering the
    scores fails (scores as exact numbers). *)
Theorem temperature_keeps_top_k_indices (fexp : arith) (t : Q)
  (scores : matrix score) (k m : Z) :
  0 < t ->
  top_k_top_p_filtering fexp (div_scores t scores) (PyInt k) PyNone (PyInt m)
  = rbind (top_k_top_p_filtering fexp scores (PyInt k) PyNone (PyInt m))
      (fun r => Ok (div_scores t (fst r), snd r)).
Proof.
  intro Ht. unfold top_k_top_p_filtering.
  destruct (validate_top_k_top_p_min_tokens_to_keep (PyInt k) PyNone (PyInt m))
    as [[]|e]; [|reflexivity].
  cbn [rbind].
  assert (Hw : width (div_scores t scores) = width scores).
  { destruct scores as [|row scores]; [reflexivity|]. simpl.
    now rewrite length_map. }
  rewrite Hw. destruct (width scores <? m)%Z.
  - unfold input_value_and_indices. cbn [rbind fst snd]. rewrite Hw.
    do 2 f_equal. rewrite div_scores_map, map_map. reflexivity.
  - unfold filter_by_top_k. rewrite Hw, !div_scores_map.
    apply topk_map. intros a b. now apply score_ltb_div.
Qed.

Lemma temperature_keeps_top_k_indices_witness :
  top_k_top_p_filtering qexp (div_scores (1 # 2) sc5) (PyInt 2) PyNone (PyInt 1)
  = rbind (top_k_top_p_filtering qexp sc5 (PyInt 2) PyNone (PyInt 1))
      (fun r => Ok (div_scores (1 # 2) (fst r), snd r))
  /\ top_k_top_p_filtering qexp sc5 (PyInt 2) PyNone (PyInt 1)
     = Ok ([[fin 8; fin 5]], [[3; 1]]%Z).
Proof.
  split.
  - apply (@temperature_keeps_top_k_indices qexp (1 # 2) sc5 2 1).
    reflexivity.
  - vm_compute. reflexivity.
Defined.

(** ** The model-driven loops return full rows *)

Lemma cat_grown_rows (input_ids : matrix Z) (cols : list (matrix Z)) (L : Z) :
  Forall (fun r => Z.of_nat (length r) = L) input_ids ->
  Forall (fun c => one_token c /\ length c = length input_ids) cols ->
  exists out,
    cat (input_ids :: cols) = Ok out
    /\ Forall2 (full_row (L + Z.of_nat (length cols))) input_ids out.
Proof.
  intros Hrows Hcols. cbn [cat].
  destruct (@cat_from_total _ cols input_ids) as [out Hout].
  { eapply Forall_impl; [|exact Hcols]. now intros c [_ H]. }
  exists out. split; [exact Hout|].
  pose proof Hout as Hw. apply cat_from_width in Hw.
  2:{ eapply Forall_impl; [|exact Hcols]. now intros c [H _]. }
  apply cat_from_prefix in Hout.
  pose proof (Forall2_and Hout Hw) as Hboth. clear Hout Hw Hcols.
  induction Hboth as [|r o ids out' [[suf [-> _]] Hlen] _ IH]; constructor.
  - split; [now exists suf|].
    inversion Hrows; subst. rewrite Hlen. lia.
  - apply IH. now inversion Hrows.
Qed.

Lemma argmax_row_total (row : list score) :
  row <> [] -> exists i, argmax_row row = Ok i.
Proof.
  intro H. unfold argmax_row.
  pose proof (sort_desc_length (enumerate row)) as Hl.
  rewrite enumerate_length in Hl.
  destruct (sort_desc (enumerate row)) as [|[v i] l].
  - destruct row; [congruence | discriminate].
  - eauto.
Qed.

Lemma rmap_list_length {A B} (f : A -> result B) (l : list A) (bs : list B) :
  rmap_list f l = Ok bs -> length bs = length l.
Proof.
  intro H. apply rmap_list_ok in H.
  induction H; simpl; congruence.
Qed.

Section ModelDriven.

Context {M : Type}.
Variable start_ids : option (list Z).

Section Greedy.

Variable model : model_fn M score.
Hypothesis model_rows : one_row_per_sequence model.
Hypothesis model_nonempty : nonempty_rows model.

Lemma sample_greedy_round_total (c : Z) (st : greedy_state) (w : world M) :
  Forall (fun r => r <> []) (gs_scores st) ->
  exists st' w' inputs,
    sample_greedy_round model start_ids c st w = (Ok st', w')
    /\ gs_tokens st' = gs_tokens st ++ [column inputs]
    /\ length inputs = length (gs_scores st)
    /\ Forall (fun r => r <> []) (gs_scores st')
    /\ length (gs_scores st') = length (gs_scores st)
    /\ length (w_calls w') = S (length (w_calls w))
    /\ w_rng w' = w_rng w.
Proof.
  intro Hne. unfold sample_greedy_round.
  destruct (@rmap_list_total _ _ argmax_row (gs_scores st)) as [inputs Hin].
  { eapply Forall_impl; [|exact Hne]. intros r Hr. now apply argmax_row_total. }
  rewrite Hin, bind_lift_run.
  destruct (forward_run model (column inputs) [c] start_ids w)
    as [out [w' [Hf [Ho [Hc Hr]]]]].
  rewrite (@bind_ok_run _ _ _ _ _ _ _ _ Hf).
  do 3 eexists. split; [reflexivity|]. cbn [gs_tokens gs_scores].
  pose proof (rmap_list_length _ _ Hin) as Hlen.
  repeat split; auto.
  - subst out. apply model_nonempty.
  - subst out. rewrite model_rows. unfold column. rewrite length_map.
    exact Hlen.
  - rewrite Hc, length_app. simpl. lia.
Qed.

Lemma sample_greedy_iter_total (input_ids : matrix Z) (scores : matrix score)
  (n : nat) (w : world M) :
  Forall (fun r => r <> []) scores ->
  length scores = length input_ids ->
  exists st w' cols,
    sample_greedy_iter model start_ids (width input_ids)
      {| gs_tokens := [input_ids]; gs_scores := scores |} n w = (Ok st, w')
    /\ gs_tokens st = input_ids :: cols
    /\ length cols = n
    /\ Forall (fun c => one_token c /\ length c = length input_ids) cols
    /\ Forall (fun r => r <> []) (gs_scores st)
    /\ length (gs_scores st) = length input_ids
    /\ length (w_calls w') = (length (w_calls w) + n)%nat
    /\ w_rng w' = w_rng w.
Proof.
  intros Hne Hlen. unfold sample_greedy_iter.
  induction n as [|n [st [w1 [cols [Hrun [Ht [Hn [Hc [Hs [Hl [Hw Hr]]]]]]]]]]].
  - exists {| gs_tokens := [input_ids]; gs_scores := scores |}, w, [].
    cbn [for_range gs_tokens gs_scores length]. rewrite Nat.add_0_r.
    repeat split; auto.
  - cbn [for_range]. rewrite (@bind_ok_run _ _ _ _ _ _ _ _ Hrun).
    destruct (sample_greedy_round_total (width input_ids + Z.of_nat n)%Z st w1
                Hs)
      as [st' [w' [inputs [Hround [Ht' [Hi [Hs' [Hl' [Hw' Hr']]]]]]]]].
    exists st', w', (cols ++ [column inputs]).
    split; [exact Hround|]. rewrite Ht', Ht, length_app. cbn [length].
    repeat split; auto; try lia; try congruence.
    apply Forall_app. split; [exact Hc|]. constructor; [|constructor].
    split; [apply one_token_column|].
    unfold column. rewrite length_map. congruence.
Qed.

End Greedy.

Section Tokens.

Variable model : model_fn M Z.
Hypothesis model_rows : one_row_per_sequence model.
Hypothesis model_nonempty : nonempty_rows model.

Lemma sample_tokens_iter_total (input_ids next : matrix Z) (n : nat)
  (w : world M) :
  Forall (fun r => r <> []) next ->
  length next = length input_ids ->
  exists st w' cols,
    sample_tokens_iter model start_ids (width input_ids)
      {| ts_tokens := [input_ids]; ts_next_tokens := next |} n w = (Ok st, w')
    /\ ts_tokens st = input_ids :: cols
    /\ length cols = n
    /\ Forall (fun c => one_token c /\ length c = length input_ids) cols
    /\ Forall (fun r => r <> []) (ts_next_tokens st)
    /\ length (ts_next_tokens st) = length input_ids
    /\ length (w_calls w') = (length (w_calls w) + n)%nat
    /\ w_rng w' = w_rng w.
Proof.
  intros Hne Hlen. unfold sample_tokens_iter.
  induction n as [|n [st [w1 [cols [Hrun [Ht [Hn [Hc [Hs [Hl [Hw Hr]]]]]]]]]]].
  - exists {| ts_tokens := [input_ids]; ts_next_tokens := next |}, w, [].
    cbn [for_range ts_tokens ts_next_tokens length]. rewrite Nat.add_0_r.
    repeat split; auto.
  - cbn [for_range]. rewrite (@bind_ok_run _ _ _ _ _ _ _ _ Hrun).
    cbv beta iota. unfold sample_tokens_round.
    destruct (forward_run model (last_col (ts_next_tokens st))
                [(width input_ids + Z.of_nat n)%Z] start_ids w1)
      as [out [w' [Hf [Ho [Hc' Hr']]]]].
    rewrite (@bind_ok_run _ _ _ _ _ _ _ _ Hf).
    exists {| ts_tokens := ts_tokens st ++ [last_col (ts_next_tokens st)];
              ts_next_tokens := out |}, w',
      (cols ++ [last_col (ts_next_tokens st)]).
    split; [reflexivity|]. cbn [ts_tokens ts_next_tokens].
    rewrite Ht, length_app. cbn [length].
    assert (Hlc : length (last_col (ts_next_tokens st)) = length input_ids).
    { unfold last_col. rewrite length_map. exact Hl. }
    repeat split; auto; try lia.
    + apply Forall_app. split; [exact Hc|]. constructor; [|constructor].
      split; [now apply one_token_last_col | exact Hlc].
    + subst out. apply model_nonempty.
    + subst out. rewrite model_rows. exact Hlc.
    + rewrite Hc', length_app. simpl. lia.
    + congruence.
Qed.

End Tokens.

End ModelDriven.

(** X9. [sample_greedy] with a model that answers every sequence with one
    non-empty row of scores: the call returns, every returned row is the
    prompt row followed by generated tokens and has
    [max(sequence_length, L0)] entries, nothing is drawn, and the model is
    run once for the prompt and once more per generated token: the scores
    of the last run are never used (lines 63-71 have no break). *)
Theorem sample_greedy_returns_full_rows {M} (model : model_fn M score)
  (input_ids : matrix Z) (start_ids : option (list Z)) (sequence_length : Z)
  (w : world M) :
  one_row_per_sequence model ->
  nonempty_rows model ->
  Forall (fun r => Z.of_nat (length r) = width input_ids) input_ids ->
  exists out w',
    sample_greedy model input_ids start_ids sequence_length w = (Ok out, w')
    /\ Forall2 (full_row (Z.max sequence_length (width input_ids)))
         input_ids out
    /\ length (w_calls w')
       = (length (w_calls w) + 1
          + Z.to_nat (sequence_length - width input_ids))%nat
    /\ w_rng w' = w_rng w.
Proof.
  intros Hrows Hne Hin. unfold sample_greedy.
  destruct (forward_run model input_ids (arange (width input_ids)) start_ids w)
    as [sc [w1 [Hf [Ho [Hc Hr]]]]].
  rewrite (@bind_ok_run _ _ _ _ _ _ _ _ Hf).
  destruct (@sample_greedy_iter_total M start_ids model Hrows Hne input_ids sc
              (Z.to_nat (sequence_length - width input_ids)) w1)
    as [st [w2 [cols [Hrun [Ht [Hn [Hcols [_ [_ [Hw Hr2]]]]]]]]]].
  { subst sc. apply Hne. }
  { subst sc. apply Hrows. }
  rewrite (@bind_ok_run _ _ _ _ _ _ _ _ Hrun), Ht.
  destruct (cat_grown_rows Hin Hcols) as [out [Hout Hfull]].
  exists out, w2. unfold lift. rewrite Hout. split; [reflexivity|].
  split; [|split].
  - replace (Z.max sequence_length (width input_ids))
      with (width input_ids + Z.of_nat (length cols))%Z; [exact Hfull|].
    pose proof (width_nonneg input_ids). lia.
  - rewrite Hw, Hc, length_app. simpl. lia.
  - congruence.
Qed.

Lemma sample_greedy_returns_full_rows_witness :
  exists out w',
    sample_greedy (uniform_model [fin 1; fin 5; fin 2]) [[0; 2]; [2; 0]]%Z None
      4 (init_world tt [])
    = (Ok out, w')
    /\ Forall2 (full_row (Z.max 4 (width [[0; 2]; [2; 0]]%Z)))
         [[0; 2]; [2; 0]]%Z out
    /\ length (w_calls w')
       = (length (w_calls (init_world tt [])) + 1
          + Z.to_nat (4 - width [[0; 2]; [2; 0]]%Z))%nat
    /\ w_rng w' = w_rng (init_world tt []).
Proof.
  apply (@sample_greedy_returns_full_rows unit
           (uniform_model [fin 1; fin 5; fin 2]) [[0; 2]; [2; 0]]%Z None 4
           (init_world tt [])).
  - intros ms tokens c s. apply length_map.
  - intros ms tokens c s. simpl. apply Forall_map, Forall_forall.
    intros r _. discriminate.
  - repeat constructor.
Defined.

(** X10. [sample_tokens] with a model that answers every sequence with one
    non-empty row of tokens: the call returns, every returned row is the
    prompt row followed by one token per round (the last token of the
    model's answer, line 42) and has [max(sequence_length, L0)] entries,
    and the model is run once for the prompt and once more per round, so
    its last answer is never used. *)
Theorem sample_tokens_returns_full_rows {M} (model : model_fn M Z)
  (input_ids : matrix Z) (start_ids : option (list Z)) (sequence_length : Z)
  (w : world M) :
  one_row_per_sequence model ->
  nonempty_rows model ->
  Forall (fun r => Z.of_nat (length r) = width input_ids) input_ids ->
  exists out w',
    sample_tokens model input_ids start_ids sequence_length w = (Ok out, w')
    /\ Forall2 (full_row (Z.max sequence_length (width input_ids)))
         input_ids out
    /\ length (w_calls w')
       = (length (w_calls w) + 1
          + Z.to_nat (sequence_length - width input_ids))%nat
    /\ w_rng w' = w_rng w.
Proof.
  intros Hrows Hne Hin. unfold sample_tokens.
  destruct (forward_run model input_ids (arange (width input_ids)) start_ids w)
    as [sc [w1 [Hf [Ho [Hc Hr]]]]].
  rewrite (@bind_ok_run _ _ _ _ _ _ _ _ Hf).
  destruct (@sample_tokens_iter_total M start_ids model Hrows Hne input_ids sc
              (Z.to_nat (sequence_length - width input_ids)) w1)
    as [st [w2 [cols [Hrun [Ht [Hn [Hcols [_ [_ [Hw Hr2]]]]]]]]]].
  { subst sc. apply Hne. }
  { subst sc. apply Hrows. }
  rewrite (@bind_ok_run _ _ _ _ _ _ _ _ Hrun), Ht.
  destruct (cat_grown_rows Hin Hcols) as [out [Hout Hfull]].
  exists out, w2. unfold lift. rewrite Hout. split; [reflexivity|].
  split; [|split].
  - replace (Z.max sequence_length (width input_ids))
      with (width input_ids + Z.of_nat (length cols))%Z; [exact Hfull|].
    pose proof (width_nonneg input_ids). lia.
  - rewrite Hw, Hc, length_app. simpl. lia.
  - congruence.
Qed.

Lemma sample_tokens_returns_full_rows_witness :
  exists out w',
    sample_tokens (fun (m : unit) tokens _ _ => (m, map (fun _ => [4; 9]%Z) tokens))
      [[0; 2]; [2; 0]]%Z None 4 (init_world tt [])
    = (Ok out, w')
    /\ Forall2 (full_row (Z.max 4 (width [[0; 2]; [2; 0]]%Z)))
         [[0; 2]; [2; 0]]%Z out
    /\ length (w_calls w')
       = (length (w_calls (init_world tt [])) + 1
          + Z.to_nat (4 - width [[0; 2]; [2; 0]]%Z))%nat
    /\ w_rng w' = w_rng (init_world tt []).
Proof.
  apply (@sample_tokens_returns_full_rows unit
           (fun (m : unit) tokens _ _ => (m, map (fun _ => [4; 9]%Z) tokens))
           [[0; 2]; [2; 0]]%Z None 4 (init_world tt [])).
  - intros ms tokens c s. apply length_map.
  - intros ms tokens c s. simpl. apply Forall_map, Forall_forall.
    intros r _. discriminate.
  - repeat constructor.
Defined.

(** ** The greedy choice *)

Lemma argmax_row_maximum (row : list score) (i : Z) :
  argmax_row row = Ok i -> picks_maximum row i.
Proof.
  unfold argmax_row. intro H.
  pose proof (sort_desc_sorted (enumerate row)) as Hs.
  pose proof (sort_desc_perm (enumerate row)) as Hp.
  destruct (sort_desc (enumerate row)) as [|[v t] l] eqn:E; [discriminate|].
  injection H as ->. exists v. split.
  - assert (Hin : In (v, i) (enumerate row)).
    { eapply Permutation_in; [exact Hp | now left]. }
    apply in_combine_arange in Hin. destruct Hin as [Hi Hn].
    rewrite <- (Z2Nat.id i Hi). now apply lookup_nth_error.
  - intros v' Hv'. apply In_nth_error in Hv'. destruct Hv' as [j Hj].
    apply in_enumerate in Hj.
    eapply Permutation_in in Hj; [|symmetry; exact Hp].
    exact (desc_head Hs Hj).
Qed.

(** X11. A round of the greedy loop that completes (lines 66-71) appends
    one token per sequence, each the position of a score that no score of
    that sequence's row exceeds, runs the model once on exactly these
    tokens at cache position [cur_len], and takes the model's answer as
    the next scores. *)
Theorem greedy_round_feeds_a_maximum {M} (model : model_fn M score)
  (start_ids : option (list Z)) (cur_len : Z) (st st' : greedy_state)
  (w w' : world M) :
  sample_greedy_round model start_ids cur_len st w = (Ok st', w') ->
  exists inputs,
    gs_tokens st' = gs_tokens st ++ [column inputs]
    /\ Forall2 picks_maximum (gs_scores st) inputs
    /\ w_calls w' = w_calls w ++
         [{| fc_tokens := column inputs; fc_cache_ids := [cur_len];
             fc_start_ids := start_ids |}]
    /\ gs_scores st'
       = snd (model (w_model w) (column inputs) [cur_len] start_ids).
Proof.
  unfold sample_greedy_round. intro H.
  apply bind_ok_inv in H. destruct H as [inputs [w1 [H1 H]]].
  apply lift_ok_inv in H1. destruct H1 as [H1 ->].
  destruct (forward_run model (column inputs) [cur_len] start_ids w)
    as [out [w2 [Hf [Ho [Hc _]]]]].
  rewrite (@bind_ok_run _ _ _ _ _ _ _ _ Hf) in H.
  apply ret_ok_inv in H. destruct H as [-> ->].
  exists inputs. cbn [gs_tokens gs_scores]. repeat split; auto.
  apply rmap_list_ok in H1. eapply Forall2_impl; [|exact H1].
  intros row t. apply argmax_row_maximum.
Qed.

Lemma greedy_round_feeds_a_maximum_witness :
  sample_greedy_round (uniform_model [fin 1; fin 5; fin 2]) None 1
    {| gs_tokens := [[[0]]]%Z; gs_scores := [[fin 3; fin 3; fin 9]] |}
    (init_world tt [])
  = (Ok {| gs_tokens := [[[0]]; [[2]]]%Z;
           gs_scores := [[fin 1; fin 5; fin 2]] |},
     {| w_model := tt;
        w_calls := [{| fc_tokens := [[2]]%Z; fc_cache_ids := [1%Z];
                       fc_start_ids := None |}];
        w_rng := [] |})
  /\ exists inputs,
       [[[0]]; [[2]]]%Z = [[[0]]]%Z ++ [column inputs]
       /\ Forall2 picks_maximum [[fin 3; fin 3; fin 9]] inputs
       /\ [{| fc_tokens := [[2]]%Z; fc_cache_ids := [1%Z];
              fc_start_ids := None |}]
          = [] ++ [{| fc_tokens := column inputs; fc_cache_ids := [1%Z];
                      fc_start_ids := None |}]
       /\ [[fin 1; fin 5; fin 2]]
          = snd (uniform_model [fin 1; fin 5; fin 2] tt (column inputs)
                   [1%Z] None).
Proof.
  assert (E : sample_greedy_round (uniform_model [fin 1; fin 5; fin 2]) None 1
                {| gs_tokens := [[[0]]]%Z;
                   gs_scores := [[fin 3; fin 3; fin 9]] |}
                (init_world tt [])
              = (Ok {| gs_tokens := [[[0]]; [[2]]]%Z;
                       gs_scores := [[fin 1; fin 5; fin 2]] |},
                 {| w_model := tt;
                    w_calls := [{| fc_tokens := [[2]]%Z;
                                   fc_cache_ids := [1%Z];
                                   fc_start_ids := None |}];
                    w_rng := [] |}))
    by (vm_compute; reflexivity).
  split; [exact E|].
  exact (greedy_round_feeds_a_maximum _ _ _ _ _ E).
Defined.

(** ** What the llama loop can draw *)

Lemma Forall2_map_self {A B} (R : A -> B -> Prop) (f : A -> B) (l : list A) :
  (forall a, R a (f a)) -> Forall2 R l (map f l).
Proof. intro H. induction l; simpl; constructor; auto. Qed.

Lemma firstn_nth_error {A} (n j : nat) (l : list A) (x : A) :
  nth_error (firstn n l) j = Some x -> nth_error l j = Some x.
Proof.
  revert n l. induction j as [|j IH]; intros [|n] [|a l] H; simpl in *;
    try discriminate; auto.
  eapply IH; eassumption.
Qed.

Lemma enumerate_lookup (row : list score) (v : score) (t : Z) :
  In (v, t) (enumerate row) -> lookup row t = Ok v.
Proof.
  intro H. apply in_combine_arange in H. destruct H as [Ht Hn].
  rewrite <- (Z2Nat.id t Ht). now apply lookup_nth_error.
Qed.

Lemma sorted_pairs_lookup (row : list score) (l : list (score * Z))
  (j : nat) (v : score) (t : Z) :
  (forall x, In x l -> In x (enumerate row)) ->
  nth_error (map fst l) j = Some v -> nth_error (map snd l) j = Some t ->
  lookup row t = Ok v.
Proof.
  intros Hl Hv Ht. rewrite nth_error_map in Hv, Ht.
  destruct (nth_error l j) as [[v' t']|] eqn:E; [|discriminate].
  cbn [option_map fst snd] in Hv, Ht. injection Hv as <-. injection Ht as <-.
  apply enumerate_lookup, Hl. eapply nth_error_In; eassumption.
Qed.

Lemma sort_desc_in (row : list score) (x : score * Z) :
  In x (sort_desc (enumerate row)) -> In x (enumerate row).
Proof. apply Permutation_in, sort_desc_perm. Qed.

Lemma mask_from_finite (n : Z) (l : list score) (j : nat) (q : Q) :
  nth_error (mask_from n l) j = Some (Fin q) -> nth_error l j = Some (Fin q).
Proof.
  intro H.
  assert (Hj : (j < length l)%nat).
  { rewrite <- (mask_from_length n l). apply nth_error_Some. congruence. }
  rewrite mask_from_nth in H by exact Hj.
  destruct (Z.of_nat j <? n)%Z; [exact H | discriminate].
Qed.

Lemma arange_nth_error (n : Z) (j : nat) (t : Z) :
  nth_error (arange n) j = Some t -> t = Z.of_nat j.
Proof.
  unfold arange. rewrite nth_error_map. intro H.
  destruct (nth_error (seq 0 (Z.to_nat n)) j) as [i|] eqn:E; [|discriminate].
  injection H as <-. apply nth_error_In in E as Hin.
  assert (Hlt : (j < length (seq 0 (Z.to_nat n)))%nat)
    by (apply nth_error_Some; congruence).
  rewrite length_seq in Hlt.
  rewrite nth_error_nth' with (d := 0%nat) in E by now rewrite length_seq.
  rewrite seq_nth in E by exact Hlt. injection E as <-. reflexivity.
Qed.

Lemma identity_pairs (scores : matrix score) :
  exists rs,
    fst (input_value_and_indices scores) = map fst rs
    /\ snd (input_value_and_indices scores) = map snd rs
    /\ Forall2 pairs_agree scores rs.
Proof.
  exists (map (fun row => (row, arange (width scores))) scores).
  unfold input_value_and_indices. cbn [fst snd]. rewrite !map_map.
  cbn [fst snd]. split; [now rewrite map_id|]. split; [reflexivity|].
  apply Forall2_map_self. intros row j q t Hv Ht. cbn [fst snd] in Hv, Ht.
  apply arange_nth_error in Ht. subst t. now apply lookup_nth_error.
Qed.

Lemma top_k_pairs (scores : matrix score) (K : Z) (cs : matrix score)
  (ci : matrix Z) :
  topk scores K = Ok (cs, ci) ->
  exists rs,
    cs = map fst rs /\ ci = map snd rs /\ Forall2 pairs_agree scores rs.
Proof.
  unfold topk. intro H. apply rbind_ok in H. destruct H as [rs [Hrs H]].
  injection H as H. exists rs.
  assert (Hs : (cs, ci) = (map fst rs, map snd rs)).
  { unfold matrix in *. rewrite <- H, (surjective_pairing (List.split rs)).
    now rewrite split_fst, split_snd. }
  injection Hs as -> ->. split; [reflexivity|]. split; [reflexivity|].
  apply rmap_list_ok in Hrs. eapply Forall2_impl; [|exact Hrs].
  intros row [vals idxs] Hr j q t Hv Ht. cbn [fst snd] in Hv, Ht.
  apply topk_row_ok_inv in Hr. destruct Hr as [-> ->].
  unfold topk_val in Hv. unfold topk_idx in Ht.
  eapply sorted_pairs_lookup; [|exact Hv|exact Ht].
  intros x Hx. apply sort_desc_in. eapply firstn_in; exact Hx.
Qed.

Lemma top_p_pairs (fexp : arith) (scores : matrix score) (m : Z) (p : Q)
  (cs : matrix score) (ci : matrix Z) :
  filter_by_top_p fexp scores m p None = Ok (cs, ci) ->
  exists rs,
    cs = map fst rs /\ ci = map snd rs /\ Forall2 pairs_agree scores rs.
Proof.
  intro H.
  destruct (py_max (map (fun row => n_to_keep_row fexp m (width scores) p
                                      (fst (sort_row row))) scores))
    as [w|e] eqn:E.
  - rewrite (filter_by_top_p_whole _ _ _ _ E) in H. injection H as <- <-.
    exists (map (fun row =>
                   (mask_from (n_to_keep_row fexp m (width scores) p
                                 (fst (sort_row row)))
                      (firstn (Z.to_nat w) (fst (sort_row row))),
                    firstn (Z.to_nat w) (snd (sort_row row)))) scores).
    rewrite !map_map. cbn [fst snd]. split; [reflexivity|].
    split; [reflexivity|].
    apply Forall2_map_self. intros row j q t Hv Ht. cbn [fst snd] in Hv, Ht.
    apply mask_from_finite, firstn_nth_error in Hv.
    apply firstn_nth_error in Ht.
    unfold sort_row in Hv, Ht. rewrite split_fst in Hv. rewrite split_snd in Ht.
    eapply sorted_pairs_lookup; [|exact Hv|exact Ht].
    intros x. apply sort_desc_in.
  - exfalso. unfold filter_by_top_p in H. cbn [rbind] in H.
    rewrite !map_map in H. rewrite E in H. discriminate.
Qed.

Lemma filtering_pairs (fexp : arith) (scores : matrix score)
  (top_k top_p : pyobj) (m : Z) (cs : matrix score) (ci : matrix Z) :
  top_k = PyNone \/ top_p = PyNone ->
  top_k_top_p_filtering fexp scores top_k top_p (PyInt m) = Ok (cs, ci) ->
  exists rs,
    cs = map fst rs /\ ci = map snd rs /\ Forall2 pairs_agree scores rs.
Proof.
  intros Hone H. unfold top_k_top_p_filtering in H.
  apply rbind_ok in H. destruct H as [[] [_ H]].
  assert (Hid : Ok (input_value_and_indices scores) = Ok (cs, ci) ->
                exists rs, cs = map fst rs /\ ci = map snd rs
                           /\ Forall2 pairs_agree scores rs).
  { intro Hi.
    assert (Hi' : input_value_and_indices scores = (cs, ci)) by congruence.
    destruct (identity_pairs scores) as [rs [H1 [H2 H3]]].
    rewrite Hi' in H1, H2. cbn [fst snd] in H1, H2. exists rs. auto. }
  destruct Hone as [-> | ->].
  - destruct top_p as [|z|p|s]; try (now apply Hid);
      destruct (width scores <? m)%Z; try (now apply Hid);
      try discriminate.
    eapply top_p_pairs; exact H.
  - destruct top_k as [|k|x|s]; try (now apply Hid);
      destruct (width scores <? m)%Z; try (now apply Hid);
      try discriminate.
    eapply top_k_pairs; exact H.
Qed.

(** Row by row: softmax of the kept scores, one draw, gather. *)
Lemma drawn_tokens_rows (fexp : arith) {A} (R : A -> Z -> Prop)
  (xs : list A) (rs : list (list score * list Z)) :
  Forall2 (fun x r => forall j q t,
             nth_error (fst r) j = Some (Fin q) ->
             nth_error (snd r) j = Some t -> R x t) xs rs ->
  forall {M} (w w' : world M) (pos inputs : list Z),
    multinomial (map (softmax_row fexp) (map fst rs)) w = (Ok pos, w') ->
    gather (map snd rs) pos = Ok inputs ->
    Forall2 R xs inputs.
Proof.
  induction 1 as [|x [vals idxs] xs rs Hr Hrs IH];
    intros M w w' pos inputs Hm Hg.
  - simpl in Hm. apply ret_ok_inv in Hm. destruct Hm as [-> _].
    simpl in Hg. injection Hg as <-. constructor.
  - simpl in Hm.
    apply bind_ok_inv in Hm. destruct Hm as [u [w1 [_ Hm]]].
    apply bind_ok_inv in Hm. destruct Hm as [j [w2 [Hj Hm]]].
    apply lift_ok_inv in Hj. destruct Hj as [Hj ->].
    apply bind_ok_inv in Hm. destruct Hm as [pos' [w3 [Hpos Hm]]].
    apply ret_ok_inv in Hm. destruct Hm as [-> _].
    simpl in Hg. apply rbind_ok in Hg. destruct Hg as [t [Ht Hg]].
    apply rbind_ok in Hg. destruct Hg as [ts [Hts Hg]]. injection Hg as <-.
    constructor; [|eapply IH; eassumption].
    apply multinomial_row_positive in Hj.
    destruct Hj as [ps [Hps [Hj0 [p [Hp Hpos0]]]]].
    destruct (softmax_positive_finite _ _ _ Hps Hp Hpos0) as [q Hq].
    apply lookup_ok_in in Ht as Hin. unfold lookup in Ht.
    replace (j <? 0)%Z with false in Ht by (symmetry; apply Z.ltb_ge; lia).
    destruct (nth_error idxs (Z.to_nat j)) as [t'|] eqn:Et; [|discriminate].
    injection Ht as ->. exact (Hr _ _ _ Hq Et).
Qed.

(** X12. The draw of the llama loop (lines 186-194) with at most one of
    [top_k] and [top_p] set: whenever it completes, the token drawn for a
    sequence has a finite score in that sequence's own row of (temperature
    divided) scores; a token whose score is minus infinity is never
    drawn. *)
Theorem llama_draws_tokens_of_finite_score {M} (fexp : arith)
  (top_k top_p : pyobj) (t : Q) (scores scaled : matrix score)
  (inputs : list Z) (w w' : world M) :
  top_k = PyNone \/ top_p = PyNone ->
  llama_sample fexp top_k top_p t scores w = (Ok (scaled, inputs), w') ->
  scaled = (if negb (Qeq_bool t 1) then div_scores t scores else scores)
  /\ Forall2 finite_at scaled inputs.
Proof.
  intros Hone H. unfold llama_sample in H.
  apply bind_ok_inv in H. destruct H as [[cs ci] [w1 [Hf H]]].
  apply lift_ok_inv in Hf. destruct Hf as [Hf ->].
  apply bind_ok_inv in H. destruct H as [pos [w1 [Hm H]]].
  apply bind_ok_inv in H. destruct H as [inp [w2 [Hg H]]].
  apply lift_ok_inv in Hg. destruct Hg as [Hg ->].
  apply ret_ok_inv in H. destruct H as [H _]. injection H as -> ->.
  split; [reflexivity|].
  destruct (@filtering_pairs _ _ _ _ _ _ _ Hone Hf) as [rs [-> [-> Hrs]]].
  cbn [fst snd] in Hm, Hg.
  eapply drawn_tokens_rows; [|exact Hm|exact Hg].
  eapply Forall2_impl; [|exact Hrs].
  intros row r Hr j q tok Hv Htok. exists q. exact (Hr _ _ _ Hv Htok).
Qed.

Lemma llama_draws_tokens_of_finite_score_witness :
  llama_sample qexp (PyInt 2) PyNone (1 # 2)
    [[NegInf; fin 5; fin 2]; [fin 4; NegInf; NegInf]] (init_world tt [3; 1]%nat)
  = (Ok (div_scores (1 # 2) [[NegInf; fin 5; fin 2]; [fin 4; NegInf; NegInf]],
         [2; 0]%Z),
     {| w_model := tt; w_calls := []; w_rng := [] |})
  /\ Forall2 finite_at
       (div_scores (1 # 2) [[NegInf; fin 5; fin 2]; [fin 4; NegInf; NegInf]])
       [2; 0]%Z.
Proof.
  assert (E : llama_sample qexp (PyInt 2) PyNone (1 # 2)
                [[NegInf; fin 5; fin 2]; [fin 4; NegInf; NegInf]]
                (init_world tt [3; 1]%nat)
              = (Ok (div_scores (1 # 2)
                       [[NegInf; fin 5; fin 2]; [fin 4; NegInf; NegInf]],
                     [2; 0]%Z),
                 {| w_model := tt; w_calls := []; w_rng := [] |}))
    by (vm_compute; reflexivity).
  split; [exact E|].
  exact (proj2 (@llama_draws_tokens_of_finite_score unit qexp (PyInt 2) PyNone
                  (1 # 2) _ _ _ _ _ (or_intror eq_refl) E)).
Defined.

(** ** Forward calls of the loops that break *)

Section ForRangeColumns.

Context {M St : Type}.
Variable stopped : St -> bool.
Variable body : Z -> St -> Comp M St.
Variable start : Z.
Variable st0 : St.
Variable cols : St -> nat.
Variable N : nat.
Variable Stop : nat -> St -> Prop.

(** A round appends one column; it either stops without running the
    model, or runs it once, and then only if a further round is due. *)
Hypothesis body_step : forall k st w st' w',
  stopped st = false ->
  body (start + Z.of_nat k)%Z st w = (Ok st', w') ->
  cols st' = S (cols st)
  /\ (stopped st' = true ->
      length (w_calls w') = length (w_calls w) /\ Stop k st')
  /\ (stopped st' = false ->
      length (w_calls w') = S (length (w_calls w)) /\ (S k < N)%nat).

Hypothesis start_running : stopped st0 = false.

Lemma for_range_columns (n : nat) (w w' : world M) (st : St) :
  for_range stopped body start st0 n w = (Ok st, w') ->
  (stopped st = true ->
   exists k, (k < n)%nat
             /\ cols st = (cols st0 + S k)%nat
             /\ length (w_calls w') = (length (w_calls w) + k)%nat
             /\ Stop k st)
  /\ (stopped st = false ->
      cols st = (cols st0 + n)%nat
      /\ length (w_calls w') = (length (w_calls w) + n)%nat
      /\ (n = 0%nat \/ (n < N)%nat)).
Proof.
  revert w' st. induction n as [|n IH]; intros w' st H.
  - simpl in H. apply ret_ok_inv in H. destruct H as [-> ->].
    split; [congruence|]. intros _. repeat split; auto; lia.
  - apply for_range_S in H. destruct H as [st1 [w1 [H1 H2]]].
    destruct (IH _ _ H1) as [IHs IHr].
    destruct H2 as [[Hs [-> ->]]|[Hs H2]].
    + split; [|congruence]. intros _.
      destruct (IHs Hs) as [k [Hk [Hc [Hw Hstop]]]].
      exists k. repeat split; auto; lia.
    + destruct (IHr Hs) as [Hc [Hw _]].
      destruct (body_step n Hs H2) as [Hc' [Hstop Hrun]].
      split; intro Hs'.
      * destruct (Hstop Hs') as [Hw' Hk]. exists n. repeat split; auto; lia.
      * destruct (Hrun Hs') as [Hw' Hn]. repeat split; lia.
Qed.

End ForRangeColumns.

Lemma sample_loop_round_step {M} (fexp : arith) (model : model_fn M score)
  (start_ids : option (list Z)) (sequence_length eos_token_id top_k : Z)
  (start : Z) (k : nat) (st st' : loop_state) (w w' : world M) :
  sample_loop_round fexp model start_ids sequence_length eos_token_id top_k
    (start + Z.of_nat k)%Z st w = (Ok st', w') ->
  length (lp_tokens st') = S (length (lp_tokens st))
  /\ (lp_stopped st' = true ->
      length (w_calls w') = length (w_calls w)
      /\ (Z.to_nat (sequence_length - start) <= S k)%nat)
  /\ (lp_stopped st' = false ->
      length (w_calls w') = S (length (w_calls w))
      /\ (S k < Z.to_nat (sequence_length - start))%nat).
Proof.
  intro H.
  pose proof (sample_loop_round_calls fexp model start_ids sequence_length
                eos_token_id top_k (start + Z.of_nat k)%Z st w) as Hc.
  rewrite H in Hc. cbn [fst snd] in Hc.
  apply sample_loop_round_inv in H.
  destruct H as [sc [tk [pos [inputs [w1 [_ [_ [_ [_ [Ht [Hs _]]]]]]]]]]].
  split; [rewrite Ht, length_app; simpl; lia|].
  destruct Hc as [[Hsame Hstop]|[st2 [tokens [Hok [Hns [_ Hcalls]]]]]].
  - split.
    + intro Hst. split; [now rewrite Hsame|].
      rewrite Hs in Hst. apply Z.leb_le in Hst. lia.
    + intro Hf. specialize (Hstop _ eq_refl). congruence.
  - injection Hok as <-. split; [congruence|]. intros _.
    split; [rewrite Hcalls, length_app; simpl; lia|].
    rewrite Hs in Hns. apply Z.leb_gt in Hns. lia.
Qed.

Lemma sample_loop_llama_round_step {M} (fexp : arith)
  (model : model_fn M score) (start_ids : option (list Z))
  (sequence_length eos_token_id : Z) (top_k top_p : pyobj) (t : Q)
  (start : Z) (k : nat) (st st' : llama_state) (w w' : world M) :
  sample_loop_llama_round fexp model start_ids sequence_length eos_token_id
    top_k top_p t (start + Z.of_nat k)%Z st w = (Ok st', w') ->
  length (ls_tokens st') = S (length (ls_tokens st))
  /\ (ls_stopped st' = true ->
      length (w_calls w') = length (w_calls w)
      /\ ((Z.to_nat (sequence_length - start) <= S k)%nat
          \/ forallb (fun d => d) (ls_done_flags st') = true))
  /\ (ls_stopped st' = false ->
      length (w_calls w') = S (length (w_calls w))
      /\ (S k < Z.to_nat (sequence_length - start))%nat).
Proof.
  intro H.
  pose proof (sample_loop_llama_round_calls fexp model start_ids
                sequence_length eos_token_id top_k top_p t
                (start + Z.of_nat k)%Z st w) as Hc.
  rewrite H in Hc. cbn [fst snd] in Hc.
  apply sample_loop_llama_round_inv in H.
  destruct H as [sc [w1 [_ [_ [col [_ [Ht [Hs _]]]]]]]].
  split; [rewrite Ht, length_app; simpl; lia|].
  destruct Hc as [[Hsame Hstop]|[st2 [tokens [Hok [Hns [_ Hcalls]]]]]].
  - split.
    + intro Hst. split; [now rewrite Hsame|].
      rewrite Hs in Hst. apply orb_true_iff in Hst.
      destruct Hst as [Hst|Hst]; [left | right; exact Hst].
      apply Z.leb_le in Hst. lia.
    + intro Hf. specialize (Hstop _ eq_refl). congruence.
  - injection Hok as <-. split; [congruence|]. intros _.
    split; [rewrite Hcalls, length_app; simpl; lia|].
    rewrite Hs in Hns. apply orb_false_iff in Hns. destruct Hns as [Hns _].
    apply Z.leb_gt in Hns. lia.
Qed.

(** X13. The two loops that break (lines 95-96 and 205-206) run the
    model once per generated column, the PREFILL call included.  When a
    token is to be generated and [simple_sample] returns, it has made
    [sequence_length - L0] forward calls; when [sample_llama] returns, its
    rows have grown by some [n] columns with
    [1 <= n <= sequence_length - L0], and it has made [n] forward
    calls. *)
Theorem breaking_loops_run_model_once_per_column {M} (fexp : arith)
  (model : model_fn M score) (input_ids : matrix Z)
  (start_ids : option (list Z)) (sequence_length eos_token_id : Z)
  (w : world M) :
  (width input_ids < sequence_length)%Z ->
  (forall top_k out w',
     simple_sample fexp model input_ids start_ids sequence_length
       eos_token_id top_k w = (Ok out, w') ->
     length (w_calls w')
     = (length (w_calls w)
        + Z.to_nat (sequence_length - width input_ids))%nat)
  /\ (forall top_k top_p temperature out w',
        sample_llama fexp model input_ids start_ids sequence_length
          eos_token_id top_k top_p temperature w = (Ok out, w') ->
        exists n,
          (1 <= n <= Z.to_nat (sequence_length - width input_ids))%nat
          /\ Forall2 (fun r o => length o = (length r + n)%nat) input_ids out
          /\ length (w_calls w') = (length (w_calls w) + n)%nat).
Proof.
  intro Hlt.
  set (N := Z.to_nat (sequence_length - width input_ids)).
  assert (HN : (1 <= N)%nat) by (unfold N; lia).
  split.
  - intros top_k out w' H. unfold simple_sample in H.
    destruct (forward_run model input_ids (arange (width input_ids))
                start_ids w) as [sc [w1 [Hf [_ [Hc _]]]]].
    rewrite (@bind_ok_run _ _ _ _ _ _ _ _ Hf) in H. unfold sample_loop in H.
    apply bind_ok_inv in H. destruct H as [st [w2 [Hrun Hcat]]].
    apply lift_ok_inv in Hcat. destruct Hcat as [_ ->].
    unfold sample_loop_iter in Hrun. fold N in Hrun.
    apply for_range_columns
      with (cols := fun st => length (lp_tokens st)) (N := N)
           (Stop := fun k _ => (N <= S k)%nat) in Hrun.
    + destruct Hrun as [Hs Hr].
      assert (Hl : length (w_calls w1) = S (length (w_calls w)))
        by (rewrite Hc, length_app; simpl; lia).
      destruct (lp_stopped st).
      * destruct (Hs eq_refl) as [k [Hk [_ [Hw Hstop]]]]. lia.
      * destruct (Hr eq_refl) as [_ [_ Hn]]. lia.
    + intros k s w0 s' w0' _ Hb. eapply sample_loop_round_step; exact Hb.
    + reflexivity.
  - intros top_k top_p temperature out w' H. unfold sample_llama in H.
    apply bind_ok_inv in H. destruct H as [[] [w0 [Hv H]]].
    apply lift_ok_inv in Hv. destruct Hv as [Hv ->].
    destruct (forward_run model input_ids (arange (width input_ids))
                start_ids w) as [sc [w1 [Hf [_ [Hc _]]]]].
    rewrite (@bind_ok_run _ _ _ _ _ _ _ _ Hf) in H.
    unfold sample_loop_llama in H. rewrite Hv, bind_lift_run in H.
    destruct (temperature_illegal temperature);
      [apply lift_ok_inv in H; destruct H; discriminate|].
    destruct temperature as [|z|t|s];
      try (apply lift_ok_inv in H; destruct H; discriminate).
    apply bind_ok_inv in H. destruct H as [st [w2 [Hrun Hcat]]].
    apply lift_ok_inv in Hcat. destruct Hcat as [Hcat ->]. fold N in Hrun.
    pose proof Hrun as Hhead. apply sample_loop_llama_iter_head in Hhead.
    destruct Hhead as [cols [Ht [Hone _]]].
    unfold sample_loop_llama_iter in Hrun.
    apply for_range_columns
      with (cols := fun st => length (ls_tokens st)) (N := N)
           (Stop := fun k st =>
                      (N <= S k)%nat
                      \/ forallb (fun d => d) (ls_done_flags st) = true)
        in Hrun.
    + destruct Hrun as [Hs Hr].
      assert (Hl : length (w_calls w1) = S (length (w_calls w)))
        by (rewrite Hc, length_app; simpl; lia).
      rewrite Ht in Hcat, Hs, Hr. cbn [cat] in Hcat.
      apply cat_from_width in Hcat; [|exact Hone].
      cbn [llama_init ls_tokens length] in Hs, Hr.
      exists (length cols). split; [|split; [exact Hcat|]].
      * destruct (ls_stopped st).
        -- destruct (Hs eq_refl) as [k [Hk [Hcols _]]]. lia.
        -- destruct (Hr eq_refl) as [Hcols [_ Hn]]. lia.
      * destruct (ls_stopped st).
        -- destruct (Hs eq_refl) as [k [Hk [Hcols [Hw _]]]]. lia.
        -- destruct (Hr eq_refl) as [Hcols [_ Hn]]. lia.
    + intros k s w0 s' w0' _ Hb. eapply sample_loop_llama_round_step; exact Hb.
    + reflexivity.
Qed.

Lemma breaking_loops_run_model_once_per_column_witness :
  length
    [{| fc_tokens := [[0; 2]]%Z; fc_cache_ids := [0; 1]%Z;
        fc_start_ids := None |};
     {| fc_tokens := [[2]]%Z; fc_cache_ids := [2]%Z;
        fc_start_ids := None |}]
  = (length (w_calls (init_world tt [1; 0; 3]%nat))
     + Z.to_nat (4 - width [[0; 2]]%Z))%nat
  /\ exists n,
       (1 <= n <= Z.to_nat (6 - width [[0; 2]; [2; 0]]%Z))%nat
       /\ Forall2 (fun r o : list Z => length o = (length r + n)%nat)
            [[0; 2]; [2; 0]]%Z [[0; 2; 2; 1]; [2; 0; 1; 1]]%Z
       /\ length
            [{| fc_tokens := [[0; 2]; [2; 0]]%Z; fc_cache_ids := [0; 1]%Z;
                fc_start_ids := None |};
             {| fc_tokens := [[2]; [1]]%Z; fc_cache_ids := [2]%Z;
                fc_start_ids := None |}]
          = (length (w_calls (init_world tt [1; 0; 0; 0; 1; 1]%nat)) + n)%nat.
Proof.
  assert (H4 : (width [[0; 2]]%Z < 4)%Z) by (simpl; lia).
  assert (H6 : (width [[0; 2]; [2; 0]]%Z < 6)%Z) by (simpl; lia).
  split.
  - apply (proj1 (@breaking_loops_run_model_once_per_column unit qexp
                    (uniform_model [fin 1; fin 5; fin 2]) [[0; 2]]%Z None
                    4 0 (init_world tt [1; 0; 3]%nat) H4)
             2%Z [[0; 2; 2; 1]]%Z
             {| w_model := tt;
                w_calls := [{| fc_tokens := [[0; 2]]%Z;
                               fc_cache_ids := [0; 1]%Z;
                               fc_start_ids := None |};
                            {| fc_tokens := [[2]]%Z; fc_cache_ids := [2]%Z;
                               fc_start_ids := None |}];
                w_rng := [3%nat] |}).
    vm_compute. reflexivity.
  - apply (proj2 (@breaking_loops_run_model_once_per_column unit qexp
                    (uniform_model [fin 1; fin 5; fin 2])
                    [[0; 2]; [2; 0]]%Z None 6 1
                    (init_world tt [1; 0; 0; 0; 1; 1]%nat) H6)
             (PyInt 2) PyNone (PyFloat 1) [[0; 2; 2; 1]; [2; 0; 1; 1]]%Z
             {| w_model := tt;
                w_calls := [{| fc_tokens := [[0; 2]; [2; 0]]%Z;
                               fc_cache_ids := [0; 1]%Z;
                               fc_start_ids := None |};
                            {| fc_tokens := [[2]; [1]]%Z;
                               fc_cache_ids := [2]%Z;
                               fc_start_ids := None |}];
                w_rng := [1; 1]%nat |}).
    vm_compute. reflexivity.
Defined.

(** ** The returned tokens and the tokens given to the model *)

Section Fed.

Context {M : Type}.
Variable start_ids : option (list Z).
Variable start : Z.

Lemma sample_tokens_iter_fed (model : model_fn M Z) (st0 : tokens_state)
  (n : nat) (w w' : world M) (st : tokens_state) :
  sample_tokens_iter model start_ids start st0 n w = (Ok st, w') ->
  exists decode,
    w_calls w' = w_calls w ++ decode
    /\ ts_tokens st = ts_tokens st0 ++ map fc_tokens decode.
Proof.
  unfold sample_tokens_iter. revert w' st.
  induction n as [|n IH]; intros w' st H.
  - simpl in H. apply ret_ok_inv in H. destruct H as [-> ->].
    exists []. now rewrite !app_nil_r.
  - apply for_range_S in H. destruct H as [st1 [w1 [H1 H2]]].
    destruct (IH _ _ H1) as [decode [Hc Ht]].
    destruct H2 as [[Hs _]|[_ H2]]; [discriminate|].
    unfold sample_tokens_round in H2.
    destruct (forward_run model (last_col (ts_next_tokens st1))
                [(start + Z.of_nat n)%Z] start_ids w1)
      as [out [w2 [Hf [_ [Hc2 _]]]]].
    rewrite (@bind_ok_run _ _ _ _ _ _ _ _ Hf) in H2.
    apply ret_ok_inv in H2. destruct H2 as [-> ->].
    eexists (decode ++ [_]). rewrite Hc2, Hc, <- app_assoc.
    split; [reflexivity|]. cbn [ts_tokens]. rewrite Ht, map_app, <- app_assoc.
    reflexivity.
Qed.

Lemma sample_greedy_iter_fed (model : model_fn M score) (st0 : greedy_state)
  (n : nat) (w w' : world M) (st : greedy_state) :
  sample_greedy_iter model start_ids start st0 n w = (Ok st, w') ->
  exists decode,
    w_calls w' = w_calls w ++ decode
    /\ gs_tokens st = gs_tokens st0 ++ map fc_tokens decode.
Proof.
  unfold sample_greedy_iter. revert w' st.
  induction n as [|n IH]; intros w' st H.
  - simpl in H. apply ret_ok_inv in H. destruct H as [-> ->].
    exists []. now rewrite !app_nil_r.
  - apply for_range_S in H. destruct H as [st1 [w1 [H1 H2]]].
    destruct (IH _ _ H1) as [decode [Hc Ht]].
    destruct H2 as [[Hs _]|[_ H2]]; [discriminate|].
    unfold sample_greedy_round in H2.
    apply bind_ok_inv in H2. destruct H2 as [inputs [w2 [Hi H2]]].
    apply lift_ok_inv in Hi. destruct Hi as [_ ->].
    destruct (forward_run model (column inputs) [(start + Z.of_nat n)%Z]
                start_ids w1) as [out [w2 [Hf [_ [Hc2 _]]]]].
    rewrite (@bind_ok_run _ _ _ _ _ _ _ _ Hf) in H2.
    apply ret_ok_inv in H2. destruct H2 as [-> ->].
    eexists (decode ++ [_]). rewrite Hc2, Hc, <- app_assoc.
    split; [reflexivity|]. cbn [gs_tokens]. rewrite Ht, map_app, <- app_assoc.
    reflexivity.
Qed.

Lemma sample_loop_iter_fed (fexp : arith) (model : model_fn M score)
  (sequence_length eos_token_id top_k : Z) (st0 : loop_state)
  (n : nat) (w w' : world M) (st : loop_state) :
  lp_stopped st0 = false ->
  sample_loop_iter fexp model start_ids sequence_length eos_token_id top_k
    start st0 n w = (Ok st, w') ->
  exists decode,
    w_calls w' = w_calls w ++ decode
    /\ (if lp_stopped st
        then exists last,
               lp_tokens st = lp_tokens st0 ++ map fc_tokens decode ++ [last]
        else lp_tokens st = lp_tokens st0 ++ map fc_tokens decode).
Proof.
  intro H0. unfold sample_loop_iter. revert w' st.
  induction n as [|n IH]; intros w' st H.
  - simpl in H. apply ret_ok_inv in H. destruct H as [-> ->].
    exists []. rewrite H0. now rewrite !app_nil_r.
  - apply for_range_S in H. destruct H as [st1 [w1 [H1 H2]]].
    destruct (IH _ _ H1) as [decode [Hc Ht]].
    destruct H2 as [[Hs [-> ->]]|[Hs H2]].
    + exists decode. auto.
    + rewrite Hs in Ht.
      pose proof (sample_loop_round_calls fexp model start_ids
                    sequence_length eos_token_id top_k
                    (start + Z.of_nat n)%Z st1 w1) as Hcalls.
      rewrite H2 in Hcalls. cbn [fst snd] in Hcalls.
      apply sample_loop_round_inv in H2.
      destruct H2
        as [sc [tk [pos [inputs [w2 [_ [_ [Hm [_ [Htok [Hstop Hfwd]]]]]]]]]]].
      destruct (lp_stopped st) eqn:Es.
      * exists decode.
        destruct Hcalls as [[Hsame _]|[st2 [tokens [Hok [Hns _]]]]].
        -- split; [congruence|]. exists (column inputs).
           rewrite Htok, Ht, <- app_assoc. reflexivity.
        -- injection Hok as <-. congruence.
      * specialize (Hfwd eq_refl).
        destruct (forward_run model (column inputs) [(start + Z.of_nat n)%Z]
                    start_ids w2) as [out [w3 [Hf [_ [Hc3 _]]]]].
        rewrite Hf in Hfwd. injection Hfwd as _ <-.
        destruct (silent_multinomial (M := M) (map (softmax_row fexp) (fst tk))
                    w1) as [Hsil _].
        rewrite Hm in Hsil. cbn [snd] in Hsil.
        eexists (decode ++ [_]). rewrite Hc3, Hsil, Hc, <- app_assoc.
        split; [reflexivity|]. rewrite Htok, Ht, map_app, <- app_assoc.
        reflexivity.
Qed.

End Fed.

(** X14. In the three legacy entry points the returned matrix is the
    prompt followed by the token tensors that were given to the model:
    whenever [sample_tokens] or [sample_greedy] returns, its forward calls
    are the PREFILL call and decode calls whose token tensors,
    concatenated after the prompt, are the returned matrix; whenever
    [simple_sample] returns after generating, the same holds with one
    last column that was sampled and not given to the model. *)
Theorem returned_tokens_were_given_to_the_model {M} (fexp : arith)
  (model_t : model_fn M Z) (model : model_fn M score) (input_ids : matrix Z)
  (start_ids : option (list Z)) (sequence_length : Z) (w : world M) :
  (forall out w',
     sample_tokens model_t input_ids start_ids sequence_length w
     = (Ok out, w') ->
     exists decode,
       w_calls w' = w_calls w ++ prefill_call input_ids start_ids :: decode
       /\ cat (input_ids :: map fc_tokens decode) = Ok out)
  /\ (forall out w',
        sample_greedy model input_ids start_ids sequence_length w
        = (Ok out, w') ->
        exists decode,
          w_calls w' = w_calls w ++ prefill_call input_ids start_ids :: decode
          /\ cat (input_ids :: map fc_tokens decode) = Ok out)
  /\ (forall eos_token_id top_k out w',
        (width input_ids < sequence_length)%Z ->
        simple_sample fexp model input_ids start_ids sequence_length
          eos_token_id top_k w = (Ok out, w') ->
        exists decode last,
          w_calls w' = w_calls w ++ prefill_call input_ids start_ids :: decode
          /\ cat (input_ids :: map fc_tokens decode ++ [last]) = Ok out).
Proof.
  split; [|split].
  - intros out w' H. unfold sample_tokens in H.
    destruct (forward_run model_t input_ids (arange (width input_ids))
                start_ids w) as [sc [w1 [Hf [_ [Hc _]]]]].
    rewrite (@bind_ok_run _ _ _ _ _ _ _ _ Hf) in H.
    apply bind_ok_inv in H. destruct H as [st [w2 [Hrun Hcat]]].
    apply lift_ok_inv in Hcat. destruct Hcat as [Hcat ->].
    apply sample_tokens_iter_fed in Hrun. destruct Hrun as [decode [Hd Ht]].
    exists decode. rewrite Hd, Hc, <- app_assoc. split; [reflexivity|].
    rewrite <- Hcat, Ht. reflexivity.
  - intros out w' H. unfold sample_greedy in H.
    destruct (forward_run model input_ids (arange (width input_ids))
                start_ids w) as [sc [w1 [Hf [_ [Hc _]]]]].
    rewrite (@bind_ok_run _ _ _ _ _ _ _ _ Hf) in H.
    apply bind_ok_inv in H. destruct H as [st [w2 [Hrun Hcat]]].
    apply lift_ok_inv in Hcat. destruct Hcat as [Hcat ->].
    apply sample_greedy_iter_fed in Hrun. destruct Hrun as [decode [Hd Ht]].
    exists decode. rewrite Hd, Hc, <- app_assoc. split; [reflexivity|].
    rewrite <- Hcat, Ht. reflexivity.
  - intros eos_token_id top_k out w' Hlt H. unfold simple_sample in H.
    destruct (forward_run model input_ids (arange (width input_ids))
                start_ids w) as [sc [w1 [Hf [_ [Hc _]]]]].
    rewrite (@bind_ok_run _ _ _ _ _ _ _ _ Hf) in H. unfold sample_loop in H.
    apply bind_ok_inv in H. destruct H as [st [w2 [Hrun Hcat]]].
    apply lift_ok_inv in Hcat. destruct Hcat as [Hcat ->].
    pose proof Hrun as Hcols. unfold sample_loop_iter in Hcols.
    apply for_range_columns
      with (cols := fun st => length (lp_tokens st))
           (N := Z.to_nat (sequence_length - width input_ids))
           (Stop := fun _ _ => True) in Hcols.
    2:{ intros k s w0 s' w0' _ Hb.
        destruct (sample_loop_round_step _ _ _ _ _ _ _ _ _ _ Hb)
          as [H1 [H2 H3]].
        split; [exact H1|]. split; [|exact H3].
        intro Hs. destruct (H2 Hs). auto. }
    2:{ reflexivity. }
    apply sample_loop_iter_fed in Hrun; [|reflexivity].
    destruct Hrun as [decode [Hd Ht]].
    destruct (lp_stopped st).
    + destruct Ht as [last Ht]. exists decode, last.
      rewrite Hd, Hc, <- app_assoc. split; [reflexivity|].
      rewrite <- Hcat, Ht. reflexivity.
    + destruct Hcols as [_ Hr]. destruct (Hr eq_refl) as [_ [_ Hn]]. lia.
Qed.

Lemma returned_tokens_were_given_to_the_model_witness :
  (exists decode,
     [prefill_call [[0; 2]]%Z None; decode_call [[9]]%Z 2;
      decode_call [[9]]%Z 3]
     = w_calls (init_world tt []) ++ prefill_call [[0; 2]]%Z None :: decode
     /\ cat ([[0; 2]]%Z :: map fc_tokens decode) = Ok [[0; 2; 9; 9]]%Z)
  /\ (exists decode,
        [prefill_call [[0; 2]]%Z None; decode_call [[1]]%Z 2;
         decode_call [[1]]%Z 3]
        = w_calls (init_world tt []) ++ prefill_call [[0; 2]]%Z None :: decode
        /\ cat ([[0; 2]]%Z :: map fc_tokens decode) = Ok [[0; 2; 1; 1]]%Z)
  /\ (exists decode last,
        [prefill_call [[0; 2]]%Z None; decode_call [[2]]%Z 2]
        = w_calls (init_world tt [1; 0; 3]%nat)
          ++ prefill_call [[0; 2]]%Z None :: decode
        /\ cat ([[0; 2]]%Z :: map fc_tokens decode ++ [last])
           = Ok [[0; 2; 2; 1]]%Z).
Proof.
  split; [|split].
  - apply (proj1 (@returned_tokens_were_given_to_the_model unit qexp
                    (uniform_token_model [4; 9]%Z)
                    (uniform_model [fin 1; fin 5; fin 2]) [[0; 2]]%Z None 4
                    (init_world tt []))
             [[0; 2; 9; 9]]%Z
             {| w_model := tt;
                w_calls := [prefill_call [[0; 2]]%Z None;
                            decode_call [[9]]%Z 2; decode_call [[9]]%Z 3];
                w_rng := [] |}).
    vm_compute. reflexivity.
  - apply (proj1 (proj2 (@returned_tokens_were_given_to_the_model unit qexp
                           (uniform_token_model [4; 9]%Z)
                           (uniform_model [fin 1; fin 5; fin 2]) [[0; 2]]%Z
                           None 4 (init_world tt [])))
             [[0; 2; 1; 1]]%Z
             {| w_model := tt;
                w_calls := [prefill_call [[0; 2]]%Z None;
                            decode_call [[1]]%Z 2; decode_call [[1]]%Z 3];
                w_rng := [] |}).
    vm_compute. reflexivity.
  - apply (proj2 (proj2 (@returned_tokens_were_given_to_the_model unit qexp
                           (uniform_token_model [4; 9]%Z)
                           (uniform_model [fin 1; fin 5; fin 2]) [[0; 2]]%Z
                           None 4 (init_world tt [1; 0; 3]%nat)))
             0%Z 2%Z [[0; 2; 2; 1]]%Z
             {| w_model := tt;
                w_calls := [prefill_call [[0; 2]]%Z None;
                            decode_call [[2]]%Z 2];
                w_rng := [3%nat] |}).
    + simpl. lia.
    + vm_compute. reflexivity.
Defined.

(** ** top_k = 1 *)

Lemma Forall2_compose {A B C} (R : A -> B -> Prop) (S : B -> C -> Prop)
  (T : A -> C -> Prop) (l1 : list A) (l2 : list B) (l3 : list C) :
  (forall a b c, R a b -> S b c -> T a c) ->
  Forall2 R l1 l2 -> Forall2 S l2 l3 -> Forall2 T l1 l3.
Proof.
  intros HT H12. revert l3.
  induction H12 as [|a b l1 l2 Hab H12 IH]; intros l3 H23;
    inversion H23; subst; constructor; eauto.
Qed.

Lemma gather_in {A} (m : matrix A) (pos : list Z) (out : list A) :
  gather m pos = Ok out -> Forall2 (fun row x => In x row) m out.
Proof.
  revert pos out. induction m as [|row m IH]; intros [|p pos] out H;
    simpl in H; try discriminate.
  - injection H as <-. constructor.
  - apply rbind_ok in H. destruct H as [x [Hx H]].
    apply rbind_ok in H. destruct H as [xs [Hxs H]]. injection H as <-.
    constructor; [eapply lookup_ok_in; exact Hx | eapply IH; exact Hxs].
Qed.

Lemma topk_indices_rows (scores : matrix score) (K : Z) (kv : matrix score)
  (ki : matrix Z) :
  topk scores K = Ok (kv, ki) ->
  Forall2 (fun row t => t = topk_idx K row) scores ki.
Proof.
  unfold topk. intro H. apply rbind_ok in H. destruct H as [rs [Hrs H]].
  injection H as H.
  assert (Hki : ki = map snd rs).
  { unfold matrix in *. rewrite <- (split_snd rs), H. reflexivity. }
  subst ki. apply Forall2_map_right. apply rmap_list_ok in Hrs.
  eapply Forall2_impl; [|exact Hrs].
  intros row [vals idxs] Hr. apply topk_row_ok_inv in Hr. now destruct Hr.
Qed.

Lemma topk_idx_one_maximum (row : list score) (t : Z) :
  In t (topk_idx 1 row) -> picks_maximum row t.
Proof.
  intro H. apply argmax_row_maximum. unfold argmax_row.
  unfold topk_idx in H.
  destruct (sort_desc (enumerate row)) as [|[v i] l]; [contradiction|].
  cbn in H. destruct H as [<-|[]]. reflexivity.
Qed.

Lemma filtering_top_k_one (fexp : arith) (scores : matrix score)
  (top_p : pyobj) (cs : matrix score) (ci : matrix Z) :
  top_k_top_p_filtering fexp scores (PyInt 1) top_p (PyInt 1) = Ok (cs, ci) ->
  Forall2 (fun row crow => incl crow (topk_idx 1 row)) scores ci.
Proof.
  intro H. unfold top_k_top_p_filtering in H.
  apply rbind_ok in H. destruct H as [[] [_ H]].
  pose proof (width_nonneg scores) as Hw0.
  assert (HK : (1 <= width scores)%Z -> safe_size 1 (width scores) 1 = 1%Z)
    by (unfold safe_size; lia).
  destruct (width scores <? 1)%Z eqn:E.
  - apply Z.ltb_lt in E.
    assert (Hi : input_value_and_indices scores = (cs, ci))
      by (destruct top_p; congruence).
    unfold input_value_and_indices in Hi. injection Hi as _ <-.
    replace (width scores) with 0%Z by lia.
    apply Forall2_map_right. clear. induction scores; constructor; auto.
    intros x [].
  - apply Z.ltb_ge in E. specialize (HK E).
    destruct top_p as [|z|p|s]; try discriminate.
    + unfold filter_by_top_k in H. rewrite HK in H.
      apply topk_indices_rows in H.
      eapply Forall2_impl; [|exact H]. intros row t ->. apply incl_refl.
    + apply rbind_ok in H. destruct H as [[kv ki] [Hk Hp]].
      cbn [snd] in Hp. unfold filter_by_top_k in Hk. rewrite HK in Hk.
      apply topk_indices_rows in Hk.
      apply filter_by_top_p_some_incl in Hp.
      eapply Forall2_compose; [|exact Hk|exact Hp].
      intros row t crow -> Hincl. exact Hincl.
Qed.

(** X15. With [top_k = 1] the llama loop's draw (lines 186-194) is
    greedy, with or without [top_p] and whatever the temperature is:
    whenever the draw completes, the token drawn for a sequence is the
    position of a score that no score of that sequence's row exceeds. *)
Theorem top_k_one_draws_a_maximum {M} (fexp : arith) (top_p : pyobj)
  (t : Q) (scores scaled : matrix score) (inputs : list Z) (w w' : world M) :
  llama_sample fexp (PyInt 1) top_p t scores w = (Ok (scaled, inputs), w') ->
  Forall2 picks_maximum scaled inputs.
Proof.
  intro H. unfold llama_sample in H.
  apply bind_ok_inv in H. destruct H as [[cs ci] [w1 [Hf H]]].
  apply lift_ok_inv in Hf. destruct Hf as [Hf ->].
  apply bind_ok_inv in H. destruct H as [pos [w1 [Hm H]]].
  apply bind_ok_inv in H. destruct H as [inp [w2 [Hg H]]].
  apply lift_ok_inv in Hg. destruct Hg as [Hg ->].
  apply ret_ok_inv in H. destruct H as [H _]. injection H as -> ->.
  apply filtering_top_k_one in Hf. cbn [snd] in Hg. apply gather_in in Hg.
  eapply Forall2_compose; [|exact Hf|exact Hg].
  intros row crow tok Hincl Hin. apply topk_idx_one_maximum, Hincl, Hin.
Qed.

Lemma top_k_one_draws_a_maximum_witness :
  llama_sample qexp (PyInt 1) (PyFloat 1) (1 # 2)
    [[fin 1; fin 5; fin 2]; [fin 9; fin 5; fin 2]] (init_world tt [3; 4]%nat)
  = (Ok (div_scores (1 # 2) [[fin 1; fin 5; fin 2]; [fin 9; fin 5; fin 2]],
         [1; 0]%Z),
     {| w_model := tt; w_calls := []; w_rng := [] |})
  /\ Forall2 picks_maximum
       (div_scores (1 # 2) [[fin 1; fin 5; fin 2]; [fin 9; fin 5; fin 2]])
       [1; 0]%Z.
Proof.
  assert (E : llama_sample qexp (PyInt 1) (PyFloat 1) (1 # 2)
                [[fin 1; fin 5; fin 2]; [fin 9; fin 5; fin 2]]
                (init_world tt [3; 4]%nat)
              = (Ok (div_scores (1 # 2)
                       [[fin 1; fin 5; fin 2]; [fin 9; fin 5; fin 2]],
                     [1; 0]%Z),
                 {| w_model := tt; w_calls := []; w_rng := [] |}))
    by (vm_compute; reflexivity).
  split; [exact E|].
  exact (@top_k_one_draws_a_maximum unit qexp (PyFloat 1) (1 # 2) _ _ _ _ _ E).
Defined.

(** ** A row shorter than sequence_length *)

Lemma cat_from_snoc {A} (ms : list (matrix A)) (m acc out : matrix A) :
  cat_from acc (ms ++ [m]) = Ok out ->
  exists a, cat_from acc ms = Ok a /\ append_cols a m = Ok out.
Proof.
  revert acc. induction ms as [|m0 ms IH]; intros acc H; simpl in H.
  - apply rbind_ok in H. destruct H as [a [Ha H]]. injection H as <-.
    exists acc. split; [reflexivity | exact Ha].
  - apply rbind_ok in H. destruct H as [a [Ha H]].
    destruct (IH _ H) as [a' [H1 H2]]. exists a'. simpl. rewrite Ha. auto.
Qed.

Lemma append_column_last {A} (a : matrix A) (col : list A) (out : matrix A) :
  append_cols a (column col) = Ok out ->
  Forall2 (fun x o => exists r, o = r ++ [x]) col out.
Proof.
  revert col out. induction a as [|r a IH]; intros [|x col] out H;
    simpl in H; try discriminate.
  - injection H as <-. constructor.
  - apply rbind_ok in H. destruct H as [t [Ht H]]. injection H as <-.
    constructor; [now exists r | now apply IH].
Qed.

Lemma map2_all_done (eos : Z) (flags : list bool) (inputs : list Z) :
  forallb (fun d => d) flags = true ->
  Forall (fun x => x = eos)
    (map2 (fun (d : bool) x => if d then eos else x) flags inputs).
Proof.
  revert inputs. induction flags as [|d flags IH]; intros [|x inputs] H;
    simpl; try constructor.
  - simpl in H. apply andb_true_iff in H. destruct H as [-> _]. reflexivity.
  - simpl in H. apply andb_true_iff in H. destruct H as [_ H]. now apply IH.
Qed.

(** With every flag set, [torch.where] gives [eos] everywhere. *)
Lemma where_done_all (eos : Z) (flags : list bool) (inputs col : list Z) :
  forallb (fun d => d) flags = true ->
  where_done eos flags inputs = Ok col ->
  Forall (fun x => x = eos) col.
Proof.
  intros Hall H. unfold where_done, broadcast2 in H.
  destruct (length flags =? length inputs)%nat.
  - injection H as <-. now apply map2_all_done.
  - destruct flags as [|d [|d' flags]].
    + destruct inputs as [|y [|y' inputs]]; try discriminate.
      injection H as <-. constructor.
    + simpl in Hall. apply andb_true_iff in Hall. destruct Hall as [-> _].
      injection H as <-. apply Forall_map, Forall_forall. reflexivity.
    + destruct inputs as [|y [|y' inputs]]; try discriminate.
      assert (Hm : Forall (fun x => x = eos)
                     (map (fun x : bool => if x then eos else y)
                        (d :: d' :: flags))).
      { apply Forall_map, Forall_forall. intros d0 Hd0.
        rewrite forallb_forall in Hall. now rewrite (Hall d0 Hd0). }
      injection H as <-. exact Hm.
Qed.

(** X16. [sample_llama] stops before [sequence_length] only when every
    sequence is done: for a prompt whose rows have the prompt length,
    whenever the call returns, every returned row with fewer than
    [sequence_length] tokens ends with [eos_token_id]. *)
Theorem short_rows_end_with_eos {M} (fexp : arith)
  (model : model_fn M score) (input_ids : matrix Z)
  (start_ids : option (list Z)) (sequence_length eos_token_id : Z)
  (top_k top_p temperature : pyobj) (w w' : world M) (out : matrix Z) :
  Forall (fun r => Z.of_nat (length r) = width input_ids) input_ids ->
  sample_llama fexp model input_ids start_ids sequence_length eos_token_id
    top_k top_p temperature w = (Ok out, w') ->
  Forall (fun o =>
            (Z.of_nat (length o) < sequence_length)%Z ->
            exists pre, o = pre ++ [eos_token_id])
    out.
Proof.
  intros Hrows H. unfold sample_llama in H.
  apply bind_ok_inv in H. destruct H as [[] [w0 [Hv H]]].
  apply lift_ok_inv in Hv. destruct Hv as [Hv ->].
  destruct (forward_run model input_ids (arange (width input_ids))
              start_ids w) as [sc [w1 [Hf _]]].
  rewrite (@bind_ok_run _ _ _ _ _ _ _ _ Hf) in H.
  unfold sample_loop_llama in H. rewrite Hv, bind_lift_run in H.
  destruct (temperature_illegal temperature);
    [apply lift_ok_inv in H; destruct H; discriminate|].
  destruct temperature as [|z|t|s];
    try (apply lift_ok_inv in H; destruct H; discriminate).
  apply bind_ok_inv in H. destruct H as [st [w2 [Hrun Hcat]]].
  apply lift_ok_inv in Hcat. destruct Hcat as [Hcat ->].
  set (N := Z.to_nat (sequence_length - width input_ids)) in *.
  pose proof Hrun as Hhead. apply sample_loop_llama_iter_head in Hhead.
  destruct Hhead as [cols [Ht [Hone _]]].
  (* the last column of a stopped state *)
  assert (Hlast : ls_stopped st = true ->
                  exists prev col,
                    ls_tokens st = prev ++ [column col]
                    /\ where_done eos_token_id (ls_done_flags st)
                         (ls_inputs st) = Ok col).
  { unfold sample_loop_llama_iter in Hrun.
    eapply for_range_inv
      with (I := fun st => ls_stopped st = true ->
                           exists prev col,
                             ls_tokens st = prev ++ [column col]
                             /\ where_done eos_token_id (ls_done_flags st)
                                  (ls_inputs st) = Ok col);
      [| |exact Hrun].
    - discriminate.
    - intros c s w0 s' w0' _ Hb _.
      apply sample_loop_llama_round_inv in Hb.
      destruct Hb as [sc' [w3 [_ [_ [col [Hwd [Htok _]]]]]]]. eauto. }
  unfold sample_loop_llama_iter in Hrun.
  apply for_range_columns
    with (cols := fun st => length (ls_tokens st)) (N := N)
         (Stop := fun k st =>
                    (N <= S k)%nat
                    \/ forallb (fun d => d) (ls_done_flags st) = true)
    in Hrun.
  2:{ intros k s w0 s' w0' _ Hb. eapply sample_loop_llama_round_step; exact Hb. }
  2:{ reflexivity. }
  destruct Hrun as [Hs Hr]. rewrite Ht in Hcat, Hs, Hr. cbn [cat] in Hcat.
  cbn [llama_init ls_tokens length] in Hs, Hr.
  pose proof Hcat as Hwidth. apply cat_from_width in Hwidth; [|exact Hone].
  assert (Hlen : Forall (fun o => Z.of_nat (length o)
                                  = (width input_ids
                                     + Z.of_nat (length cols))%Z) out).
  { clear -Hwidth Hrows. revert Hrows.
    generalize (width input_ids) as L. intros L Hrows.
    induction Hwidth as [|r o ids out' Hro _ IH]; constructor.
    - inversion Hrows; subst. rewrite Hro. lia.
    - apply IH. now inversion Hrows. }
  destruct (ls_stopped st) eqn:Es.
  - destruct (Hs eq_refl) as [k [Hk [Hcols [_ Hstop]]]].
    destruct (Hlast eq_refl) as [prev [col [Hprev Hwd]]].
    rewrite Ht in Hprev.
    destruct prev as [|p0 prev]; [destruct cols; discriminate|].
    injection Hprev as <- ->.
    apply cat_from_snoc in Hcat. destruct Hcat as [a [_ Happ]].
    apply append_column_last in Happ.
    rewrite length_app in Hcols. cbn [length] in Hcols.
    destruct Hstop as [Hstop|Hstop].
    + eapply Forall_impl; [|exact Hlen]. intros o Ho Hshort.
      cbn beta in Ho. rewrite length_app in Ho. cbn [length] in Ho. lia.
    + pose proof (where_done_all _ _ _ Hstop Hwd) as Heos.
      eapply Forall2_Forall_r; [exact Happ | exact Heos|].
      intros x o [r ->] Hx _. simpl in Hx. subst x. now exists r.
  - destruct (Hr eq_refl) as [Hcols [_ Hn]].
    eapply Forall_impl; [|exact Hlen]. intros o Ho Hshort. cbn beta in Ho.
    lia.
Qed.

Lemma short_rows_end_with_eos_witness :
  sample_llama qexp (uniform_model [fin 1; fin 5; fin 2]) [[0; 2]; [2; 0]]%Z
    None 6 1 (PyInt 2) PyNone (PyFloat 1)
    (init_world tt [1; 0; 0; 0; 1; 1]%nat)
  = (Ok [[0; 2; 2; 1]; [2; 0; 1; 1]]%Z,
     {| w_model := tt;
        w_calls := [prefill_call [[0; 2]; [2; 0]]%Z None;
                    decode_call [[2]; [1]]%Z 2];
        w_rng := [1; 1]%nat |})
  /\ Forall (fun o : list Z =>
               (Z.of_nat (length o) < 6)%Z -> exists pre, o = pre ++ [1%Z])
       [[0; 2; 2; 1]; [2; 0; 1; 1]]%Z.
Proof.
  assert (E : sample_llama qexp (uniform_model [fin 1; fin 5; fin 2])
                [[0; 2]; [2; 0]]%Z None 6 1 (PyInt 2) PyNone (PyFloat 1)
                (init_world tt [1; 0; 0; 0; 1; 1]%nat)
              = (Ok [[0; 2; 2; 1]; [2; 0; 1; 1]]%Z,
                 {| w_model := tt;
                    w_calls := [prefill_call [[0; 2]; [2; 0]]%Z None;
                                decode_call [[2]; [1]]%Z 2];
                    w_rng := [1; 1]%nat |}))
    by (vm_compute; reflexivity).
  split; [exact E|].
  refine (@short_rows_end_with_eos unit qexp
            (uniform_model [fin 1; fin 5; fin 2]) [[0; 2]; [2; 0]]%Z None 6 1
            (PyInt 2) PyNone (PyFloat 1) _ _ _ _ E).
  repeat constructor.
Defined.

(** ** The llama loop returns *)

Lemma sorted_head_finite (row : list score) (j : nat) (q : Q) :
  nth_error row j = Some (Fin q) ->
  exists q0 t l, sort_desc (enumerate row) = (Fin q0, t) :: l.
Proof.
  intro Hj. apply in_enumerate in Hj.
  eapply Permutation_in in Hj; [|symmetry; apply sort_desc_perm].
  pose proof (sort_desc_sorted (enumerate row)) as Hs.
  destruct (sort_desc (enumerate row)) as [|x l]; [contradiction|].
  pose proof (desc_head Hs Hj) as Hge. simpl in Hge.
  destruct x as [[|q0] t]; simpl in *; [discriminate Hge | eauto].
Qed.

Lemma firstn_head {A} (n : Z) (x : A) (l : list A) :
  (1 <= n)%Z -> exists l', firstn (Z.to_nat n) (x :: l) = x :: l'.
Proof.
  intro Hn. destruct (Z.to_nat n) as [|n'] eqn:E; [lia|]. simpl. eauto.
Qed.

Lemma mask_from_head (n : Z) (x : score) (l : list score) :
  (1 <= n)%Z -> exists l', mask_from n (x :: l) = x :: l'.
Proof.
  intro Hn. unfold mask_from.
  destruct (Z.to_nat n) as [|n'] eqn:E; [lia|]. simpl. eauto.
Qed.

Lemma finite_rows_width (V : nat) (scores : matrix score) :
  scores <> [] -> finite_rows V scores ->
  (1 <= Z.of_nat V)%Z /\ width scores = Z.of_nat V
  /\ Forall (fun r => length r = V) scores.
Proof.
  intros Hne Hfin.
  assert (Hall : Forall (fun r => length r = V) scores).
  { eapply Forall_impl; [|exact Hfin]. now intros r [H _]. }
  split; [|split; [now apply width_uniform | exact Hall]].
  destruct scores as [|row scores]; [congruence|].
  inversion Hfin as [|? ? [Hl [j [q Hj]]] _]; subst.
  assert (j < length row)%nat by (apply nth_error_Some; congruence). lia.
Qed.

Lemma div_scores_finite (t : Q) (V : nat) (scores : matrix score) :
  finite_rows V scores -> finite_rows V (div_scores t scores).
Proof.
  unfold finite_rows, div_scores. intro H. apply Forall_map.
  eapply Forall_impl; [|exact H]. intros row [Hl [j [q Hj]]]. cbn beta.
  split; [now rewrite length_map|].
  exists j, (q / t). rewrite nth_error_map, Hj. reflexivity.
Qed.

Lemma div_scores_all_finite (t : Q) (scores : matrix score) :
  all_finite scores -> all_finite (div_scores t scores).
Proof.
  unfold all_finite, div_scores. intro H. apply Forall_map.
  eapply Forall_impl; [|exact H]. intros row Hrow. cbn beta.
  apply Forall_map. eapply Forall_impl; [|exact Hrow].
  intros [|q] Hs; [congruence | discriminate].
Qed.

Lemma validate_min_one (top_k top_p : pyobj) :
  validate_top_k_top_p_min_tokens_to_keep top_k top_p PyNone = Ok tt ->
  validate_top_k_top_p_min_tokens_to_keep top_k top_p (PyInt 1) = Ok tt.
Proof.
  unfold validate_top_k_top_p_min_tokens_to_keep.
  destruct (top_k_illegal top_k), (top_p_illegal top_p); auto.
Qed.

Section DrawAny.

Variable fexp : Q -> Q.
Hypothesis fexp_pos : forall q, 0 < fexp q.

Lemma qsum_member_le (l : list Q) (x : Q) :
  Forall (fun y => 0 <= y) l -> In x l -> x <= qsum l.
Proof.
  induction 1 as [|y l Hy Hl IH]; intros Hin; [contradiction|].
  simpl. pose proof (qsum_nonneg Hl) as Hs.
  destruct Hin as [->|Hin].
  - set (s := qsum l) in *. lra.
  - specialize (IH Hin). set (s := qsum l) in *. lra.
Qed.

(** A row that holds a finite score can be drawn from, and the drawn
    position is inside the row. *)
Lemma multinomial_row_total_any (u : nat) (row : list score) (j : nat)
  (q : Q) :
  nth_error row j = Some (Fin q) ->
  exists i,
    multinomial_row u (softmax_row fexp row) = Ok i
    /\ (0 <= i < Z.of_nat (length row))%Z.
Proof.
  intro Hj.
  destruct (softmax_row fexp row) as [ps|] eqn:Es.
  2:{ exfalso. unfold softmax_row in Es.
      destruct row as [|s row]; [discriminate|].
      destruct (forallb is_neginf (s :: row)) eqn:E; [|discriminate].
      rewrite forallb_forall in E. apply nth_error_In in Hj.
      specialize (E _ Hj). discriminate. }
  pose proof (softmax_row_length _ _ Es) as Hlen.
  pose proof Es as Hsome. apply softmax_row_some in Hsome.
  set (ws := map (weight fexp) row) in *.
  assert (Hws : Forall (fun y => 0 <= y) ws).
  { unfold ws. apply Forall_map, Forall_forall. intros s _.
    apply weight_nonneg. intro q'. apply Qlt_le_weak, fexp_pos. }
  assert (Hwj : nth_error ws j = Some (fexp q)).
  { unfold ws. rewrite nth_error_map, Hj. reflexivity. }
  assert (HS : 0 < qsum ws).
  { pose proof (@qsum_member_le ws (fexp q) Hws (nth_error_In _ _ Hwj))
      as Hle.
    pose proof (fexp_pos q). set (s := qsum ws) in *. lra. }
  assert (Hpj : nth_error ps j = Some (fexp q / qsum ws)).
  { rewrite Hsome, nth_error_map, Hwj. reflexivity. }
  assert (Hpos : 0 < fexp q / qsum ws).
  { unfold Qdiv. apply Qmult_lt_0_compat; [apply fexp_pos|].
    now apply Qinv_lt_0_compat. }
  assert (Hsup : In (Z.of_nat j) (support ps)).
  { unfold support. apply in_map_iff. exists (fexp q / qsum ws, Z.of_nat j).
    split; [reflexivity|]. apply filter_In. split.
    - unfold arange. rewrite Nat2Z.id.
      apply (@in_combine_seq_intro _ ps 0 (length ps) j _ Hpj).
      apply nth_error_Some. congruence.
    - cbn [fst]. apply negb_true_iff, Qle_bool_false. exact Hpos. }
  unfold multinomial_row.
  destruct (support ps) as [|s0 s] eqn:E; [contradiction|].
  exists (nth (u mod length (s0 :: s)) (s0 :: s) 0%Z).
  split; [reflexivity|].
  assert (Hin : In (nth (u mod length (s0 :: s)) (s0 :: s) 0%Z) (support ps)).
  { rewrite E. apply nth_In, Nat.mod_upper_bound. discriminate. }
  apply support_positive in Hin. destruct Hin as [H0 [p [Hp _]]].
  split; [exact H0|].
  assert (Hlt : (Z.to_nat (nth (u mod length (s0 :: s)) (s0 :: s) 0%Z)
                 < length ps)%nat).
  { apply nth_error_Some. congruence. }
  rewrite <- Hlen. lia.
Qed.

(** Softmax, one draw per row and gather succeed on rows that can be
    drawn from. *)
Lemma draw_total_any (rs : list (list score * list Z)) :
  Forall drawable rs ->
  forall {M} (w : world M),
  exists pos inputs w',
    multinomial (map (softmax_row fexp) (map fst rs)) w = (Ok pos, w')
    /\ gather (map snd rs) pos = Ok inputs.
Proof.
  induction 1 as [|[vals idxs] rs [Hlen [j0 [q Hv]]] Hrs IH]; intros M w.
  - exists [], [], w. split; reflexivity.
  - cbn [fst snd] in Hlen, Hv. cbn [map fst snd].
    destruct (@draw M w) as [[u|e] w1] eqn:Ed.
    2:{ unfold draw in Ed. destruct (w_rng w); discriminate. }
    destruct (multinomial_row_total_any u _ _ Hv) as [j [Hj Hrange]].
    destruct (IH M w1) as [pos [inputs [w' [Hm Hg]]]].
    destruct (@lookup_total _ idxs j) as [t Ht]; [rewrite <- Hlen; exact Hrange|].
    exists (j :: pos), (t :: inputs), w'. split.
    + cbn [multinomial]. unfold bind at 1. rewrite Ed.
      unfold bind at 1, lift at 1. rewrite Hj.
      unfold bind at 1. rewrite Hm. reflexivity.
    + cbn [gather]. rewrite Ht. cbn [rbind]. rewrite Hg. reflexivity.
Qed.

End DrawAny.

Lemma Forall2_of_Forall {A B} (P : A -> Prop) (Q : B -> Prop) (l : list A)
  (l' : list B) :
  Forall P l -> Forall Q l' -> length l = length l' ->
  Forall2 (fun a b => P a /\ Q b) l l'.
Proof.
  intro H. revert l'. induction H as [|a l Ha Hl IH]; intros [|b l'] HQ Hlen;
    simpl in Hlen; try discriminate; constructor.
  - split; [exact Ha | now inversion HQ].
  - apply IH; [now inversion HQ | lia].
Qed.

Lemma Forall2_combine {A B} (R : A -> B -> Prop) (l : list A) (l' : list B) :
  Forall2 R l l' -> Forall (fun p => R (fst p) (snd p)) (combine l l').
Proof. induction 1; simpl; constructor; auto. Qed.

Lemma map_fst_combine {A B} (l : list A) (l' : list B) :
  length l = length l' -> map fst (combine l l') = l.
Proof.
  revert l'. induction l as [|a l IH]; intros [|b l'] H; simpl in *;
    try discriminate; [reflexivity|]. f_equal. apply IH. lia.
Qed.

Lemma map_snd_combine {A B} (l : list A) (l' : list B) :
  length l = length l' -> map snd (combine l l') = l'.
Proof.
  revert l'. induction l as [|a l IH]; intros [|b l'] H; simpl in *;
    try discriminate; [reflexivity|]. f_equal. apply IH. lia.
Qed.

(** Top-k followed by top-p on scores without minus infinity: the call
    returns rows that can be drawn from, for every batch size. *)
Lemma combined_drawable_finite (fexp : arith) (scores : matrix score)
  (k : Z) (p : Q) (V : nat) :
  scores <> [] -> Forall (fun r => length r = V) scores ->
  (1 <= Z.of_nat V)%Z -> all_finite scores ->
  (0 < k)%Z -> 0 < p -> p <= 1 ->
  exists rs,
    top_k_top_p_filtering fexp scores (PyInt k) (PyFloat p) (PyInt 1)
    = Ok (map fst rs, map snd rs)
    /\ Forall drawable rs.
Proof.
  intros Hne Hall HV Hfin Hk Hp0 Hp1.
  set (K := safe_size 1 (Z.of_nat V) k).
  assert (HK : (1 <= K <= Z.of_nat V)%Z) by (apply safe_size_bounds; lia).
  assert (Hv : validate_top_k_top_p_min_tokens_to_keep
                 (PyInt k) (PyFloat p) (PyInt 1) = Ok tt).
  { apply validate_ok_iff. repeat split.
    - right. exists k. auto.
    - right. exists p. auto.
    - right. exists 1%Z. split; [reflexivity | lia]. }
  pose proof (width_uniform Hne Hall) as Hw.
  unfold top_k_top_p_filtering. rewrite Hv. cbn [rbind]. rewrite Hw.
  replace (Z.of_nat V <? 1)%Z with false by (symmetry; apply Z.ltb_ge; lia).
  rewrite (@filter_by_top_k_ok scores 1 k V Hne Hall) by lia.
  cbv zeta. fold K. cbn [rbind snd].
  destruct (@filter_by_top_p_some_total fexp scores 1 p
              (map (topk_idx K) scores) V (Z.to_nat K))
    as [[cs ci] Hp]; auto.
  { destruct scores; [congruence | discriminate]. }
  { apply Forall_map. eapply Forall_impl; [|exact Hall].
    intros row Hrow. cbn beta in *. apply topk_idx_length. lia. }
  { apply Forall_map. eapply Forall_impl; [|exact Hall].
    intros row Hrow. cbn beta in *. rewrite <- Hrow.
    apply topk_idx_positions. }
  rewrite Hp.
  (* the shape of what was returned *)
  unfold filter_by_top_p in Hp.
  destruct scores as [|first rest]; [congruence|].
  cbn [map row0 rbind] in Hp.
  apply rbind_ok in Hp. destruct Hp as [stf [Hstf Hp]].
  apply rbind_ok in Hp. destruct Hp as [w [Hmax Hp]].
  apply rbind_ok in Hp. destruct Hp as [ci' [Hci Hp]].
  injection Hp as <- <-.
  apply rbind_ok in Hci. destruct Hci as [j0 [Hj0 Hsel]].
  rewrite !map_map in Hmax, Hj0. rewrite !map_map, combine_map_map, map_map.
  cbn [fst snd].
  pose proof Hstf as Hrows. apply index_select_incl in Hrows.
  assert (HlK : length (topk_idx K first) = Z.to_nat K).
  { apply topk_idx_length. inversion Hall; subst. lia. }
  rewrite HlK in Hrows.
  assert (Hs : Forall (fun srow => length srow = Z.to_nat K
                                   /\ Forall (fun s => s <> NegInf) srow)
                 stf).
  { eapply Forall2_Forall_r; [exact Hrows | exact Hfin|].
    intros row orow [Hincl Hl] Hrow. split; [exact Hl|].
    rewrite Forall_forall in *. intros s Hs. apply Hrow, Hincl, Hs. }
  assert (Hlen_stf : length stf = length (first :: rest))
    by (symmetry; eapply Forall2_length; exact Hrows).
  destruct stf as [|s0 stf']; [discriminate|].
  cbn [map row0] in Hj0. injection Hj0 as <-.
  assert (Hn : forall srow,
             (1 <= n_to_keep_row fexp 1 (width (first :: rest)) p
                     (fst (sort_row srow)) <= Z.of_nat V)%Z).
  { intro srow. rewrite Hw. apply safe_size_bounds. lia. }
  assert (Hw1 : (1 <= w)%Z).
  { apply py_max_spec in Hmax. destruct Hmax as [Hin _].
    apply in_map_iff in Hin. destruct Hin as [srow [<- _]]. apply Hn. }
  assert (Hl0 : length (firstn (Z.to_nat w) (snd (sort_row s0)))
                = Nat.min (Z.to_nat w) (Z.to_nat K)).
  { rewrite length_firstn, sort_row_snd_length.
    inversion Hs as [|? ? [Hl _] _]; subst. now rewrite Hl. }
  pose proof Hsel as Hci. apply index_select_incl in Hci.
  assert (Hlen_ci : length ci' = length (first :: rest)).
  { apply Forall2_length in Hci. cbn [length] in *.
    rewrite length_map in Hci. congruence. }
  assert (HQ : Forall (fun i => length i
                                = Nat.min (Z.to_nat w) (Z.to_nat K)) ci').
  { eapply Forall2_Forall_r with (P := fun _ => True);
      [exact Hci | apply Forall_forall; auto |].
    intros t orow [_ Hl] _. cbn beta. congruence. }
  set (f := fun x : list score =>
              mask_from (n_to_keep_row fexp 1 (width (first :: rest)) p
                           (fst (sort_row x)))
                (firstn (Z.to_nat w) (fst (sort_row x)))) in *.
  assert (HP : Forall (fun c => length c = Nat.min (Z.to_nat w) (Z.to_nat K)
                                /\ exists j q, nth_error c j = Some (Fin q))
                 (map f (s0 :: stf'))).
  { apply Forall_map. eapply Forall_impl; [|exact Hs].
    intros srow [Hl Hf]. cbn beta. unfold f. split.
    - now rewrite mask_from_length, length_firstn, sort_row_fst_length, Hl.
    - destruct srow as [|[|q] srow]; [simpl in Hl; lia | |].
      + inversion Hf; congruence.
      + destruct (@sorted_head_finite (Fin q :: srow) 0 q eq_refl)
          as [q0 [t0 [l Hsort]]].
        unfold sort_row at 2. rewrite split_fst, Hsort. cbn [map fst].
        destruct (@firstn_head _ w (Fin q0) (map fst l) Hw1) as [l1 ->].
        destruct (@mask_from_head
                    (n_to_keep_row fexp 1 (width (first :: rest)) p
                       (fst (sort_row (Fin q :: srow)))) (Fin q0) l1)
          as [l2 ->]; [apply Hn|].
        exists 0%nat, q0. reflexivity. }
  assert (Hlen_cs : length (map f (s0 :: stf')) = length ci').
  { rewrite length_map. congruence. }
  exists (combine (map f (s0 :: stf')) ci').
  rewrite map_fst_combine, map_snd_combine by exact Hlen_cs.
  split; [reflexivity|].
  pose proof (Forall2_of_Forall HP HQ Hlen_cs) as H2.
  apply Forall2_combine in H2. eapply Forall_impl; [|exact H2].
  intros [c i] [[Hc Hfin'] Hi]. unfold drawable. cbn [fst snd] in *.
  split; [congruence | exact Hfin'].
Qed.

(** The filtering engine returns rows that can be drawn from, unless both
    filters meet a batch of several sequences that holds minus
    infinity. *)
Lemma filtering_drawable (fexp : arith) (scores : matrix score)
  (top_k top_p : pyobj) (V : nat) :
  validate_top_k_top_p_min_tokens_to_keep top_k top_p PyNone = Ok tt ->
  scores <> [] -> finite_rows V scores ->
  top_k = PyNone \/ top_p = PyNone \/ length scores = 1%nat
  \/ all_finite scores ->
  exists rs,
    top_k_top_p_filtering fexp scores top_k top_p (PyInt 1)
    = Ok (map fst rs, map snd rs)
    /\ Forall drawable rs.
Proof.
  intros Hv Hne Hfin Hone.
  destruct (finite_rows_width Hne Hfin) as [HV [Hw Hall]].
  pose proof (validate_min_one _ _ Hv) as Hv1.
  apply validate_ok_iff in Hv. destruct Hv as [Hk [Hp _]].
  destruct Hk as [->|[k [-> Hk]]]; destruct Hp as [->|[p [-> [Hp0 Hp1]]]].
  - (* no filter *)
    exists (map (fun row => (row, arange (width scores))) scores).
    rewrite map_fst_pair, map_snd_pair, map_id. split; [reflexivity|].
    apply Forall_map. eapply Forall_impl; [|exact Hfin].
    intros row [Hl Hj]. unfold drawable. cbn [fst snd].
    split; [|exact Hj]. rewrite Hw, arange_length. lia.
  - (* top_p alone *)
    unfold top_k_top_p_filtering. rewrite Hv1. cbn [rbind]. rewrite Hw.
    replace (Z.of_nat V <? 1)%Z with false by (symmetry; apply Z.ltb_ge; lia).
    destruct (@py_max_nonempty
                (map (fun row => n_to_keep_row fexp 1 (width scores) p
                                   (fst (sort_row row))) scores))
      as [w Hmax].
    { destruct scores; [congruence | discriminate]. }
    rewrite (filter_by_top_p_whole _ _ _ _ Hmax).
    exists (map (fun row =>
                   (mask_from (n_to_keep_row fexp 1 (width scores) p
                                 (fst (sort_row row)))
                      (firstn (Z.to_nat w) (fst (sort_row row))),
                    firstn (Z.to_nat w) (snd (sort_row row)))) scores).
    rewrite map_fst_pair, map_snd_pair. split; [reflexivity|].
    apply Forall_map. apply py_max_spec in Hmax. destruct Hmax as [_ Hmax].
    rewrite Forall_map in Hmax. rewrite Hw in *.
    pose proof (Forall_and Hfin Hmax) as Hboth.
    eapply Forall_impl; [|exact Hboth].
    intros row [[Hl [j [q Hj]]] Hnw]. cbn beta in Hnw. unfold drawable.
    cbn [fst snd].
    assert (Hn : (1 <= n_to_keep_row fexp 1 (Z.of_nat V) p
                         (fst (sort_row row)) <= Z.of_nat V)%Z)
      by (apply safe_size_bounds; lia).
    split.
    + rewrite mask_from_length, !length_firstn, sort_row_fst_length,
        sort_row_snd_length. reflexivity.
    + destruct (sorted_head_finite _ _ Hj) as [q0 [t0 [l Hs]]].
      unfold sort_row. rewrite split_fst, Hs. cbn [map fst].
      destruct (@firstn_head _ w (Fin q0) (map fst l)) as [l1 ->]; [lia|].
      destruct (@mask_from_head
                  (n_to_keep_row fexp 1 (Z.of_nat V) p
                     (Fin q0 :: map fst l)) (Fin q0) l1) as [l2 Hm].
      * unfold sort_row in Hn. rewrite split_fst, Hs in Hn. cbn [map fst] in Hn.
        lia.
      * exists 0%nat, q0. rewrite Hm. reflexivity.
  - (* top_k alone *)
    unfold top_k_top_p_filtering. rewrite Hv1. cbn [rbind]. rewrite Hw.
    replace (Z.of_nat V <? 1)%Z with false by (symmetry; apply Z.ltb_ge; lia).
    rewrite (@filter_by_top_k_ok scores 1 k V Hne Hall) by lia.
    cbv zeta.
    assert (HK : (1 <= safe_size 1 (Z.of_nat V) k <= Z.of_nat V)%Z)
      by (apply safe_size_bounds; lia).
    exists (map (fun row => (topk_val (safe_size 1 (Z.of_nat V) k) row,
                             topk_idx (safe_size 1 (Z.of_nat V) k) row))
              scores).
    rewrite map_fst_pair, map_snd_pair. split; [reflexivity|].
    apply Forall_map. eapply Forall_impl; [|exact Hfin].
    intros row [Hl [j [q Hj]]]. unfold drawable. cbn [fst snd].
    split; [apply topk_val_length|].
    destruct (@topk_val_head (safe_size 1 (Z.of_nat V) k) row j q)
      as [q0 [rest Hh]]; [lia | exact Hj |].
    exists 0%nat, q0. rewrite Hh. reflexivity.
  - (* both *)
    destruct Hone as [Hone|[Hone|[Hone|Hone]]]; try discriminate.
    + (* a single sequence *)
      destruct scores as [|row [|row' scores]]; try discriminate.
      inversion Hfin as [|? ? [Hl [j [q Hj]]] _]; subst.
      destruct (@combined_single_row fexp row k p 1) as [Hc Hn];
        try assumption; try lia.
      rewrite Hc.
      set (K := Z.min (Z.max k 1) (Z.of_nat (length row))) in *.
      set (n := n_to_keep_row fexp 1 (Z.of_nat (length row)) p
                  (topk_val K row)) in *.
      exists [(firstn (Z.to_nat n) (topk_val K row),
               firstn (Z.to_nat n) (topk_idx K row))].
      split; [reflexivity|]. constructor; [|constructor].
      unfold drawable. cbn [fst snd]. split.
      * now rewrite !length_firstn, topk_val_length.
      * destruct (@topk_val_head K row j q) as [q0 [rest Hh]];
          [unfold K; lia | exact Hj |].
        rewrite Hh. destruct (@firstn_head _ n (Fin q0) rest) as [l' ->];
          [lia|]. exists 0%nat, q0. reflexivity.
    + (* no minus infinity *)
      now apply combined_drawable_finite with (V := V).
Qed.

Section LlamaTotal.

Context {M : Type}.
Variable fexp : arith.
Variable model : model_fn M score.
Variable start_ids : option (list Z).
Variable sequence_length eos_token_id : Z.
Variable top_k top_p : pyobj.
Variable t : Q.
Variable V B : nat.

Hypothesis fexp_pos : forall q, 0 < fexp q.
Hypothesis model_rows : one_row_per_sequence model.
Hypothesis model_good : forall ms tokens cache_ids sids,
  length tokens = B -> llama_good V B top_k top_p (snd (model ms tokens cache_ids sids)).
Hypothesis params_ok :
  validate_top_k_top_p_min_tokens_to_keep top_k top_p PyNone = Ok tt.
Hypothesis batch_nonempty : B <> 0%nat.

Lemma llama_sample_total (scores : matrix score) (w : world M) :
  llama_good V B top_k top_p scores ->
  exists sc inputs w',
    llama_sample fexp top_k top_p t scores w = (Ok (sc, inputs), w')
    /\ length inputs = B.
Proof.
  intros [Hfin [Hlen Hone]].
  set (scaled := if negb (Qeq_bool t 1) then div_scores t scores else scores).
  assert (Hsf : finite_rows V scaled).
  { unfold scaled. destruct (negb (Qeq_bool t 1)); [|exact Hfin].
    now apply div_scores_finite. }
  assert (Hsl : length scaled = B).
  { unfold scaled. destruct (negb (Qeq_bool t 1)); [|exact Hlen].
    now rewrite div_scores_length. }
  assert (Hso : top_k = PyNone \/ top_p = PyNone \/ length scaled = 1%nat
                \/ all_finite scaled).
  { rewrite Hsl. destruct Hone as [H|[H|[H|H]]]; auto.
    right. right. right. unfold scaled.
    destruct (negb (Qeq_bool t 1)); [|exact H].
    now apply div_scores_all_finite. }
  destruct (@filtering_drawable fexp scaled top_k top_p V) as [rs [Hf Hd]];
    auto.
  { intro E. rewrite E in Hsl. simpl in Hsl. congruence. }
  destruct (@draw_total_any fexp fexp_pos rs Hd M w)
    as [pos [inputs [w' [Hm Hg]]]].
  exists scaled, inputs, w'.
  assert (Hrun : llama_sample fexp top_k top_p t scores w
                 = (Ok (scaled, inputs), w')).
  { unfold llama_sample. fold scaled. rewrite Hf, bind_lift_run.
    cbn [fst snd]. rewrite (@bind_ok_run _ _ _ _ _ _ _ _ Hm), Hg.
    reflexivity. }
  split; [exact Hrun|].
  apply llama_sample_rows in Hrun. destruct Hrun as [Hi _]. congruence.
Qed.

Lemma sample_loop_llama_round_total (c : Z) (st : llama_state) (w : world M) :
  llama_good V B top_k top_p (ls_scores st) -> length (ls_done_flags st) = B ->
  exists st' w',
    sample_loop_llama_round fexp model start_ids sequence_length eos_token_id
      top_k top_p t c st w = (Ok st', w')
    /\ (exists col, ls_tokens st' = ls_tokens st ++ [column col]
                    /\ length col = B)
    /\ length (ls_done_flags st') = B
    /\ (ls_stopped st' = false -> llama_good V B top_k top_p (ls_scores st')).
Proof.
  intros Hgood Hflags.
  destruct (llama_sample_total w Hgood) as [sc [inputs [w1 [Hs Hi]]]].
  unfold sample_loop_llama_round.
  rewrite (@bind_ok_run _ _ _ _ _ _ _ _ Hs). cbn [fst snd].
  unfold update_done.
  rewrite broadcast2_same by (rewrite length_map; congruence).
  rewrite bind_lift_run.
  set (flags := map2 orb (ls_done_flags st)
                  (map (fun x => (x =? eos_token_id)%Z) inputs)).
  assert (Hfl : length flags = B).
  { unfold flags. rewrite map2_length; [exact Hflags|].
    rewrite length_map. congruence. }
  unfold where_done. rewrite broadcast2_same by congruence.
  rewrite bind_lift_run.
  set (col := map2 (fun (d : bool) x => if d then eos_token_id else x)
                flags inputs).
  assert (Hcl : length col = B).
  { unfold col. rewrite map2_length; congruence. }
  destruct ((sequence_length <=? c + 1)%Z || forallb (fun d => d) flags).
  - do 2 eexists. split; [reflexivity|]. cbn [ls_tokens ls_done_flags
                                               ls_stopped].
    split; [eauto|]. split; [exact Hfl | discriminate].
  - destruct (forward_run model (column inputs) [c] start_ids w1)
      as [out [w2 [Hf [Ho _]]]].
    rewrite (@bind_ok_run _ _ _ _ _ _ _ _ Hf).
    do 2 eexists. split; [reflexivity|].
    cbn [ls_tokens ls_done_flags ls_stopped ls_scores].
    split; [eauto|]. split; [exact Hfl|]. intros _. subst out.
    apply model_good. unfold column. now rewrite length_map.
Qed.

Lemma sample_loop_llama_iter_total (input_ids : matrix Z)
  (scores : matrix score) (n : nat) (w : world M) :
  llama_good V B top_k top_p scores -> length input_ids = B ->
  exists st w',
    sample_loop_llama_iter fexp model start_ids sequence_length eos_token_id
      top_k top_p t (width input_ids) (llama_init input_ids scores) n w
    = (Ok st, w')
    /\ (exists cols,
          ls_tokens st = input_ids :: cols
          /\ Forall (fun c => length c = length input_ids) cols)
    /\ length (ls_done_flags st) = B
    /\ (ls_stopped st = false -> llama_good V B top_k top_p (ls_scores st)).
Proof.
  intros Hgood Hin. unfold sample_loop_llama_iter.
  induction n as [|n [st [w1 [Hrun [[cols [Hc Hcols]] [Hfl Hst]]]]]].
  - do 2 eexists. split; [reflexivity|].
    cbn [llama_init ls_tokens ls_done_flags ls_stopped ls_scores].
    split; [exists []; auto|]. split; [now rewrite length_map | auto].
  - cbn [for_range]. rewrite (@bind_ok_run _ _ _ _ _ _ _ _ Hrun).
    destruct (ls_stopped st) eqn:Es.
    + exists st, w1. split; [reflexivity|]. split; [eauto|].
      split; [exact Hfl | congruence].
    + destruct (sample_loop_llama_round_total
                  (width input_ids + Z.of_nat n)%Z st w1 (Hst eq_refl) Hfl)
        as [st' [w' [Hr [[col [Ht Hcl]] [Hfl' Hnext]]]]].
      exists st', w'. split; [exact Hr|]. split; [|auto].
      exists (cols ++ [column col]). rewrite Ht, Hc.
      split; [reflexivity|]. apply Forall_app. split; [exact Hcols|].
      constructor; [|constructor]. unfold column. rewrite length_map.
      congruence.
Qed.

Lemma sample_llama_total (input_ids : matrix Z) (w : world M) :
  0 < t -> length input_ids = B ->
  exists out w',
    sample_llama fexp model input_ids start_ids sequence_length eos_token_id
      top_k top_p (PyFloat t) w = (Ok out, w')
    /\ length out = B.
Proof.
  intros Ht Hin. unfold sample_llama. rewrite params_ok, bind_lift_run.
  destruct (forward_run model input_ids (arange (width input_ids)) start_ids w)
    as [sc [w1 [Hf [Ho _]]]].
  rewrite (@bind_ok_run _ _ _ _ _ _ _ _ Hf).
  unfold sample_loop_llama. rewrite params_ok, bind_lift_run.
  assert (Hill : temperature_illegal (PyFloat t) = false)
    by (apply temperature_illegal_spec; exists t; auto).
  rewrite Hill.
  destruct (@sample_loop_llama_iter_total input_ids sc
              (Z.to_nat (sequence_length - width input_ids)) w1)
    as [st [w2 [Hrun [[cols [Hc Hcols]] _]]]].
  - subst sc. now apply model_good.
  - exact Hin.
  - rewrite (@bind_ok_run _ _ _ _ _ _ _ _ Hrun). unfold lift. rewrite Hc.
    cbn [cat].
    destruct (@cat_from_total _ cols input_ids Hcols) as [out Hout].
    rewrite Hout. exists out, w2. split; [reflexivity|].
    apply cat_from_prefix, Forall2_length in Hout. congruence.
Qed.

End LlamaTotal.

(** X17. [sample_llama] returns at temperature 1.0, where line 186
    leaves the scores as the model gave them: with a model that answers
    every sequence with one row of [V] scores, each a finite number or
    minus infinity and one of them finite, a vocabulary of at most
    [2^24] tokens (the most that [torch.multinomial] draws from),
    accepted [top_k] and [top_p], a 64-bit [eos_token_id], a
    [sequence_length] of at most [2^31] (cache positions are 32-bit) and
    a non-empty batch, the call does not fail, whatever the random draws
    and the rounding of the cumulative probabilities are, and returns one
    row per sequence; when both [top_k] and [top_p] are set this is shown
    for a batch of one sequence, and for any batch if the scores of the
    model hold no minus infinity. *)
Theorem sample_llama_returns {M} (fexp : arith) (model : model_fn M score)
  (input_ids : matrix Z) (start_ids : option (list Z))
  (sequence_length eos_token_id : Z) (top_k top_p : pyobj) (V : nat)
  (w : world M) :
  (forall q, 0 < fexp q) ->
  one_row_per_sequence model ->
  finite_model V model ->
  validate_top_k_top_p_min_tokens_to_keep top_k top_p PyNone = Ok tt ->
  (Z.of_nat V <= 2 ^ 24)%Z ->
  int64 eos_token_id ->
  (sequence_length <= 2 ^ 31)%Z ->
  top_k = PyNone \/ top_p = PyNone \/ length input_ids = 1%nat
  \/ all_finite_model model ->
  input_ids <> [] ->
  exists out w',
    sample_llama fexp model input_ids start_ids sequence_length eos_token_id
      top_k top_p (PyFloat 1) w = (Ok out, w')
    /\ length out = length input_ids.
Proof.
  intros Hpos Hrows Hfin Hv _ _ _ Hone Hne.
  apply sample_llama_total with (V := V) (B := length input_ids); auto.
  - intros ms tokens c s Hlen. unfold llama_good. split; [apply Hfin|].
    split; [rewrite Hrows; exact Hlen|].
    destruct Hone as [H|[H|[H|H]]]; auto.
  - destruct input_ids; [congruence | discriminate].
  - reflexivity.
Qed.

Lemma sample_llama_returns_witness :
  exists out w',
    sample_llama qexp (uniform_model [fin 1; fin 5; fin 2])
      [[0; 2]; [1; 1]]%Z None 5 2 (PyInt 50) (PyFloat 1) (PyFloat 1)
      (init_world tt [4; 7; 1]%nat)
    = (Ok out, w')
    /\ length out = length [[0; 2]; [1; 1]]%Z.
Proof.
  apply (@sample_llama_returns unit qexp (uniform_model [fin 1; fin 5; fin 2])
           [[0; 2]; [1; 1]]%Z None 5 2 (PyInt 50) (PyFloat 1) 3%nat
           (init_world tt [4; 7; 1]%nat)).
  - exact qexp_pos.
  - apply uniform_model_rows.
  - intros ms tokens c s. unfold finite_rows. simpl.
    apply Forall_map, Forall_forall. intros r _.
    split; [reflexivity|]. exists 0%nat, (inject_Z 1). reflexivity.
  - reflexivity.
  - simpl. lia.
  - unfold int64. lia.
  - lia.
  - right. right. right. intros ms tokens c s. unfold all_finite. simpl.
    apply Forall_map, Forall_forall. intros r _.
    repeat constructor; discriminate.
  - discriminate.
Defined.

(** ** Generated tokens are vocabulary positions *)

Lemma cat_generated (P : Z -> Prop) (input_ids : matrix Z)
  (cols : list (matrix Z)) (out : matrix Z) :
  Forall (Forall (Forall P)) cols ->
  cat (input_ids :: cols) = Ok out ->
  Forall2 (fun r o => exists gen, o = r ++ gen /\ Forall P gen) input_ids out.
Proof.
  intros Hcols H. cbn [cat] in H. apply cat_from_prefix in H.
  eapply Forall2_impl; [|exact H]. intros r o [suf [-> Hsuf]].
  exists suf. split; [reflexivity|]. apply Forall_forall. intros x Hx.
  destruct (Hsuf x Hx) as [m [row [Hm [Hrow Hin]]]].
  rewrite Forall_forall in Hcols. specialize (Hcols m Hm).
  rewrite Forall_forall in Hcols. specialize (Hcols row Hrow).
  rewrite Forall_forall in Hcols. exact (Hcols x Hin).
Qed.

Lemma column_forall (P : Z -> Prop) (l : list Z) :
  Forall P l -> Forall (Forall P) (column l).
Proof.
  intro H. unfold column. apply Forall_map. eapply Forall_impl; [|exact H].
  intros x Hx. now constructor.
Qed.

Lemma lookup_range {A} (row : list A) (t : Z) (x : A) :
  lookup row t = Ok x -> (0 <= t < Z.of_nat (length row))%Z.
Proof.
  unfold lookup. destruct (t <? 0)%Z eqn:E; [discriminate|].
  apply Z.ltb_ge in E.
  destruct (nth_error row (Z.to_nat t)) eqn:En; [|discriminate]. intros _.
  assert (Z.to_nat t < length row)%nat by (apply nth_error_Some; congruence).
  lia.
Qed.

Lemma topk_idx_in_vocab (V : nat) (K : Z) (row : list score) :
  length row = V -> Forall (in_vocab V) (topk_idx K row).
Proof. intros <-. apply topk_idx_positions. Qed.

Lemma broadcast2_in {A B C} (f : A -> B -> C) (xs : list A) (ys : list B)
  (zs : list C) :
  broadcast2 f xs ys = Ok zs ->
  forall z, In z zs -> exists x y, In x xs /\ In y ys /\ z = f x y.
Proof.
  assert (Hmap2 : forall (xs : list A) (ys : list B) z,
             In z (map2 f xs ys) ->
             exists x y, In x xs /\ In y ys /\ z = f x y).
  { induction xs0 as [|x xs0 IH]; intros [|y ys0] z Hz; simpl in Hz;
      try contradiction.
    destruct Hz as [<-|Hz].
    - exists x, y. simpl. auto.
    - destruct (IH _ _ Hz) as [x' [y' [Hx [Hy ->]]]].
      exists x', y'. simpl. auto. }
  unfold broadcast2. intros H z Hz.
  destruct (length xs =? length ys)%nat.
  - injection H as <-. now apply Hmap2.
  - destruct xs as [|x [|x' xs]].
    + destruct ys as [|y [|y' ys]]; try discriminate.
      injection H as <-. contradiction.
    + injection H as <-. apply in_map_iff in Hz.
      destruct Hz as [y [<- Hy]]. exists x, y. simpl. auto.
    + destruct ys as [|y [|y' ys]]; try discriminate.
      assert (Hzs : zs = map (fun x0 => f x0 y) (x :: x' :: xs))
        by (injection H as <-; reflexivity).
      rewrite Hzs in Hz. apply in_map_iff in Hz.
      destruct Hz as [x0 [<- Hx0]]. exists x0, y. simpl. auto.
Qed.

(** The indices that the filtering engine returns are positions of the
    vocabulary. *)
Lemma filtering_indices_in_vocab (fexp : arith) (scores : matrix score)
  (top_k top_p m : pyobj) (V : nat) (cs : matrix score) (ci : matrix Z) :
  Forall (fun r => length r = V) scores ->
  top_k_top_p_filtering fexp scores top_k top_p m = Ok (cs, ci) ->
  Forall (Forall (in_vocab V)) ci.
Proof.
  intros Hall H. unfold top_k_top_p_filtering in H.
  apply rbind_ok in H. destruct H as [[] [_ H]].
  assert (Hid : Ok (input_value_and_indices scores) = Ok (cs, ci) ->
                Forall (Forall (in_vocab V)) ci).
  { intro Hi.
    assert (Hi' : input_value_and_indices scores = (cs, ci)) by congruence.
    unfold input_value_and_indices in Hi'. injection Hi' as _ <-.
    apply Forall_map. destruct scores as [|row scores]; [constructor|].
    assert (Hw : width (row :: scores) = Z.of_nat V)
      by (apply width_uniform; [discriminate | exact Hall]).
    rewrite Hw. apply Forall_forall. intros r _. apply Forall_forall.
    intros j Hj. apply arange_bounds in Hj. exact Hj. }
  assert (Htopk : forall K kv ki,
             topk scores K = Ok (kv, ki) -> Forall (Forall (in_vocab V)) ki).
  { intros K kv ki Hk. apply topk_indices_rows in Hk.
    eapply Forall2_Forall_r; [exact Hk | exact Hall|].
    intros row t -> Hrow. now apply topk_idx_in_vocab. }
  destruct top_k as [|k|x|s], top_p as [|z|p|s'];
    try (now apply Hid);
    destruct m as [|mz|mq|ms]; try discriminate;
    destruct (width scores <? mz)%Z; try (now apply Hid); try discriminate.
  - (* top_p alone *)
    unfold filter_by_top_p in H. cbn [rbind] in H.
    apply rbind_ok in H. destruct H as [w [_ H]]. cbn [rbind] in H.
    injection H as _ <-. rewrite !map_map. apply Forall_map.
    eapply Forall_impl; [|exact Hall]. intros row Hrow. cbn beta in *.
    apply Forall_forall. intros j Hj. apply firstn_in in Hj.
    pose proof (sort_row_positions row) as Hpos.
    rewrite Forall_forall in Hpos. rewrite <- Hrow. now apply Hpos.
  - (* top_k alone *)
    eapply Htopk. exact H.
  - (* both *)
    apply rbind_ok in H. destruct H as [[kv ki] [Hk Hp]]. cbn [snd] in Hp.
    apply Htopk in Hk. apply filter_by_top_p_some_incl in Hp.
    eapply Forall2_Forall_r; [exact Hp | exact Hk|].
    intros t crow Hincl Ht. rewrite Forall_forall in *.
    intros j Hj. apply Ht, Hincl, Hj.
Qed.

Lemma mask_column_lengths (j : Z) (scores masked : matrix score) :
  mask_column j scores = Ok masked ->
  Forall2 (fun row mrow => length mrow = length row) scores masked.
Proof.
  unfold mask_column. intro H. apply rmap_list_ok in H.
  eapply Forall2_impl; [|exact H]. intros row mrow Hr. cbn beta in Hr.
  destruct ((j <? - Z.of_nat (length row))%Z
            || (Z.of_nat (length row) <=? j)%Z); [discriminate|].
  injection Hr as <-. apply set_nth_length.
Qed.

Lemma gathered_in_vocab (V : nat) (ci : matrix Z) (pos inputs : list Z) :
  Forall (Forall (in_vocab V)) ci ->
  gather ci pos = Ok inputs -> Forall (in_vocab V) inputs.
Proof.
  intros Hci Hg. apply gather_in in Hg.
  eapply Forall2_Forall_r; [exact Hg | exact Hci|].
  intros row x Hin Hrow. rewrite Forall_forall in Hrow. now apply Hrow.
Qed.

Section Vocabulary.

Context {M : Type}.
Variable fexp : arith.
Variable model : model_fn M score.
Variable start_ids : option (list Z).
Variable sequence_length eos_token_id : Z.
Variable V : nat.

Hypothesis model_vocab : vocab_model V model.

Lemma sample_greedy_round_vocab (c : Z) (st st' : greedy_state)
  (w w' : world M) :
  Forall (fun r => length r = V) (gs_scores st) ->
  sample_greedy_round model start_ids c st w = (Ok st', w') ->
  (exists inputs, gs_tokens st' = gs_tokens st ++ [column inputs]
                  /\ Forall (in_vocab V) inputs)
  /\ Forall (fun r => length r = V) (gs_scores st').
Proof.
  intros Hall H. unfold sample_greedy_round in H.
  apply bind_ok_inv in H. destruct H as [inputs [w1 [H1 H]]].
  apply lift_ok_inv in H1. destruct H1 as [H1 ->].
  destruct (forward_run model (column inputs) [c] start_ids w)
    as [out [w2 [Hf [Ho _]]]].
  rewrite (@bind_ok_run _ _ _ _ _ _ _ _ Hf) in H.
  apply ret_ok_inv in H. destruct H as [-> ->].
  cbn [gs_tokens gs_scores]. split; [|subst out; apply model_vocab].
  exists inputs. split; [reflexivity|].
  apply rmap_list_ok in H1.
  eapply Forall2_Forall_r; [exact H1 | exact Hall|].
  intros row t Ht Hrow. apply argmax_row_maximum in Ht.
  destruct Ht as [v [Hv _]]. apply lookup_range in Hv.
  unfold in_vocab. now rewrite <- Hrow.
Qed.

Lemma sample_loop_round_vocab (top_k c : Z) (st st' : loop_state)
  (w w' : world M) :
  Forall (fun r => length r = V) (lp_scores st) ->
  sample_loop_round fexp model start_ids sequence_length eos_token_id top_k
    c st w = (Ok st', w') ->
  (exists inputs, lp_tokens st' = lp_tokens st ++ [column inputs]
                  /\ Forall (in_vocab V) inputs)
  /\ Forall (fun r => length r = V) (lp_scores st').
Proof.
  intros Hall H. unfold sample_loop_round in H.
  apply bind_ok_inv in H. destruct H as [masked [w1 [H1 H]]].
  apply lift_ok_inv in H1. destruct H1 as [H1 ->].
  apply bind_ok_inv in H. destruct H as [[kv ki] [w1 [H2 H]]].
  apply lift_ok_inv in H2. destruct H2 as [H2 ->].
  apply bind_ok_inv in H. destruct H as [pos [w1 [H3 H]]].
  apply bind_ok_inv in H. destruct H as [inputs [w2 [H4 H]]].
  apply lift_ok_inv in H4. destruct H4 as [H4 ->]. cbn [snd] in H4.
  assert (Hm : Forall (fun r => length r = V) masked).
  { apply mask_column_lengths in H1.
    eapply Forall2_Forall_r; [exact H1 | exact Hall|].
    intros row mrow Hl Hrow. congruence. }
  assert (Hin : Forall (in_vocab V) inputs).
  { eapply gathered_in_vocab; [|exact H4].
    apply topk_indices_rows in H2.
    eapply Forall2_Forall_r; [exact H2 | exact Hm|].
    intros row t -> Hrow. now apply topk_idx_in_vocab. }
  destruct (sequence_length <=? c + 1)%Z.
  - apply ret_ok_inv in H. destruct H as [-> _]. cbn [lp_tokens lp_scores].
    split; [eauto | exact Hm].
  - destruct (forward_run model (column inputs) [c] start_ids w1)
      as [out [w3 [Hf [Ho _]]]].
    rewrite (@bind_ok_run _ _ _ _ _ _ _ _ Hf) in H.
    apply ret_ok_inv in H. destruct H as [-> _]. cbn [lp_tokens lp_scores].
    split; [eauto | subst out; apply model_vocab].
Qed.

Variable top_k top_p : pyobj.
Variable t : Q.

Lemma llama_sample_vocab (scores sc : matrix score) (inputs : list Z)
  (w w' : world M) :
  Forall (fun r => length r = V) scores ->
  llama_sample fexp top_k top_p t scores w = (Ok (sc, inputs), w') ->
  Forall (in_vocab V) inputs /\ Forall (fun r => length r = V) sc.
Proof.
  intros Hall H. unfold llama_sample in H.
  apply bind_ok_inv in H. destruct H as [[cs ci] [w1 [Hf H]]].
  apply lift_ok_inv in Hf. destruct Hf as [Hf ->].
  apply bind_ok_inv in H. destruct H as [pos [w1 [_ H]]].
  apply bind_ok_inv in H. destruct H as [inp [w2 [Hg H]]].
  apply lift_ok_inv in Hg. destruct Hg as [Hg ->].
  apply ret_ok_inv in H. destruct H as [H _]. injection H as -> ->.
  assert (Hs : Forall (fun r => length r = V)
                 (if negb (Qeq_bool t 1) then div_scores t scores
                  else scores)).
  { destruct (negb (Qeq_bool t 1)); [|exact Hall].
    unfold div_scores. apply Forall_map. eapply Forall_impl; [|exact Hall].
    intros row Hrow. cbn beta in *. now rewrite length_map. }
  split; [|exact Hs].
  eapply gathered_in_vocab; [|exact Hg].
  eapply filtering_indices_in_vocab; [exact Hs | exact Hf].
Qed.

Lemma sample_loop_llama_round_vocab (c : Z) (st st' : llama_state)
  (w w' : world M) :
  Forall (fun r => length r = V) (ls_scores st) ->
  (In true (ls_done_flags st) -> in_vocab V eos_token_id) ->
  sample_loop_llama_round fexp model start_ids sequence_length eos_token_id
    top_k top_p t c st w = (Ok st', w') ->
  (exists col, ls_tokens st' = ls_tokens st ++ [column col]
               /\ Forall (in_vocab V) col)
  /\ Forall (fun r => length r = V) (ls_scores st')
  /\ (In true (ls_done_flags st') -> in_vocab V eos_token_id).
Proof.
  intros Hall Hflag H. apply sample_loop_llama_round_inv in H.
  destruct H as [sc [w1 [Hs [Hu [col [Hw [Ht [_ [Hstop Hrun]]]]]]]]].
  destruct (@llama_sample_vocab _ _ _ _ _ Hall Hs) as [Hin Hsc].
  assert (Hflag' : In true (ls_done_flags st') -> in_vocab V eos_token_id).
  { intro Hd. unfold update_done in Hu.
    destruct (broadcast2_in _ _ _ Hu _ Hd) as [d [e [Hd0 [He Heq]]]].
    symmetry in Heq. apply orb_true_iff in Heq.
    destruct Heq as [Hd1 | He1]; [subst d; now apply Hflag|]. subst e.
    apply in_map_iff in He. destruct He as [x [Hx Hxin]].
    apply Z.eqb_eq in Hx. subst x.
    rewrite Forall_forall in Hin. now apply Hin. }
  split; [|split; [|exact Hflag']].
  - exists col. split; [exact Ht|]. apply Forall_forall. intros x Hx.
    unfold where_done in Hw.
    destruct (broadcast2_in _ _ _ Hw _ Hx) as [d [y [Hd [Hy ->]]]].
    destruct d; [now apply Hflag'|].
    rewrite Forall_forall in Hin. now apply Hin.
  - destruct (ls_stopped st') eqn:Es.
    + destruct (Hstop eq_refl) as [_ ->]. exact Hsc.
    + specialize (Hrun eq_refl).
      destruct (forward_run model (column (ls_inputs st')) [c] start_ids w1)
        as [out [w3 [Hf [Ho _]]]].
      rewrite Hf in Hrun. injection Hrun as <- _. subst out.
      apply model_vocab.
Qed.

End Vocabulary.

(** X18. Generated tokens are vocabulary positions: with a model whose
    answers have rows of [V] scores, whenever [sample_greedy],
    [simple_sample] or [sample_llama] returns, every returned row is the
    prompt row followed by tokens [t] with [0 <= t < V], whatever
    [eos_token_id] is (the padding of [sample_llama] included). *)
Theorem generated_tokens_are_vocabulary_positions {M} (fexp : arith)
  (model : model_fn M score) (input_ids : matrix Z)
  (start_ids : option (list Z)) (sequence_length eos_token_id : Z) (V : nat)
  (w : world M) :
  vocab_model V model ->
  (forall out w',
     sample_greedy model input_ids start_ids sequence_length w = (Ok out, w') ->
     Forall2 (generated_in_vocab V) input_ids out)
  /\ (forall top_k out w',
        simple_sample fexp model input_ids start_ids sequence_length
          eos_token_id top_k w = (Ok out, w') ->
        Forall2 (generated_in_vocab V) input_ids out)
  /\ (forall top_k top_p temperature out w',
        sample_llama fexp model input_ids start_ids sequence_length
          eos_token_id top_k top_p temperature w = (Ok out, w') ->
        Forall2 (generated_in_vocab V) input_ids out).
Proof.
  intro Hmodel.
  destruct (forward_run model input_ids (arange (width input_ids)) start_ids w)
    as [sc [w1 [Hf [Ho _]]]].
  assert (Hsc : Forall (fun r => length r = V) sc)
    by (subst sc; apply Hmodel).
  split; [|split].
  - intros out w' H. unfold sample_greedy in H.
    rewrite (@bind_ok_run _ _ _ _ _ _ _ _ Hf) in H.
    apply bind_ok_inv in H. destruct H as [st [w2 [Hrun Hcat]]].
    apply lift_ok_inv in Hcat. destruct Hcat as [Hcat _].
    unfold sample_greedy_iter in Hrun.
    apply for_range_inv
      with (I := fun st =>
                   (exists cols, gs_tokens st = input_ids :: cols
                                 /\ Forall (Forall (Forall (in_vocab V))) cols)
                   /\ Forall (fun r => length r = V) (gs_scores st))
      in Hrun.
    + destruct Hrun as [[cols [Hc Hcols]] _]. rewrite Hc in Hcat.
      exact (@cat_generated _ _ _ _ Hcols Hcat).
    + cbn [gs_tokens gs_scores]. split; [exists []; auto | exact Hsc].
    + intros c s w0 s' w0' [[cols [Hc Hcols]] Hs] Hb.
      destruct (@sample_greedy_round_vocab M model start_ids V Hmodel
                  c s s' w0 w0' Hs Hb) as [[inputs [Ht Hin]] Hs'].
      split; [|exact Hs']. exists (cols ++ [column inputs]).
      rewrite Ht, Hc. split; [reflexivity|]. apply Forall_app.
      split; [exact Hcols|]. constructor; [|constructor].
      now apply column_forall.
  - intros top_k out w' H. unfold simple_sample in H.
    rewrite (@bind_ok_run _ _ _ _ _ _ _ _ Hf) in H. unfold sample_loop in H.
    apply bind_ok_inv in H. destruct H as [st [w2 [Hrun Hcat]]].
    apply lift_ok_inv in Hcat. destruct Hcat as [Hcat _].
    unfold sample_loop_iter in Hrun.
    apply for_range_inv
      with (I := fun st =>
                   (exists cols, lp_tokens st = input_ids :: cols
                                 /\ Forall (Forall (Forall (in_vocab V))) cols)
                   /\ Forall (fun r => length r = V) (lp_scores st))
      in Hrun.
    + destruct Hrun as [[cols [Hc Hcols]] _]. rewrite Hc in Hcat.
      exact (@cat_generated _ _ _ _ Hcols Hcat).
    + cbn [lp_tokens lp_scores]. split; [exists []; auto | exact Hsc].
    + intros c s w0 s' w0' [[cols [Hc Hcols]] Hs] Hb.
      destruct (@sample_loop_round_vocab M fexp model start_ids
                  sequence_length eos_token_id V Hmodel top_k c s s' w0 w0'
                  Hs Hb) as [[inputs [Ht Hin]] Hs'].
      split; [|exact Hs']. exists (cols ++ [column inputs]).
      rewrite Ht, Hc. split; [reflexivity|]. apply Forall_app.
      split; [exact Hcols|]. constructor; [|constructor].
      now apply column_forall.
  - intros top_k top_p temperature out w' H. unfold sample_llama in H.
    apply bind_ok_inv in H. destruct H as [[] [w0 [Hv H]]].
    apply lift_ok_inv in Hv. destruct Hv as [Hv ->].
    rewrite (@bind_ok_run _ _ _ _ _ _ _ _ Hf) in H.
    unfold sample_loop_llama in H. rewrite Hv, bind_lift_run in H.
    destruct (temperature_illegal temperature);
      [apply lift_ok_inv in H; destruct H; discriminate|].
    destruct temperature as [|z|t|s];
      try (apply lift_ok_inv in H; destruct H; discriminate).
    apply bind_ok_inv in H. destruct H as [st [w2 [Hrun Hcat]]].
    apply lift_ok_inv in Hcat. destruct Hcat as [Hcat _].
    unfold sample_loop_llama_iter in Hrun.
    apply for_range_inv
      with (I := fun st =>
                   (exists cols, ls_tokens st = input_ids :: cols
                                 /\ Forall (Forall (Forall (in_vocab V))) cols)
                   /\ Forall (fun r => length r = V) (ls_scores st)
                   /\ (In true (ls_done_flags st) ->
                       in_vocab V eos_token_id))
      in Hrun.
    + destruct Hrun as [[cols [Hc Hcols]] _]. rewrite Hc in Hcat.
      exact (@cat_generated _ _ _ _ Hcols Hcat).
    + cbn [llama_init ls_tokens ls_scores ls_done_flags].
      split; [exists []; auto|]. split; [exact Hsc|].
      intro Hd. apply in_map_iff in Hd. destruct Hd as [x [Hx _]].
      discriminate.
    + intros c s w0 s' w0' [[cols [Hc Hcols]] [Hs Hd]] Hb.
      destruct (@sample_loop_llama_round_vocab M fexp model start_ids
                  sequence_length eos_token_id V Hmodel top_k top_p t c s s'
                  w0 w0' Hs Hd Hb) as [[col [Ht Hin]] [Hs' Hd']].
      split; [|auto]. exists (cols ++ [column col]).
      rewrite Ht, Hc. split; [reflexivity|]. apply Forall_app.
      split; [exact Hcols|]. constructor; [|constructor].
      now apply column_forall.
Qed.

Lemma uniform_model_vocab (row : list score) :
  vocab_model (length row) (uniform_model row).
Proof.
  intros ms tokens c s. simpl. apply Forall_map, Forall_forall. reflexivity.
Qed.

Lemma generated_tokens_are_vocabulary_positions_witness :
  Forall2 (generated_in_vocab 3) [[0; 2]]%Z [[0; 2; 1; 1]]%Z
  /\ Forall2 (generated_in_vocab 3) [[0; 2]]%Z [[0; 2; 2; 1]]%Z
  /\ Forall2 (generated_in_vocab 3) [[0; 2]; [2; 0]]%Z
       [[0; 2; 2; 1]; [2; 0; 1; 1]]%Z.
Proof.
  split; [|split].
  - apply (proj1 (@generated_tokens_are_vocabulary_positions unit qexp
                    (uniform_model [fin 1; fin 5; fin 2]) [[0; 2]]%Z None
                    4 0 3%nat (init_world tt [])
                    (uniform_model_vocab [fin 1; fin 5; fin 2]))
             [[0; 2; 1; 1]]%Z
             {| w_model := tt;
                w_calls := [prefill_call [[0; 2]]%Z None;
                            decode_call [[1]]%Z 2; decode_call [[1]]%Z 3];
                w_rng := [] |}).
    vm_compute. reflexivity.
  - apply (proj1 (proj2 (@generated_tokens_are_vocabulary_positions unit qexp
                           (uniform_model [fin 1; fin 5; fin 2]) [[0; 2]]%Z
                           None 4 0 3%nat (init_world tt [1; 0; 3]%nat)
                           (uniform_model_vocab [fin 1; fin 5; fin 2])))
             2%Z [[0; 2; 2; 1]]%Z
             {| w_model := tt;
                w_calls := [prefill_call [[0; 2]]%Z None;
                            decode_call [[2]]%Z 2];
                w_rng := [3%nat] |}).
    vm_compute. reflexivity.
  - apply (proj2 (proj2 (@generated_tokens_are_vocabulary_positions unit qexp
                           (uniform_model [fin 1; fin 5; fin 2])
                           [[0; 2]; [2; 0]]%Z None 6 1 3%nat
                           (init_world tt [1; 0; 0; 0; 1; 1]%nat)
                           (uniform_model_vocab [fin 1; fin 5; fin 2])))
             (PyInt 2) PyNone (PyFloat 1) [[0; 2; 2; 1]; [2; 0; 1; 1]]%Z
             {| w_model := tt;
                w_calls := [prefill_call [[0; 2]; [2; 0]]%Z None;
                            decode_call [[2]; [1]]%Z 2];
                w_rng := [1; 1]%nat |}).
    vm_compute. reflexivity.
Defined.
